(** * Memory-Management-Simulator: allocator and cache engines

    A shallow embedding of [src/allocator/memory_manager.cpp] and
    [src/cache/cache_simulator.cpp], with the properties stated for them.

    Conventions.
    - [size_t] is the 64-bit unsigned type of an LP64 target: a [Z] in
      [0, 2^64), every arithmetic result reduced by [size_wrap].
    - [int] is a [Z]; [++] on an [int] is [int_incr], the two's-complement
      successor.  Signed overflow is undefined in C++, so every theorem that
      speaks about the value of a counter assumes it is below [INT_MAX].
    - [std::vector] is a [list]; [v[i]] is stdpp's [v !! i].  The source never
      indexes outside the vector on the paths modelled here; the [None]
      branches of the lookups say what the model does there.  Loop counters
      and vector sizes are [nat]: the casts between [size_t] and [int] in the
      source are exact for vectors of fewer than 2^31 elements.
    - [std::queue] is a [list] whose head is the front of the queue.
    - [std::string] is a [string]; [std::stoull] and [std::stoi] are
      parameters of the command layer, with their three outcomes.
    - Console output is not modelled. *)

From Stdlib Require Import ZArith Lia Bool List.
From Stdlib Require Import Ascii String.
From Stdlib Require Import Floats.SpecFloat.
From stdpp Require Import base option list.
Import ListNotations.
Local Open Scope Z_scope.

(** ** Machine integers *)

Module Machine.

Definition SIZE_MAX : Z := 2 ^ 64 - 1.
Definition INT_MAX : Z := 2 ^ 31 - 1.
Definition INT_MIN : Z := - 2 ^ 31.

Definition is_size_t (z : Z) : Prop := 0 <= z <= SIZE_MAX.
Definition is_int (z : Z) : Prop := INT_MIN <= z <= INT_MAX.

Definition size_wrap (z : Z) : Z := z mod 2 ^ 64.
Definition size_add (a b : Z) : Z := size_wrap (a + b).
Definition size_sub (a b : Z) : Z := size_wrap (a - b).
Definition size_mul (a b : Z) : Z := size_wrap (a * b).

(** An [int] that [++] can be applied to without overflow. *)
Definition below_int_max (z : Z) : Prop := INT_MIN <= z < INT_MAX.

Definition int_wrap (z : Z) : Z := (z + 2 ^ 31) mod 2 ^ 32 - 2 ^ 31.
Definition int_incr (z : Z) : Z := int_wrap (z + 1).

(** [double] is IEEE 754 binary64, given by the library's specification of
    floating-point numbers at precision 53 and maximal exponent 1024. *)
Definition double : Type := spec_float.
Definition dprec : Z := 53.
Definition demax : Z := 1024.
Definition double_zero : double := S754_zero false.
Definition double_of_Z (z : Z) : double := binary_normalize dprec demax z 0 false.
Definition double_mul (x y : double) : double := SFmul dprec demax x y.
Definition double_div (x y : double) : double := SFdiv dprec demax x y.
Definition double_100 : double := double_of_Z 100.

End Machine.
Import Machine.

(** ** The segment allocator ([memory_manager.cpp]) *)

Module Allocator.

Inductive AllocationStrategy := FIRST_FIT | BEST_FIT | WORST_FIT.

Record MemorySegment := mkSegment {
  base_address : Z;
  segment_size : Z;
  is_available : bool;
  process_id : Z
}.

Record MemoryStatistics := mkStats {
  total_allocation_attempts : Z;
  successful_allocations : Z;
  failed_allocations : Z
}.

Record PhysicalMemorySimulator := mkSim {
  heap_segments : list MemorySegment;
  total_memory_capacity : Z;
  next_process_identifier : Z;
  current_strategy : AllocationStrategy;
  performance_stats : MemoryStatistics
}.

Definition can_accommodate (s : MemorySegment) (required_size : Z) : bool :=
  is_available s && (required_size <=? segment_size s).

(** *** Statistics *)

Definition new_statistics : MemoryStatistics := mkStats 0 0 0.

Definition record_allocation_attempt (s : MemoryStatistics) : MemoryStatistics :=
  mkStats (int_incr (total_allocation_attempts s))
          (successful_allocations s) (failed_allocations s).

Definition record_successful_allocation (s : MemoryStatistics) : MemoryStatistics :=
  mkStats (total_allocation_attempts s)
          (int_incr (successful_allocations s)) (failed_allocations s).

Definition record_failed_allocation (s : MemoryStatistics) : MemoryStatistics :=
  mkStats (total_allocation_attempts s)
          (successful_allocations s) (int_incr (failed_allocations s)).

Definition get_success_rate (s : MemoryStatistics) : double :=
  if total_allocation_attempts s =? 0 then double_zero
  else double_div
         (double_mul double_100 (double_of_Z (successful_allocations s)))
         (double_of_Z (total_allocation_attempts s)).

(** *** Construction, initialisation, reset *)

Definition new_simulator : PhysicalMemorySimulator :=
  mkSim [] 0 1 FIRST_FIT new_statistics.

Definition initialize_memory_pool (total_size : Z) (st : PhysicalMemorySimulator)
  : PhysicalMemorySimulator :=
  mkSim [mkSegment 0 total_size true (-1)] total_size 1
        (current_strategy st) new_statistics.

Definition set_allocation_strategy (strategy : AllocationStrategy)
  (st : PhysicalMemorySimulator) : PhysicalMemorySimulator :=
  mkSim (heap_segments st) (total_memory_capacity st)
        (next_process_identifier st) strategy (performance_stats st).

Definition reset_simulator (st : PhysicalMemorySimulator) : PhysicalMemorySimulator :=
  mkSim [] 0 1 FIRST_FIT new_statistics.

(** *** Placement search

    Each search is the source's [for] loop over the indices of the vector:
    [i] is the loop counter and the list argument the part of the vector not
    yet visited.  The result is the source's [int]: an index or [-1]. *)

Fixpoint first_fit_loop (i : nat) (rest : list MemorySegment) (required_size : Z) : Z :=
  match rest with
  | [] => -1
  | s :: rest' =>
      if can_accommodate s required_size then Z.of_nat i
      else first_fit_loop (S i) rest' required_size
  end.

Definition find_suitable_segment_first_fit (segs : list MemorySegment)
  (required_size : Z) : Z :=
  first_fit_loop 0 segs required_size.

Fixpoint best_fit_loop (i : nat) (rest : list MemorySegment) (required_size : Z)
  (best_index : Z) (smallest_suitable_size : Z) : Z :=
  match rest with
  | [] => best_index
  | s :: rest' =>
      if can_accommodate s required_size then
        if segment_size s <? smallest_suitable_size then
          best_fit_loop (S i) rest' required_size (Z.of_nat i) (segment_size s)
        else best_fit_loop (S i) rest' required_size best_index smallest_suitable_size
      else best_fit_loop (S i) rest' required_size best_index smallest_suitable_size
  end.

Definition find_suitable_segment_best_fit (segs : list MemorySegment)
  (required_size : Z) : Z :=
  best_fit_loop 0 segs required_size (-1) SIZE_MAX.

Fixpoint worst_fit_loop (i : nat) (rest : list MemorySegment) (required_size : Z)
  (worst_index : Z) (largest_suitable_size : Z) : Z :=
  match rest with
  | [] => worst_index
  | s :: rest' =>
      if can_accommodate s required_size then
        if largest_suitable_size <? segment_size s then
          worst_fit_loop (S i) rest' required_size (Z.of_nat i) (segment_size s)
        else worst_fit_loop (S i) rest' required_size worst_index largest_suitable_size
      else worst_fit_loop (S i) rest' required_size worst_index largest_suitable_size
  end.

Definition find_suitable_segment_worst_fit (segs : list MemorySegment)
  (required_size : Z) : Z :=
  worst_fit_loop 0 segs required_size (-1) 0.

Definition find_suitable_segment (strategy : AllocationStrategy)
  (segs : list MemorySegment) (required_size : Z) : Z :=
  match strategy with
  | FIRST_FIT => find_suitable_segment_first_fit segs required_size
  | BEST_FIT => find_suitable_segment_best_fit segs required_size
  | WORST_FIT => find_suitable_segment_worst_fit segs required_size
  end.

(** *** Splitting and merging *)

Definition with_size (s : MemorySegment) (size : Z) : MemorySegment :=
  mkSegment (base_address s) size (is_available s) (process_id s).

Definition with_owner (s : MemorySegment) (available : bool) (pid : Z) : MemorySegment :=
  mkSegment (base_address s) (segment_size s) available pid.

(** [heap_segments.insert(heap_segments.begin() + k, x)] *)
Definition vector_insert {A} (k : nat) (x : A) (v : list A) : list A :=
  take k v ++ x :: drop k v.

Definition split_memory_segment (segment_index : nat) (allocation_size : Z)
  (segs : list MemorySegment) : list MemorySegment :=
  match segs !! segment_index with
  | Some target_segment =>
      if allocation_size <? segment_size target_segment then
        let remaining_size := size_sub (segment_size target_segment) allocation_size in
        let new_segment_address := size_add (base_address target_segment) allocation_size in
        vector_insert (segment_index + 1)
          (mkSegment new_segment_address remaining_size true (-1))
          (<[segment_index := with_size target_segment allocation_size]> segs)
      else segs
  | None => segs
  end.

Definition merge_with_next_segment (current_index : nat)
  (segs : list MemorySegment) : list MemorySegment :=
  match segs !! current_index, segs !! (current_index + 1)%nat with
  | Some current, Some next =>
      if size_add (base_address current) (segment_size current) =? base_address next then
        delete (current_index + 1)%nat
          (<[current_index :=
               with_size current (size_add (segment_size current) (segment_size next))]> segs)
      else segs
  | _, _ => segs
  end.

Definition both_available (i : nat) (segs : list MemorySegment) : bool :=
  match segs !! i, segs !! (i + 1)%nat with
  | Some a, Some b => is_available a && is_available b
  | _, _ => false
  end.

(** The loop of [merge_adjacent_free_segments], one iteration per unit of
    fuel, started at counter [i].  After a merge the source decrements and
    then increments [i], so the next iteration runs at the same [i].  [None]:
    the fuel ran out before the loop condition became false. *)
Fixpoint merge_loop (fuel : nat) (i : nat) (segs : list MemorySegment)
  : option (list MemorySegment) :=
  match fuel with
  | O => None
  | S fuel' =>
      if (Z.of_nat i <? Z.of_nat (length segs) - 1) then
        if both_available i segs then
          merge_loop fuel' i (merge_with_next_segment i segs)
        else merge_loop fuel' (S i) segs
      else Some segs
  end.

(** [length segs + 1] iterations are enough whenever any number is
    ([merge_loop_fuel_enough] below), so [None] here stands for a run of the
    source that never leaves the loop. *)
Definition merge_adjacent_free_segments (segs : list MemorySegment)
  : option (list MemorySegment) :=
  merge_loop (S (length segs)) 0 segs.

(** *** Allocation and deallocation *)

Definition with_stats (st : PhysicalMemorySimulator) (stats : MemoryStatistics)
  : PhysicalMemorySimulator :=
  mkSim (heap_segments st) (total_memory_capacity st)
        (next_process_identifier st) (current_strategy st) stats.

Definition allocate_memory_block (requested_size : Z) (st : PhysicalMemorySimulator)
  : Z * PhysicalMemorySimulator :=
  let st1 := with_stats st (record_allocation_attempt (performance_stats st)) in
  if requested_size =? 0 then
    (-1, with_stats st1 (record_failed_allocation (performance_stats st1)))
  else
    let segment_index :=
      find_suitable_segment (current_strategy st1) (heap_segments st1) requested_size in
    if segment_index =? -1 then
      (-1, with_stats st1 (record_failed_allocation (performance_stats st1)))
    else
      let idx := Z.to_nat segment_index in
      let assigned_pid := next_process_identifier st1 in
      let segs1 := split_memory_segment idx requested_size (heap_segments st1) in
      let segs2 := alter (fun s => with_owner s false assigned_pid) idx segs1 in
      (assigned_pid,
       mkSim segs2 (total_memory_capacity st1) (int_incr assigned_pid)
             (current_strategy st1)
             (record_successful_allocation (performance_stats st1))).

(** The range-[for] of [deallocate_memory_block]: the index of the first
    segment that is allocated to [pid], if there is one. *)
Fixpoint owner_scan (i : nat) (rest : list MemorySegment) (pid : Z) : option nat :=
  match rest with
  | [] => None
  | s :: rest' =>
      if negb (is_available s) && (process_id s =? pid) then Some i
      else owner_scan (S i) rest' pid
  end.

(** [None]: the coalescing pass does not return. *)
Definition deallocate_memory_block (pid : Z) (st : PhysicalMemorySimulator)
  : option (bool * PhysicalMemorySimulator) :=
  match owner_scan 0 (heap_segments st) pid with
  | Some i =>
      match merge_adjacent_free_segments
              (alter (fun s => with_owner s true (-1)) i (heap_segments st)) with
      | Some segs =>
          Some (true, mkSim segs (total_memory_capacity st)
                            (next_process_identifier st) (current_strategy st)
                            (performance_stats st))
      | None => None
      end
  | None => Some (false, st)
  end.

(** *** Fragmentation analysis

    [display_fragmentation_analysis] only prints; the record holds the
    values it computes and prints. *)

Record FragmentationReport := mkReport {
  total_free_space : Z;
  total_allocated_space : Z;
  largest_free_block : Z;
  memory_utilization : double;
  external_fragmentation : double
}.

Fixpoint tally_segments (rest : list MemorySegment)
  (free allocated largest : Z) : Z * Z * Z :=
  match rest with
  | [] => (free, allocated, largest)
  | s :: rest' =>
      if is_available s then
        tally_segments rest' (size_add free (segment_size s)) allocated
                       (Z.max largest (segment_size s))
      else
        tally_segments rest' free (size_add allocated (segment_size s)) largest
  end.

Definition fragmentation_analysis (st : PhysicalMemorySimulator) : FragmentationReport :=
  let '(free, allocated, largest) := tally_segments (heap_segments st) 0 0 0 in
  mkReport free allocated largest
    (if 0 <? total_memory_capacity st then
       double_div (double_mul double_100 (double_of_Z allocated))
                  (double_of_Z (total_memory_capacity st))
     else double_zero)
    (if 0 <? free then
       double_div (double_mul double_100 (double_of_Z (size_sub free largest)))
                  (double_of_Z free)
     else double_zero).

End Allocator.

(** ** One cache level ([cache_simulator.cpp]) *)

Module Cache.

Record CacheBlock := mkBlock {
  valid : bool;
  tag : Z;
  data_address : Z
}.

Definition new_block : CacheBlock := mkBlock false 0 0.

Definition invalidate (b : CacheBlock) : CacheBlock := mkBlock false 0 0.

Record CacheMetrics := mkMetrics {
  total_accesses : Z;
  cache_hits : Z;
  cache_misses : Z
}.

Definition new_metrics : CacheMetrics := mkMetrics 0 0 0.

Definition record_hit (m : CacheMetrics) : CacheMetrics :=
  mkMetrics (int_incr (total_accesses m)) (int_incr (cache_hits m)) (cache_misses m).

Definition record_miss (m : CacheMetrics) : CacheMetrics :=
  mkMetrics (int_incr (total_accesses m)) (cache_hits m) (int_incr (cache_misses m)).

Definition get_hit_ratio (m : CacheMetrics) : double :=
  if total_accesses m =? 0 then double_zero
  else double_div (double_mul double_100 (double_of_Z (cache_hits m)))
                  (double_of_Z (total_accesses m)).

Definition get_miss_ratio (m : CacheMetrics) : double :=
  if total_accesses m =? 0 then double_zero
  else double_div (double_mul double_100 (double_of_Z (cache_misses m)))
                  (double_of_Z (total_accesses m)).

Record CacheLevel := mkCache {
  cache_blocks : list CacheBlock;
  fifo_queue : list Z;
  cache_size_bytes : Z;
  block_size_bytes : Z;
  number_of_blocks : Z;
  performance_metrics : CacheMetrics
}.

(** The constructor; [None] is the [std::invalid_argument] it throws. *)
Definition new_CacheLevel (cache_size block_size : Z) : option CacheLevel :=
  if block_size =? 0 then None
  else
    let blocks := cache_size / block_size in
    if blocks =? 0 then None
    else Some (mkCache (replicate (Z.to_nat blocks) new_block) []
                       cache_size block_size blocks new_metrics).

Definition calculate_block_index (c : CacheLevel) (memory_address : Z) : Z :=
  (memory_address / block_size_bytes c) mod number_of_blocks c.

Definition extract_tag (c : CacheLevel) (memory_address : Z) : Z :=
  memory_address / size_mul (block_size_bytes c) (number_of_blocks c).

(** [cache_blocks[i]], read.  An index outside the vector does not occur for
    a constructed cache ([calculate_block_index_in_range] below); the model
    reads a fresh block there. *)
Definition block_at (c : CacheLevel) (i : Z) : CacheBlock :=
  default new_block (cache_blocks c !! Z.to_nat i).

Definition with_metrics (c : CacheLevel) (m : CacheMetrics) : CacheLevel :=
  mkCache (cache_blocks c) (fifo_queue c) (cache_size_bytes c)
          (block_size_bytes c) (number_of_blocks c) m.

Definition evict_oldest_block (c : CacheLevel) : CacheLevel :=
  match fifo_queue c with
  | [] => c
  | oldest_block :: queue' =>
      mkCache (alter invalidate (Z.to_nat oldest_block) (cache_blocks c)) queue'
              (cache_size_bytes c) (block_size_bytes c) (number_of_blocks c)
              (performance_metrics c)
  end.

(** The tail of [access_memory]: populate the slot and push its index. *)
Definition load_block (block_index new_tag memory_address : Z) (c : CacheLevel)
  : CacheLevel :=
  mkCache (<[Z.to_nat block_index := mkBlock true new_tag memory_address]> (cache_blocks c))
          (fifo_queue c ++ [block_index])
          (cache_size_bytes c) (block_size_bytes c) (number_of_blocks c)
          (performance_metrics c).

Definition access_memory (memory_address : Z) (c : CacheLevel) : bool * CacheLevel :=
  let block_index := calculate_block_index c memory_address in
  let new_tag := extract_tag c memory_address in
  if valid (block_at c block_index) && (tag (block_at c block_index) =? new_tag) then
    (true, with_metrics c (record_hit (performance_metrics c)))
  else
    let c1 := with_metrics c (record_miss (performance_metrics c)) in
    let c2 := if valid (block_at c1 block_index) then evict_oldest_block c1 else c1 in
    (false, load_block block_index new_tag memory_address c2).

Definition flush_cache (c : CacheLevel) : CacheLevel :=
  mkCache (map invalidate (cache_blocks c)) []
          (cache_size_bytes c) (block_size_bytes c) (number_of_blocks c)
          (performance_metrics c).

(** A run of accesses, with the hit/miss answers in order. *)
Fixpoint access_all (addresses : list Z) (c : CacheLevel) : list bool * CacheLevel :=
  match addresses with
  | [] => ([], c)
  | a :: rest =>
      let '(hit, c1) := access_memory a c in
      let '(hits, c2) := access_all rest c1 in
      (hit :: hits, c2)
  end.

(** *** The two-level hierarchy

    [l1_cache] and [l2_cache] are owning pointers: [None] is [nullptr]. *)

Record MultiLevelCacheSimulator := mkHierarchy {
  l1_cache : option CacheLevel;
  l2_cache : option CacheLevel;
  cache_hierarchy_initialized : bool
}.

Definition new_hierarchy : MultiLevelCacheSimulator := mkHierarchy None None false.

Definition non_null {A} (p : option A) : bool :=
  match p with
  | Some _ => true
  | None => false
  end.

(** [initialize_cache_hierarchy] first deletes both levels without clearing
    the pointers.  When a constructor throws, the handler deletes both
    pointers again: the level built in the [try] block, if any, and
    otherwise the pointer deleted before.  A second [delete] of a non-null
    pointer is undefined; the result is [None] there. *)
Definition initialize_cache_hierarchy (l1_size l1_block_size l2_size l2_block_size : Z)
  (h : MultiLevelCacheSimulator) : option MultiLevelCacheSimulator :=
  match new_CacheLevel l1_size l1_block_size with
  | Some l1 =>
      match new_CacheLevel l2_size l2_block_size with
      | Some l2 => Some (mkHierarchy (Some l1) (Some l2) true)
      | None =>
          if non_null (l2_cache h) then None
          else Some (mkHierarchy None None false)
      end
  | None =>
      if non_null (l1_cache h) || non_null (l2_cache h) then None
      else Some (mkHierarchy None None false)
  end.

(** The [None] pointers of the second branch are not dereferenced by the
    source either: the flag is set only together with both levels. *)
Definition simulate_memory_access (memory_address : Z) (h : MultiLevelCacheSimulator)
  : bool * MultiLevelCacheSimulator :=
  if negb (cache_hierarchy_initialized h) then (false, h)
  else
    match l1_cache h, l2_cache h with
    | Some l1, Some l2 =>
        let '(hit1, l1') := access_memory memory_address l1 in
        if hit1 then
          (true, mkHierarchy (Some l1') (Some l2) (cache_hierarchy_initialized h))
        else
          let '(hit2, l2') := access_memory memory_address l2 in
          if hit2 then
            (true, mkHierarchy (Some l1') (Some l2') (cache_hierarchy_initialized h))
          else
            (false, mkHierarchy (Some l1') (Some l2') (cache_hierarchy_initialized h))
    | _, _ => (false, h)
    end.

Definition flush_all_caches (h : MultiLevelCacheSimulator) : MultiLevelCacheSimulator :=
  if negb (cache_hierarchy_initialized h) then h
  else
    match l1_cache h, l2_cache h with
    | Some l1, Some l2 =>
        mkHierarchy (Some (flush_cache l1)) (Some (flush_cache l2))
                    (cache_hierarchy_initialized h)
    | _, _ => h
    end.

Definition reset_cache_statistics (h : MultiLevelCacheSimulator)
  : option MultiLevelCacheSimulator :=
  if cache_hierarchy_initialized h then
    match l1_cache h, l2_cache h with
    | Some l1, Some l2 =>
        initialize_cache_hierarchy (cache_size_bytes l1) (block_size_bytes l1)
                                   (cache_size_bytes l2) (block_size_bytes l2) h
    | _, _ => Some h
    end
  else Some h.

(** A run of accesses through the hierarchy. *)
Fixpoint simulate_all (addresses : list Z) (h : MultiLevelCacheSimulator)
  : list bool * MultiLevelCacheSimulator :=
  match addresses with
  | [] => ([], h)
  | a :: rest =>
      let '(hit, h1) := simulate_memory_access a h in
      let '(hits, h2) := simulate_all rest h1 in
      (hit :: hits, h2)
  end.

End Cache.

(** ** The command layer ([command_processor.cpp]) *)

Module CommandProcessor.
Import Allocator.

(** *** Tokens

    [stream >> token] skips white space of the classic locale and then takes
    the characters up to the next white space; it fails when none is left. *)

Definition isspace (c : ascii) : bool :=
  let n := nat_of_ascii c in
  Nat.eqb n 32 || (Nat.leb 9 n && Nat.leb n 13).

Fixpoint skip_whitespace (s : string) : string :=
  match s with
  | EmptyString => EmptyString
  | String c rest => if isspace c then skip_whitespace rest else s
  end.

Fixpoint extract_word (s : string) : string * string :=
  match s with
  | EmptyString => (EmptyString, EmptyString)
  | String c rest =>
      if isspace c then (EmptyString, s)
      else let '(word, rest') := extract_word rest in (String c word, rest')
  end.

(** [stream >> token]: the token and the unread part, or [None]. *)
Definition read_token (s : string) : option (string * string) :=
  match extract_word (skip_whitespace s) with
  | (EmptyString, _) => None
  | (word, rest) => Some (word, rest)
  end.

(** The [while (stream >> token)] loop, one extraction per unit of fuel. *)
Fixpoint tokenize_loop (fuel : nat) (s : string) : list string :=
  match fuel with
  | O => []
  | S fuel' =>
      match read_token s with
      | Some (token, rest) => token :: tokenize_loop fuel' rest
      | None => []
      end
  end.

(** Every extraction but the last consumes a character, so
    [length + 1] extractions end the loop ([tokenize_loop_fuel] below). *)
Definition tokenize_command (command_line : string) : list string :=
  tokenize_loop (S (String.length command_line)) command_line.

(** *** Handlers *)

(** The outcome of [std::stoull] and [std::stoi]: a value or one of the two
    exceptions the handlers catch. *)
Inductive conversion :=
| Converted (value : Z)
| InvalidArgument
| OutOfRange.

Record CommandLineProcessor := mkProcessor {
  memory_simulator : PhysicalMemorySimulator;
  is_running : bool
}.

Definition new_processor (simulator : PhysicalMemorySimulator) : CommandLineProcessor :=
  mkProcessor simulator false.

Definition with_simulator (p : CommandLineProcessor)
  (simulator : PhysicalMemorySimulator) : CommandLineProcessor :=
  mkProcessor simulator (is_running p).

Section Handlers.

Variable stoull : string -> conversion.
Variable stoi : string -> conversion.

Definition handle_init_command (tokens : list string) (p : CommandLineProcessor)
  : CommandLineProcessor :=
  match tokens !! 1%nat with
  | Some argument =>
      match stoull argument with
      | Converted memory_size =>
          if memory_size =? 0 then p
          else with_simulator p
                 (initialize_memory_pool memory_size (memory_simulator p))
      | InvalidArgument => p
      | OutOfRange => p
      end
  | None => p
  end.

Definition one_of (s : string) (names : list string) : bool :=
  existsb (String.eqb s) names.

Definition handle_strategy_command (tokens : list string) (p : CommandLineProcessor)
  : CommandLineProcessor :=
  match tokens !! 1%nat with
  | Some algorithm =>
      if one_of algorithm ["first_fit"; "first"; "ff"]%string then
        with_simulator p (set_allocation_strategy FIRST_FIT (memory_simulator p))
      else if one_of algorithm ["best_fit"; "best"; "bf"]%string then
        with_simulator p (set_allocation_strategy BEST_FIT (memory_simulator p))
      else if one_of algorithm ["worst_fit"; "worst"; "wf"]%string then
        with_simulator p (set_allocation_strategy WORST_FIT (memory_simulator p))
      else p
  | None => p
  end.

Definition handle_allocate_command (tokens : list string) (p : CommandLineProcessor)
  : CommandLineProcessor :=
  match tokens !! 1%nat with
  | Some argument =>
      match stoull argument with
      | Converted allocation_size =>
          with_simulator p
            (snd (allocate_memory_block allocation_size (memory_simulator p)))
      | InvalidArgument => p
      | OutOfRange => p
      end
  | None => p
  end.

(** [None]: the deallocation does not return. *)
Definition handle_deallocate_command (tokens : list string) (p : CommandLineProcessor)
  : option CommandLineProcessor :=
  match tokens !! 1%nat with
  | Some argument =>
      match stoi argument with
      | Converted process_id =>
          match deallocate_memory_block process_id (memory_simulator p) with
          | Some (_, simulator) => Some (with_simulator p simulator)
          | None => None
          end
      | InvalidArgument => Some p
      | OutOfRange => Some p
      end
  | None => Some p
  end.

Definition handle_reset_command (p : CommandLineProcessor) : CommandLineProcessor :=
  with_simulator p (reset_simulator (memory_simulator p)).

Definition handle_exit_command (p : CommandLineProcessor) : CommandLineProcessor :=
  mkProcessor (memory_simulator p) false.

(** The display, statistics and help commands only print; so does an
    unknown command. *)
Definition process_single_command (command_line : string) (p : CommandLineProcessor)
  : option (bool * CommandLineProcessor) :=
  match tokenize_command command_line with
  | [] => Some (true, p)
  | command :: _ =>
      let tokens := tokenize_command command_line in
      let finish (p' : CommandLineProcessor) := Some (is_running p', p') in
      if one_of command ["init"; "initialize"]%string then
        finish (handle_init_command tokens p)
      else if one_of command ["strategy"; "set"]%string then
        finish (handle_strategy_command tokens p)
      else if one_of command ["alloc"; "malloc"]%string then
        finish (handle_allocate_command tokens p)
      else if one_of command ["free"; "dealloc"]%string then
        match handle_deallocate_command tokens p with
        | Some p' => finish p'
        | None => None
        end
      else if one_of command ["display"; "dump"; "show"]%string then finish p
      else if one_of command ["stats"; "statistics"; "analyze"]%string then finish p
      else if one_of command ["reset"; "clear"]%string then
        finish (handle_reset_command p)
      else if one_of command ["help"; "?"]%string then finish p
      else if one_of command ["quit"; "exit"; "bye"]%string then
        finish (handle_exit_command p)
      else finish p
  end.

(** The loop of [run_interactive_session] over the lines that
    [std::getline] delivers; the state when the flag is cleared or the given
    lines are used up. *)
Fixpoint interactive_loop (input : list string) (p : CommandLineProcessor)
  : option CommandLineProcessor :=
  match input with
  | [] => Some p
  | input_line :: rest =>
      if is_running p then
        match input_line with
        | EmptyString => interactive_loop rest p
        | _ =>
            match process_single_command input_line p with
            | Some (_, p') => interactive_loop rest p'
            | None => None
            end
        end
      else Some p
  end.

Definition run_interactive_session (input : list string) (p : CommandLineProcessor)
  : option CommandLineProcessor :=
  interactive_loop input (mkProcessor (memory_simulator p) true).

End Handlers.

End CommandProcessor.

Import Allocator Cache CommandProcessor.

(** ** Vocabulary of the properties *)

(** Every two consecutive segments of the list satisfy [P]. *)
Fixpoint adjacent_pairs (P : MemorySegment -> MemorySegment -> Prop)
  (segs : list MemorySegment) : Prop :=
  match segs with
  | [] => True
  | a :: rest =>
      match rest with
      | [] => True
      | b :: _ => P a b
      end /\ adjacent_pairs P rest
  end.

(** Contiguity as [merge_with_next_segment] tests it. *)
Definition touches (a b : MemorySegment) : Prop :=
  size_add (base_address a) (segment_size a) = base_address b.

Definition contiguous (segs : list MemorySegment) : Prop :=
  adjacent_pairs touches segs.

Definition not_both_free (a b : MemorySegment) : Prop :=
  is_available a && is_available b = false.

Definition no_adjacent_free (segs : list MemorySegment) : Prop :=
  adjacent_pairs not_both_free segs.

(** [tiles a segs b]: the segments cover [a, b) from left to right, each one
    starting where the previous one ends (no wrap-around involved). *)
Fixpoint tiles (a : Z) (segs : list MemorySegment) (b : Z) : Prop :=
  match segs with
  | [] => a = b
  | s :: rest =>
      base_address s = a /\ 0 <= segment_size s /\
      tiles (a + segment_size s) rest b
  end.

(** Two segments with the same address range. *)
Definition same_extent (s t : MemorySegment) : Prop :=
  base_address s = base_address t /\ segment_size s = segment_size t.

Definition positive_sizes (segs : list MemorySegment) : Prop :=
  Forall (fun s => 0 < segment_size s) segs.

Definition total_size (segs : list MemorySegment) : Z :=
  foldr (fun s acc => segment_size s + acc) 0 segs.

(** The segment list partitions [0, C). *)
Record partitions (segs : list MemorySegment) (C : Z) : Prop := mkPartitions {
  part_nonempty : segs <> [];
  part_first : forall s, segs !! 0%nat = Some s -> base_address s = 0;
  part_contiguous : forall (i : nat) a b,
    segs !! i = Some a -> segs !! S i = Some b ->
    base_address a + segment_size a = base_address b;
  part_sorted : forall (i j : nat) a b,
    (i < j)%nat -> segs !! i = Some a -> segs !! j = Some b ->
    base_address a <= base_address b;
  part_disjoint : forall (i j : nat) a b,
    (i < j)%nat -> segs !! i = Some a -> segs !! j = Some b ->
    base_address a + segment_size a <= base_address b;
  part_within : forall (i : nat) a,
    segs !! i = Some a ->
    0 <= base_address a /\ 0 <= segment_size a /\
    base_address a + segment_size a <= C;
  part_total : total_size segs = C
}.

(** What the allocator's operations maintain on a pool of capacity [C]. *)
Definition pool_invariant (C : Z) (segs : list MemorySegment) : Prop :=
  segs <> [] /\ tiles 0 segs C /\ no_adjacent_free segs /\
  (0 < C -> positive_sizes segs).

(** The coalescing pass in closed form: [current] is the segment under the
    loop counter and [rest] what follows it. *)
Fixpoint coalesce_from (current : MemorySegment) (rest : list MemorySegment)
  : list MemorySegment :=
  match rest with
  | [] => [current]
  | next :: rest' =>
      if is_available current && is_available next then
        coalesce_from
          (with_size current (size_add (segment_size current) (segment_size next)))
          rest'
      else current :: coalesce_from next rest'
  end.

Definition coalesce (segs : list MemorySegment) : list MemorySegment :=
  match segs with
  | [] => []
  | s :: rest => coalesce_from s rest
  end.

(** [r] is the index of a segment that can hold [n] bytes. *)
Definition fitting_index (segs : list MemorySegment) (n : Z) (r : Z) : Prop :=
  exists (j : nat) s, r = Z.of_nat j /\ segs !! j = Some s /\ can_accommodate s n = true.

(** The state in which both failure paths of [allocate_memory_block] leave
    the simulator: one attempt and one failure recorded, nothing else. *)
Definition failed_attempt (st : PhysicalMemorySimulator) : PhysicalMemorySimulator :=
  with_stats st
    (record_failed_allocation (record_allocation_attempt (performance_stats st))).

Definition owned_by (pid : Z) (s : MemorySegment) : Prop :=
  is_available s = false /\ process_id s = pid.

Definition cannot_hold (n : Z) (s : MemorySegment) : Prop :=
  can_accommodate s n = false.

(** The choices the strategies are meant to make among the segments that can
    hold [n] bytes: the smallest, respectively the largest, and the earliest
    of these when several have that size. *)
Definition best_choice (segs : list MemorySegment) (n : Z) (k : nat) : Prop :=
  exists s, segs !! k = Some s /\ can_accommodate s n = true /\
    (forall (j : nat) t, segs !! j = Some t -> can_accommodate t n = true ->
       segment_size s <= segment_size t) /\
    (forall (j : nat) t, (j < k)%nat -> segs !! j = Some t ->
       can_accommodate t n = true -> segment_size s < segment_size t).

Definition worst_choice (segs : list MemorySegment) (n : Z) (k : nat) : Prop :=
  exists s, segs !! k = Some s /\ can_accommodate s n = true /\
    (forall (j : nat) t, segs !! j = Some t -> can_accommodate t n = true ->
       segment_size t <= segment_size s) /\
    (forall (j : nat) t, (j < k)%nat -> segs !! j = Some t ->
       can_accommodate t n = true -> segment_size t < segment_size s).

(** A search result [r] that follows [choice]: [-1] when nothing fits. *)
Definition selects (choice : list MemorySegment -> Z -> nat -> Prop)
  (segs : list MemorySegment) (n : Z) (r : Z) : Prop :=
  (r = -1 /\ Forall (cannot_hold n) segs) \/
  (exists k : nat, r = Z.of_nat k /\ choice segs n k).

(** The accumulators of the two search loops after the prefix [pre]. *)
Definition best_state (n : Z) (pre : list MemorySegment) (best smallest : Z) : Prop :=
  (best = -1 /\ smallest = SIZE_MAX /\ Forall (cannot_hold n) pre) \/
  (exists (k : nat) s, best = Z.of_nat k /\ pre !! k = Some s /\
                       smallest = segment_size s /\ best_choice pre n k).

Definition worst_state (n : Z) (pre : list MemorySegment) (worst largest : Z) : Prop :=
  (worst = -1 /\ largest = 0 /\ Forall (cannot_hold n) pre) \/
  (exists (k : nat) s, worst = Z.of_nat k /\ pre !! k = Some s /\
                       largest = segment_size s /\ worst_choice pre n k).

(** Calls made by the command layer, and a session of them. *)
Inductive request :=
| Alloc (requested_size : Z)
| Free (pid : Z)
| Strategy (strategy : AllocationStrategy).

Definition request_well_typed (r : request) : Prop :=
  match r with
  | Alloc n => is_size_t n
  | Free pid => is_int pid
  | Strategy _ => True
  end.

Definition serve (r : request) (st : PhysicalMemorySimulator)
  : option PhysicalMemorySimulator :=
  match r with
  | Alloc n => Some (snd (allocate_memory_block n st))
  | Free pid => snd <$> deallocate_memory_block pid st
  | Strategy s => Some (set_allocation_strategy s st)
  end.

Fixpoint session (rs : list request) (st : PhysicalMemorySimulator)
  : option PhysicalMemorySimulator :=
  match rs with
  | [] => Some st
  | r :: rs' =>
      match serve r st with
      | Some st' => session rs' st'
      | None => None
      end
  end.

(** A cache level as the constructor makes it and [access_memory] keeps it. *)
Definition well_formed_cache (c : CacheLevel) : Prop :=
  0 < block_size_bytes c /\ 0 < number_of_blocks c /\
  length (cache_blocks c) = Z.to_nat (number_of_blocks c).

Definition free_pair_with_gap : list MemorySegment :=
  [mkSegment 0 10 true (-1); mkSegment 20 10 true (-1)].

(** Concrete layouts and sessions used to exercise the statements. *)
Definition scenario_requests : list request :=
  [Alloc 200; Alloc 100; Free 1; Strategy BEST_FIT; Alloc 50; Free 2; Free 7].

Definition two_free_neighbours : list MemorySegment :=
  [mkSegment 0 200 true (-1); mkSegment 200 100 true (-1);
   mkSegment 300 100 false 2; mkSegment 400 600 true (-1)].

Definition busy_pool : PhysicalMemorySimulator :=
  mkSim [mkSegment 0 200 false 1; mkSegment 200 100 false 2;
         mkSegment 300 700 true (-1)]
        1000 3 FIRST_FIT (mkStats 2 2 0).

(** ** Vocabulary of the further properties *)

(** First fit's choice: the earliest segment that can hold [n] bytes. *)
Definition first_choice (segs : list MemorySegment) (n : Z) (k : nat) : Prop :=
  exists s, segs !! k = Some s /\ can_accommodate s n = true /\
    (forall (j : nat) t, (j < k)%nat -> segs !! j = Some t ->
       can_accommodate t n = false).

(** The segment list after [n] bytes were placed, for owner [pid], in the
    segment [cur] that sits between [pre] and [post]. *)
Definition placement (pre : list MemorySegment) (cur : MemorySegment)
  (post : list MemorySegment) (n pid : Z) : list MemorySegment :=
  pre ++ mkSegment (base_address cur) n false pid
      :: (if n <? segment_size cur
          then [mkSegment (size_add (base_address cur) n)
                          (size_sub (segment_size cur) n) true (-1)]
          else [])
      ++ post.

(** The owner ids of the allocated segments, in list order. *)
Fixpoint allocated_ids (segs : list MemorySegment) : list Z :=
  match segs with
  | [] => []
  | s :: rest =>
      if is_available s then allocated_ids rest
      else process_id s :: allocated_ids rest
  end.

(** A free segment carries [-1]; an allocated one an id handed out before
    [next]. *)
Definition owner_recorded (next : Z) (s : MemorySegment) : Prop :=
  if is_available s then process_id s = -1 else 1 <= process_id s < next.

Definition owner_ids_consistent (st : PhysicalMemorySimulator) : Prop :=
  1 <= next_process_identifier st /\
  Forall (owner_recorded (next_process_identifier st)) (heap_segments st) /\
  NoDup (allocated_ids (heap_segments st)).

Definition stats_consistent (s : MemoryStatistics) : Prop :=
  0 <= successful_allocations s /\ 0 <= failed_allocations s /\
  total_allocation_attempts s = successful_allocations s + failed_allocations s.

(** How many calls of a session are allocation requests. *)
Fixpoint alloc_requests (rs : list request) : Z :=
  match rs with
  | [] => 0
  | Alloc _ :: rs' => 1 + alloc_requests rs'
  | _ :: rs' => alloc_requests rs'
  end.

(** The sum of the sizes of the free, respectively allocated, segments. *)
Fixpoint free_bytes (segs : list MemorySegment) : Z :=
  match segs with
  | [] => 0
  | s :: rest =>
      (if is_available s then segment_size s else 0) + free_bytes rest
  end.

Fixpoint allocated_bytes (segs : list MemorySegment) : Z :=
  match segs with
  | [] => 0
  | s :: rest =>
      (if is_available s then 0 else segment_size s) + allocated_bytes rest
  end.

(** The size of the largest free segment, 0 when none is free. *)
Fixpoint largest_free (segs : list MemorySegment) : Z :=
  match segs with
  | [] => 0
  | s :: rest =>
      if is_available s then Z.max (segment_size s) (largest_free rest)
      else largest_free rest
  end.

(** What a session keeps after [k] allocation requests on a pool of capacity
    [C]. *)
Definition session_invariant (C k : Z) (st : PhysicalMemorySimulator) : Prop :=
  pool_invariant C (heap_segments st) /\
  owner_ids_consistent st /\
  stats_consistent (performance_stats st) /\
  total_allocation_attempts (performance_stats st) = k /\
  next_process_identifier st = 1 + successful_allocations (performance_stats st).

(** The cache level after the miss was recorded and, when the addressed
    slot is occupied, the oldest block evicted. *)
Definition after_eviction (c : CacheLevel) (block_index : Z) : CacheLevel :=
  if valid (block_at c block_index)
  then evict_oldest_block (with_metrics c (record_miss (performance_metrics c)))
  else with_metrics c (record_miss (performance_metrics c)).

(** Calls on one cache level, and a run of them. *)
Inductive cache_request :=
| Access (memory_address : Z)
| Flush.

Definition cache_serve (r : cache_request) (c : CacheLevel) : CacheLevel :=
  match r with
  | Access a => snd (access_memory a c)
  | Flush => flush_cache c
  end.

Definition cache_session (rs : list cache_request) (c : CacheLevel) : CacheLevel :=
  foldl (fun c r => cache_serve r c) c rs.

Definition valid_bit (b : CacheBlock) : Z := if valid b then 1 else 0.

(** The number of valid blocks. *)
Fixpoint valid_count (blocks : list CacheBlock) : Z :=
  match blocks with
  | [] => 0
  | b :: rest => (if valid b then 1 else 0) + valid_count rest
  end.

(** What a cache level keeps: its geometry, queue entries that are block
    indices, and at least as many queue entries as valid blocks. *)
Definition cache_invariant (c : CacheLevel) : Prop :=
  well_formed_cache c /\
  Forall (fun i => 0 <= i < number_of_blocks c) (fifo_queue c) /\
  valid_count (cache_blocks c) <= Z.of_nat (length (fifo_queue c)).

Definition metrics_consistent (m : CacheMetrics) : Prop :=
  0 <= cache_hits m /\ 0 <= cache_misses m /\
  total_accesses m = cache_hits m + cache_misses m.

(** The number of hits among the answers of a run. *)
Fixpoint count_hits (answers : list bool) : Z :=
  match answers with
  | [] => 0
  | hit :: rest => (if hit then 1 else 0) + count_hits rest
  end.

(** Calls on the hierarchy, and a run of them. *)
Inductive hierarchy_request :=
| HAccess (memory_address : Z)
| HFlush.

Definition hierarchy_serve (r : hierarchy_request) (h : MultiLevelCacheSimulator)
  : MultiLevelCacheSimulator :=
  match r with
  | HAccess a => snd (simulate_memory_access a h)
  | HFlush => flush_all_caches h
  end.

Definition hierarchy_session (rs : list hierarchy_request)
  (h : MultiLevelCacheSimulator) : MultiLevelCacheSimulator :=
  foldl (fun h r => hierarchy_serve r h) h rs.

(** Both levels are present and have counted [k] accesses to the hierarchy,
    [hits] of them answered with a hit. *)
Definition hierarchy_counts (k hits : Z) (h : MultiLevelCacheSimulator) : Prop :=
  exists l1 l2,
    h = mkHierarchy (Some l1) (Some l2) true /\
    metrics_consistent (performance_metrics l1) /\
    metrics_consistent (performance_metrics l2) /\
    total_accesses (performance_metrics l1) = k /\
    total_accesses (performance_metrics l2) = cache_misses (performance_metrics l1) /\
    hits = cache_hits (performance_metrics l1) + cache_hits (performance_metrics l2).

(** Both levels are present with the given configuration. *)
Definition hierarchy_configured (l1_size l1_block_size l2_size l2_block_size : Z)
  (h : MultiLevelCacheSimulator) : Prop :=
  exists l1 l2,
    h = mkHierarchy (Some l1) (Some l2) true /\
    cache_size_bytes l1 = l1_size /\ block_size_bytes l1 = l1_block_size /\
    cache_size_bytes l2 = l2_size /\ block_size_bytes l2 = l2_block_size.

(** The command line without its white space. *)
Fixpoint strip_whitespace (s : string) : string :=
  match s with
  | EmptyString => EmptyString
  | String c rest =>
      if isspace c then strip_whitespace rest else String c (strip_whitespace rest)
  end.

Fixpoint all_nonspace (s : string) : bool :=
  match s with
  | EmptyString => true
  | String c rest => negb (isspace c) && all_nonspace rest
  end.

(** A word: not empty, no white space. *)
Definition is_word (s : string) : Prop :=
  s <> EmptyString /\ all_nonspace s = true.

Definition concat_strings (l : list string) : string :=
  foldr String.append EmptyString l.

(** The unread part of the stream after a word: nothing, or white space
    first. *)
Definition at_word_end (s : string) : Prop :=
  match s with
  | EmptyString => True
  | String c _ => isspace c = true
  end.

(** The simulator is either empty (constructed or reset) or holds a pool
    that meets the pool invariant for its capacity. *)
Definition simulator_ok (st : PhysicalMemorySimulator) : Prop :=
  (heap_segments st = [] /\ total_memory_capacity st = 0) \/
  (0 < total_memory_capacity st /\ is_size_t (total_memory_capacity st) /\
   pool_invariant (total_memory_capacity st) (heap_segments st)).

(** The command names that reach a handler which changes the processor. *)
Definition changing_commands : list string :=
  ["init"; "initialize"; "strategy"; "set"; "alloc"; "malloc";
   "free"; "dealloc"; "reset"; "clear"; "quit"; "exit"; "bye"]%string.

(** A conversion of unsigned decimal numerals up to [bound], used as the
    parameter of the command layer in the examples. *)
Definition digit_of (c : ascii) : option Z :=
  let n := nat_of_ascii c in
  if Nat.leb 48 n && Nat.leb n 57 then Some (Z.of_nat n - 48) else None.

Fixpoint decimal_value (s : string) (acc : Z) : option Z :=
  match s with
  | EmptyString => Some acc
  | String c rest =>
      match digit_of c with
      | Some d => decimal_value rest (10 * acc + d)
      | None => None
      end
  end.

Definition decimal_conversion (bound : Z) (s : string) : conversion :=
  match s with
  | EmptyString => InvalidArgument
  | _ =>
      match decimal_value s 0 with
      | Some v => if v <=? bound then Converted v else OutOfRange
      | None => InvalidArgument
      end
  end.

Definition scenario_lines : list string :=
  ["alloc 10"; "init 1000"; "alloc 200"; ""; "  malloc   100 "; "free 1";
   "strategy best_fit"; "alloc 50"; "stats"; "init 0"; "reset"; "init 64";
   "alloc 64"; "exit"; "alloc 1"]%string.

(** ** Lists as vectors *)

Section Vectors.

Lemma merge_with_next_segment_cons (x : MemorySegment) (i : nat) segs :
  merge_with_next_segment (S i) (x :: segs) = x :: merge_with_next_segment i segs.
Proof.
  unfold merge_with_next_segment. simpl.
  destruct (segs !! i) as [cur|]; [|reflexivity].
  destruct (segs !! (i + 1)%nat) as [nxt|]; [|reflexivity].
  destruct (_ =? _); reflexivity.
Qed.

Lemma merge_with_next_segment_at (pre : list MemorySegment) cur nxt post :
  merge_with_next_segment (length pre) (pre ++ cur :: nxt :: post) =
  if size_add (base_address cur) (segment_size cur) =? base_address nxt
  then pre ++ with_size cur (size_add (segment_size cur) (segment_size nxt)) :: post
  else pre ++ cur :: nxt :: post.
Proof.
  induction pre as [|x pre IH]; simpl.
  - unfold merge_with_next_segment. simpl. destruct (_ =? _); reflexivity.
  - rewrite merge_with_next_segment_cons, IH. destruct (_ =? _); reflexivity.
Qed.

Lemma both_available_at (pre : list MemorySegment) cur nxt post :
  both_available (length pre) (pre ++ cur :: nxt :: post) =
  is_available cur && is_available nxt.
Proof.
  unfold both_available.
  rewrite (list_lookup_middle pre (nxt :: post) cur) by reflexivity.
  replace (pre ++ cur :: nxt :: post) with ((pre ++ [cur]) ++ nxt :: post)
    by (rewrite <- app_assoc; reflexivity).
  rewrite (list_lookup_middle (pre ++ [cur]) post nxt); [reflexivity|].
  rewrite length_app. simpl. lia.
Qed.

Lemma split_memory_segment_cons (x : MemorySegment) (i : nat) n segs :
  split_memory_segment (S i) n (x :: segs) = x :: split_memory_segment i n segs.
Proof.
  unfold split_memory_segment, vector_insert. simpl.
  destruct (segs !! i) as [t|]; [|reflexivity].
  destruct (_ <? _); reflexivity.
Qed.

Lemma split_memory_segment_at (pre : list MemorySegment) cur post n :
  split_memory_segment (length pre) n (pre ++ cur :: post) =
  if n <? segment_size cur
  then pre ++ with_size cur n
           :: mkSegment (size_add (base_address cur) n)
                        (size_sub (segment_size cur) n) true (-1)
           :: post
  else pre ++ cur :: post.
Proof.
  induction pre as [|x pre IH]; simpl.
  - unfold split_memory_segment, vector_insert. simpl.
    destruct (_ <? _); [|reflexivity]. simpl. rewrite drop_0. reflexivity.
  - rewrite split_memory_segment_cons, IH. destruct (_ <? _); reflexivity.
Qed.

Lemma alter_at {A} (f : A -> A) (pre : list A) x post :
  alter f (length pre) (pre ++ x :: post) = pre ++ f x :: post.
Proof.
  induction pre as [|a pre IH]; [reflexivity|].
  cbn. f_equal. exact IH.
Qed.

End Vectors.

(** ** Consecutive pairs *)

Section AdjacentPairs.

Variable P : MemorySegment -> MemorySegment -> Prop.

Lemma adjacent_pairs_lookup segs :
  adjacent_pairs P segs <->
  forall (i : nat) a b, segs !! i = Some a -> segs !! S i = Some b -> P a b.
Proof.
  induction segs as [|x rest IH]; simpl.
  - split; [intros _ i a b H; discriminate | trivial].
  - rewrite IH. split.
    + intros [Hhd Htl] [|i] a b Ha Hb; simpl in *.
      * destruct rest as [|y rest]; [discriminate|].
        simpl in Hb. congruence.
      * eapply Htl; eassumption.
    + intros H. split.
      * destruct rest as [|y rest]; [trivial|]. apply (H 0%nat); reflexivity.
      * intros i a b Ha Hb. apply (H (S i)); assumption.
Qed.

Lemma adjacent_pairs_tail x segs :
  adjacent_pairs P (x :: segs) -> adjacent_pairs P segs.
Proof. simpl. tauto. Qed.

Lemma adjacent_pairs_app_cons pre x rest :
  adjacent_pairs P (pre ++ x :: rest) <->
  adjacent_pairs P (pre ++ [x]) /\ adjacent_pairs P (x :: rest).
Proof.
  induction pre as [|p pre IH]; simpl.
  - tauto.
  - rewrite IH. destruct pre; simpl; tauto.
Qed.

End AdjacentPairs.

(** ** Arithmetic of [size_t] *)

Section SizeArithmetic.

Lemma size_wrap_small z : is_size_t z -> size_wrap z = z.
Proof.
  unfold is_size_t, SIZE_MAX, size_wrap. intros H.
  apply Z.mod_small. lia.
Qed.

Lemma size_add_assoc_wrap a b c :
  size_add a (size_add b c) = size_add (size_add a b) c.
Proof.
  unfold size_add, size_wrap.
  rewrite Zplus_mod_idemp_r, Zplus_mod_idemp_l. f_equal. lia.
Qed.

Lemma int_incr_small z : below_int_max z -> int_incr z = z + 1.
Proof.
  unfold below_int_max, INT_MIN, INT_MAX, int_incr, int_wrap. intros H.
  rewrite Z.mod_small by lia. lia.
Qed.

End SizeArithmetic.

(** ** The coalescing pass *)

Section Coalescing.

Lemma merge_with_next_segment_length (i : nat) segs :
  merge_with_next_segment i segs = segs \/
  ((i + 1 < length segs)%nat /\
   S (length (merge_with_next_segment i segs)) = length segs).
Proof.
  unfold merge_with_next_segment.
  destruct (segs !! i) as [cur|] eqn:Hi; [|left; reflexivity].
  destruct (segs !! (i + 1)%nat) as [nxt|] eqn:Hn; [|left; reflexivity].
  destruct (_ =? _); [right|left; reflexivity].
  apply lookup_lt_Some in Hn.
  split; [exact Hn|].
  rewrite length_delete.
  - rewrite length_insert. lia.
  - apply lookup_lt_is_Some. rewrite length_insert. exact Hn.
Qed.

Lemma merge_with_next_segment_shrinks (i : nat) segs :
  contiguous segs -> (i + 1 < length segs)%nat ->
  S (length (merge_with_next_segment i segs)) = length segs.
Proof.
  intros Hc Hlt.
  destruct (lookup_lt_is_Some_2 segs i ltac:(lia)) as [cur Hi].
  destruct (lookup_lt_is_Some_2 segs (i + 1) Hlt) as [nxt Hn].
  assert (Ht : touches cur nxt).
  { apply (proj1 (adjacent_pairs_lookup touches segs) Hc i); [exact Hi|].
    replace (S i) with (i + 1)%nat by lia. exact Hn. }
  unfold merge_with_next_segment. rewrite Hi, Hn.
  unfold touches in Ht. rewrite Ht, Z.eqb_refl.
  rewrite length_delete.
  - rewrite length_insert. lia.
  - apply lookup_lt_is_Some. rewrite length_insert. exact Hlt.
Qed.

Lemma merge_loop_more_fuel fuel : forall (i : nat) segs r,
  merge_loop fuel i segs = Some r -> merge_loop (S fuel) i segs = Some r.
Proof.
  induction fuel as [|fuel IH]; intros i segs r H; [discriminate|].
  simpl in H. change (merge_loop (S (S fuel)) i segs) with
    (if Z.of_nat i <? Z.of_nat (length segs) - 1
     then if both_available i segs
          then merge_loop (S fuel) i (merge_with_next_segment i segs)
          else merge_loop (S fuel) (S i) segs
     else Some segs).
  destruct (_ <? _); [|exact H].
  destruct (both_available i segs); apply IH; exact H.
Qed.

Lemma merge_loop_fuel_le fuel fuel' (i : nat) segs r :
  (fuel <= fuel')%nat ->
  merge_loop fuel i segs = Some r -> merge_loop fuel' i segs = Some r.
Proof.
  induction 1 as [|fuel' _ IH]; [trivial|].
  intros H. apply merge_loop_more_fuel, IH, H.
Qed.

(** A free pair that does not touch keeps the loop where it is. *)
Lemma merge_loop_stuck (i : nat) segs :
  (i + 1 < length segs)%nat ->
  both_available i segs = true ->
  merge_with_next_segment i segs = segs ->
  forall fuel, merge_loop fuel i segs = None.
Proof.
  intros Hlt Hb Hm fuel. induction fuel as [|fuel IH]; [reflexivity|].
  simpl. rewrite Hb, Hm, IH.
  destruct (_ <? _) eqn:E; [reflexivity|].
  apply Z.ltb_ge in E. lia.
Qed.

(** Whenever the loop is left at all, it is left within
    [length segs - i + 1] iterations. *)
Lemma merge_loop_fuel_enough fuel : forall (i : nat) segs r,
  merge_loop fuel i segs = Some r ->
  merge_loop (S (length segs - i)) i segs = Some r.
Proof.
  induction fuel as [|fuel IH]; intros i segs r H; [discriminate|].
  simpl in H. simpl.
  destruct (Z.of_nat i <? Z.of_nat (length segs) - 1) eqn:Hlt; [|exact H].
  apply Z.ltb_lt in Hlt.
  destruct (both_available i segs) eqn:Hb.
  - destruct (merge_with_next_segment_length i segs) as [Heq|[_ Hlen]].
    + rewrite Heq in H.
      rewrite (merge_loop_stuck i segs) in H by (trivial; lia). discriminate.
    + apply IH in H. eapply merge_loop_fuel_le; [|exact H]. lia.
  - apply IH in H.
    eapply merge_loop_fuel_le; [|exact H]. lia.
Qed.

Lemma touches_merged cur nxt after :
  touches cur nxt -> touches nxt after ->
  touches (with_size cur (size_add (segment_size cur) (segment_size nxt))) after.
Proof.
  unfold touches. simpl. intros H1 H2.
  rewrite size_add_assoc_wrap.
  unfold size_add in *. unfold size_wrap in *.
  rewrite <- H2, <- H1. rewrite Zplus_mod_idemp_l. reflexivity.
Qed.

Lemma contiguous_merged cur nxt post :
  contiguous (cur :: nxt :: post) ->
  contiguous (with_size cur (size_add (segment_size cur) (segment_size nxt)) :: post).
Proof.
  unfold contiguous. simpl. intros (H1 & H2 & H3).
  split; [|destruct post; simpl in *; tauto].
  destruct post as [|after post]; [trivial|].
  apply touches_merged; tauto.
Qed.

(** Under contiguity the loop computes [coalesce_from]. *)
Lemma merge_loop_coalesce rest : forall pre cur fuel,
  contiguous (cur :: rest) -> (S (length rest) <= fuel)%nat ->
  merge_loop fuel (length pre) (pre ++ cur :: rest) =
  Some (pre ++ coalesce_from cur rest).
Proof.
  induction rest as [|nxt post IH]; intros pre cur fuel Hc Hfuel;
    (destruct fuel as [|fuel]; [simpl in Hfuel; lia|]).
  - simpl. rewrite length_app. simpl.
    destruct (_ <? _) eqn:E; [apply Z.ltb_lt in E; lia | reflexivity].
  - cbn [merge_loop].
    assert (E : (Z.of_nat (length pre)
                 <? Z.of_nat (length (pre ++ cur :: nxt :: post)) - 1) = true).
    { apply Z.ltb_lt. rewrite length_app. simpl. lia. }
    rewrite E, both_available_at. simpl coalesce_from.
    destruct (is_available cur && is_available nxt).
    + rewrite merge_with_next_segment_at.
      assert (Ht : touches cur nxt) by (apply Hc).
      unfold touches in Ht. rewrite Ht, Z.eqb_refl.
      apply IH; [apply contiguous_merged; exact Hc | simpl in Hfuel; lia].
    + replace (pre ++ cur :: nxt :: post) with ((pre ++ [cur]) ++ nxt :: post)
        by (rewrite <- app_assoc; reflexivity).
      replace (S (length pre)) with (length (pre ++ [cur]))
        by (rewrite length_app; simpl; lia).
      rewrite IH; [rewrite <- app_assoc; reflexivity | | simpl in Hfuel; lia].
      eapply adjacent_pairs_tail, Hc.
Qed.

Lemma merge_loop_is_coalesce segs fuel :
  contiguous segs -> (S (length segs) <= fuel)%nat ->
  merge_loop fuel 0 segs = Some (coalesce segs).
Proof.
  intros Hc Hfuel. destruct segs as [|s rest].
  - destruct fuel; [lia | reflexivity].
  - apply (merge_loop_coalesce rest [] s); [exact Hc | simpl in Hfuel; lia].
Qed.

Lemma merge_adjacent_free_segments_coalesce segs :
  contiguous segs -> merge_adjacent_free_segments segs = Some (coalesce segs).
Proof. intros Hc. apply merge_loop_is_coalesce; [exact Hc | reflexivity]. Qed.

End Coalescing.

(** ** What coalescing keeps and what it achieves *)

Section CoalesceProperties.

Lemma coalesce_from_head cur rest :
  exists size tl, coalesce_from cur rest = with_size cur size :: tl.
Proof.
  revert cur. induction rest as [|nxt post IH]; intros cur; simpl.
  - exists (segment_size cur), []. destruct cur; reflexivity.
  - destruct (is_available cur && is_available nxt).
    + destruct (IH (with_size cur (size_add (segment_size cur) (segment_size nxt))))
        as (size & tl & ->).
      exists size, tl. reflexivity.
    + exists (segment_size cur), (coalesce_from nxt post). destruct cur; reflexivity.
Qed.

Lemma coalesce_from_no_adjacent_free cur rest :
  no_adjacent_free (coalesce_from cur rest).
Proof.
  revert cur. induction rest as [|nxt post IH]; intros cur; simpl.
  - unfold no_adjacent_free. simpl. tauto.
  - destruct (is_available cur && is_available nxt) eqn:E; [apply IH|].
    specialize (IH nxt).
    destruct (coalesce_from_head nxt post) as (size & tl & Heq).
    rewrite Heq in *. split; [|exact IH].
    unfold not_both_free. simpl. exact E.
Qed.

Lemma coalesce_from_contiguous cur rest :
  contiguous (cur :: rest) -> contiguous (coalesce_from cur rest).
Proof.
  revert cur. induction rest as [|nxt post IH]; intros cur Hc; simpl.
  - exact Hc.
  - destruct (is_available cur && is_available nxt).
    + apply IH, contiguous_merged, Hc.
    + assert (Hn : contiguous (coalesce_from nxt post))
        by (apply IH; eapply adjacent_pairs_tail, Hc).
      destruct (coalesce_from_head nxt post) as (size & tl & Heq).
      rewrite Heq in *. split; [|exact Hn].
      destruct Hc as [Ht _]. exact Ht.
Qed.

Lemma coalesce_from_length cur rest :
  (length (coalesce_from cur rest) <= S (length rest))%nat.
Proof.
  revert cur. induction rest as [|nxt post IH]; intros cur; simpl; [lia|].
  destruct (is_available cur && is_available nxt).
  - specialize (IH (with_size cur (size_add (segment_size cur) (segment_size nxt)))). lia.
  - specialize (IH nxt). simpl. lia.
Qed.

Lemma tiles_le segs : forall a b, tiles a segs b -> a <= b.
Proof.
  induction segs as [|s rest IH]; simpl; intros a b H.
  - lia.
  - destruct H as (_ & Hs & Hr). apply IH in Hr. lia.
Qed.

Lemma tiles_app l1 : forall a l2 b,
  tiles a (l1 ++ l2) b <-> exists m, tiles a l1 m /\ tiles m l2 b.
Proof.
  induction l1 as [|s l1 IH]; simpl; intros a l2 b.
  - split; [intros H; exists a; tauto | intros (m & -> & H); exact H].
  - rewrite IH. split.
    + intros (Hb & Hs & m & H1 & H2). exists m. tauto.
    + intros (m & (Hb & Hs & H1) & H2). repeat split; trivial. exists m. tauto.
Qed.

Lemma coalesce_from_tiles rest : forall cur a b,
  0 <= a -> b <= SIZE_MAX ->
  tiles a (cur :: rest) b -> tiles a (coalesce_from cur rest) b.
Proof.
  induction rest as [|nxt post IH]; intros cur a b Ha Hb H; [exact H|].
  simpl coalesce_from.
  destruct (is_available cur && is_available nxt).
  - apply IH; trivial.
    simpl in H. destruct H as (Hbase & Hs & Hnb & Hns & Hpost).
    pose proof (tiles_le _ _ _ Hpost) as Hle.
    simpl. unfold size_add. rewrite size_wrap_small by (unfold is_size_t; lia).
    repeat split; [exact Hbase | lia |].
    replace (a + (segment_size cur + segment_size nxt))
      with (a + segment_size cur + segment_size nxt) by lia.
    exact Hpost.
  - destruct H as (Hbase & Hs & Hrest).
    repeat split; trivial. apply IH; [lia | exact Hb | exact Hrest].
Qed.

Lemma coalesce_from_positive cur rest :
  0 <= base_address cur -> 
  forall b, b <= SIZE_MAX -> tiles (base_address cur) (cur :: rest) b ->
  positive_sizes (cur :: rest) -> positive_sizes (coalesce_from cur rest).
Proof.
  revert cur. induction rest as [|nxt post IH]; intros cur Ha b Hb Ht Hp; [exact Hp|].
  simpl coalesce_from.
  unfold positive_sizes in *.
  apply Forall_cons in Hp as [Hc Hp].
  pose proof Hp as Hp'. apply Forall_cons in Hp' as [Hn Hpost].
  simpl in Ht. destruct Ht as (_ & _ & Hnb & Hns & Ht).
  pose proof (tiles_le _ _ _ Ht) as Hle.
  destruct (is_available cur && is_available nxt).
  - apply IH with (b := b); [exact Ha | exact Hb | |].
    + simpl. unfold size_add. rewrite size_wrap_small by (unfold is_size_t; lia).
      repeat split; [lia|].
      replace (base_address cur + (segment_size cur + segment_size nxt))
        with (base_address cur + segment_size cur + segment_size nxt) by lia.
      exact Ht.
    + apply Forall_cons. split; [|exact Hpost].
      simpl. unfold size_add. rewrite size_wrap_small by (unfold is_size_t; lia). lia.
  - apply Forall_cons. split; [exact Hc|].
    apply (IH nxt ltac:(lia) b Hb); [|exact Hp].
    simpl. repeat split; [lia|]. rewrite Hnb. exact Ht.
Qed.

(** Tiling without wrap-around gives the contiguity the code tests. *)
Lemma tiles_contiguous segs : forall a b,
  0 <= a -> b <= SIZE_MAX -> tiles a segs b -> contiguous segs.
Proof.
  induction segs as [|s rest IH]; intros a b Ha Hb H; [exact I|].
  simpl in H. destruct H as (Hbase & Hs & Hrest).
  split; [|apply (IH (a + segment_size s) b); trivial; lia].
  destruct rest as [|t rest]; [trivial|].
  simpl in Hrest. destruct Hrest as (Ht & Hts & Hrest).
  apply tiles_le in Hrest.
  unfold touches, size_add. rewrite size_wrap_small by (unfold is_size_t; lia). lia.
Qed.

End CoalesceProperties.

(** ** Properties that see only the address ranges *)

Section Extents.

Lemma same_extent_refl segs : Forall2 same_extent segs segs.
Proof. induction segs; constructor; [split; reflexivity | assumption]. Qed.

Lemma same_extent_at pre cur cur' post :
  same_extent cur cur' ->
  Forall2 same_extent (pre ++ cur :: post) (pre ++ cur' :: post).
Proof.
  intros H. apply Forall2_app; [apply same_extent_refl|].
  constructor; [exact H | apply same_extent_refl].
Qed.

Lemma contiguous_same_extent l1 l2 :
  Forall2 same_extent l1 l2 -> contiguous l1 -> contiguous l2.
Proof.
  induction 1 as [|s t l1 l2 [Hb Hs] Hrest IH]; [trivial|].
  intros [Hhd Htl]. split; [|apply IH, Htl].
  destruct Hrest as [|s' t' l1' l2' [Hb' _] _]; [trivial|].
  unfold touches in *. congruence.
Qed.

Lemma tiles_same_extent l1 l2 :
  Forall2 same_extent l1 l2 -> forall a b, tiles a l1 b -> tiles a l2 b.
Proof.
  induction 1 as [|s t l1 l2 [Hb Hs] Hrest IH]; [trivial|].
  simpl. intros a b (H1 & H2 & H3). rewrite <- Hb, <- Hs. auto.
Qed.

Lemma positive_sizes_same_extent l1 l2 :
  Forall2 same_extent l1 l2 -> positive_sizes l1 -> positive_sizes l2.
Proof.
  unfold positive_sizes.
  induction 1 as [|s t l1 l2 [Hb Hs] Hrest IH]; [trivial|].
  intros H. apply Forall_cons in H as [H1 H2].
  apply Forall_cons. split; [rewrite <- Hs; exact H1 | apply IH, H2].
Qed.

(** The test of a pair reads only the base address of its second segment. *)
Lemma contiguous_last_base pre x y :
  contiguous (pre ++ [x]) -> base_address x = base_address y ->
  contiguous (pre ++ [y]).
Proof.
  intros Hc Hxy. induction pre as [|p pre IH]; [simpl; tauto|].
  destruct Hc as [Hhd Htl]. split; [|apply IH, Htl].
  destruct pre as [|q pre]; simpl in *; unfold touches in *; congruence.
Qed.

Lemma neighbours_at (i : nat) : forall segs : list MemorySegment,
  (i + 1 < length segs)%nat ->
  exists pre cur nxt post, segs = pre ++ cur :: nxt :: post /\ length pre = i.
Proof.
  induction i as [|i IH]; intros segs Hlt.
  - destruct segs as [|cur [|nxt post]]; simpl in Hlt; try lia.
    exists [], cur, nxt, post. split; reflexivity.
  - destruct segs as [|x segs]; simpl in Hlt; [lia|].
    destruct (IH segs ltac:(lia)) as (pre & cur & nxt & post & -> & Hlen).
    exists (x :: pre), cur, nxt, post. simpl. split; [reflexivity | lia].
Qed.

Lemma merge_with_next_segment_contiguous (i : nat) segs :
  contiguous segs -> contiguous (merge_with_next_segment i segs).
Proof.
  intros Hc.
  destruct (Nat.lt_ge_cases (i + 1) (length segs)) as [Hlt|Hge].
  - destruct (neighbours_at i segs Hlt) as (pre & cur & nxt & post & -> & <-).
    rewrite merge_with_next_segment_at.
    destruct (_ =? _); [|exact Hc].
    apply adjacent_pairs_app_cons in Hc as [Hpre Hpost].
    apply adjacent_pairs_app_cons. split.
    + eapply contiguous_last_base; [exact Hpre | reflexivity].
    + apply contiguous_merged, Hpost.
  - unfold merge_with_next_segment.
    rewrite (proj2 (lookup_ge_None segs (i + 1)%nat)) by lia.
    destruct (segs !! i); exact Hc.
Qed.

End Extents.

(** ** From tiling to the partition properties *)

Section Partition.

Lemma tiles_lookup segs : forall a b (i : nat) x,
  tiles a segs b -> segs !! i = Some x ->
  a <= base_address x /\ 0 <= segment_size x /\
  base_address x + segment_size x <= b.
Proof.
  induction segs as [|s rest IH]; intros a b i x Ht Hx; [discriminate|].
  simpl in Ht. destruct Ht as (Hb & Hs & Hrest).
  destruct i as [|i]; simpl in Hx.
  - injection Hx as <-. apply tiles_le in Hrest. lia.
  - destruct (IH _ _ _ _ Hrest Hx) as (H1 & H2 & H3). lia.
Qed.

Lemma tiles_lookup_next segs : forall a b (i : nat) x y,
  tiles a segs b -> segs !! i = Some x -> segs !! S i = Some y ->
  base_address x + segment_size x = base_address y.
Proof.
  induction segs as [|s rest IH]; intros a b i x y Ht Hx Hy; [discriminate|].
  simpl in Ht. destruct Ht as (Hb & Hs & Hrest).
  destruct i as [|i]; simpl in Hx, Hy.
  - injection Hx as <-. destruct rest as [|t rest]; [discriminate|].
    injection Hy as <-. simpl in Hrest. lia.
  - eapply IH; eassumption.
Qed.

Lemma tiles_lookup_before segs : forall a b (i j : nat) x y,
  tiles a segs b -> (i < j)%nat -> segs !! i = Some x -> segs !! j = Some y ->
  base_address x + segment_size x <= base_address y.
Proof.
  induction segs as [|s rest IH]; intros a b i j x y Ht Hij Hx Hy; [discriminate|].
  simpl in Ht. destruct Ht as (Hb & Hs & Hrest).
  destruct j as [|j]; [lia|]. simpl in Hy.
  destruct i as [|i]; simpl in Hx.
  - injection Hx as <-.
    destruct (tiles_lookup _ _ _ _ _ Hrest Hy) as (H1 & _). lia.
  - eapply (IH _ _ i j); try eassumption. lia.
Qed.

Lemma tiles_total_size segs : forall a b,
  tiles a segs b -> total_size segs = b - a.
Proof.
  induction segs as [|s rest IH]; simpl; intros a b Ht.
  - lia.
  - destruct Ht as (_ & _ & Hrest). rewrite (IH _ _ Hrest). lia.
Qed.

Lemma pool_invariant_partitions C segs :
  pool_invariant C segs -> partitions segs C.
Proof.
  intros (Hne & Ht & _ & _). constructor.
  - exact Hne.
  - intros s Hs. destruct segs as [|s' rest]; [discriminate|].
    injection Hs as <-. apply Ht.
  - intros i a b. apply (tiles_lookup_next _ _ _ _ _ _ Ht).
  - intros i j a b Hij Ha Hb.
    pose proof (tiles_lookup_before _ _ _ _ _ _ _ Ht Hij Ha Hb).
    destruct (tiles_lookup _ _ _ _ _ Ht Ha) as (_ & ? & _). lia.
  - intros i j a b. apply (tiles_lookup_before _ _ _ _ _ _ _ Ht).
  - intros i a Ha. destruct (tiles_lookup _ _ _ _ _ Ht Ha) as (? & ? & ?). lia.
  - rewrite (tiles_total_size _ _ _ Ht). lia.
Qed.

End Partition.

(** ** The searches return [-1] or the index of a segment that fits *)

Section SearchResults.

Lemma first_fit_loop_result rest : forall (k : nat) n,
  first_fit_loop k rest n = -1 \/
  exists (j : nat) s, first_fit_loop k rest n = Z.of_nat (k + j) /\
                      rest !! j = Some s /\ can_accommodate s n = true.
Proof.
  induction rest as [|s rest IH]; intros k n; simpl; [left; reflexivity|].
  destruct (can_accommodate s n) eqn:E.
  - right. exists 0%nat, s. rewrite Nat.add_0_r. auto.
  - destruct (IH (S k) n) as [H|(j & t & H1 & H2 & H3)]; [left; exact H|].
    right. exists (S j), t. rewrite H1. split; [f_equal; lia | auto].
Qed.

Lemma best_fit_loop_result rest : forall (k : nat) n best smallest,
  best_fit_loop k rest n best smallest = best \/
  exists (j : nat) s, best_fit_loop k rest n best smallest = Z.of_nat (k + j) /\
                      rest !! j = Some s /\ can_accommodate s n = true.
Proof.
  induction rest as [|s rest IH]; intros k n best smallest; simpl;
    [left; reflexivity|].
  destruct (can_accommodate s n) eqn:E; [destruct (_ <? _)|].
  - destruct (IH (S k) n (Z.of_nat k) (segment_size s))
      as [H|(j & t & H1 & H2 & H3)].
    + right. exists 0%nat, s. rewrite H, Nat.add_0_r. auto.
    + right. exists (S j), t. rewrite H1. split; [f_equal; lia | auto].
  - destruct (IH (S k) n best smallest) as [H|(j & t & H1 & H2 & H3)];
      [left; exact H|].
    right. exists (S j), t. rewrite H1. split; [f_equal; lia | auto].
  - destruct (IH (S k) n best smallest) as [H|(j & t & H1 & H2 & H3)];
      [left; exact H|].
    right. exists (S j), t. rewrite H1. split; [f_equal; lia | auto].
Qed.

Lemma worst_fit_loop_result rest : forall (k : nat) n worst largest,
  worst_fit_loop k rest n worst largest = worst \/
  exists (j : nat) s, worst_fit_loop k rest n worst largest = Z.of_nat (k + j) /\
                      rest !! j = Some s /\ can_accommodate s n = true.
Proof.
  induction rest as [|s rest IH]; intros k n worst largest; simpl;
    [left; reflexivity|].
  destruct (can_accommodate s n) eqn:E; [destruct (_ <? _)|].
  - destruct (IH (S k) n (Z.of_nat k) (segment_size s))
      as [H|(j & t & H1 & H2 & H3)].
    + right. exists 0%nat, s. rewrite H, Nat.add_0_r. auto.
    + right. exists (S j), t. rewrite H1. split; [f_equal; lia | auto].
  - destruct (IH (S k) n worst largest) as [H|(j & t & H1 & H2 & H3)];
      [left; exact H|].
    right. exists (S j), t. rewrite H1. split; [f_equal; lia | auto].
  - destruct (IH (S k) n worst largest) as [H|(j & t & H1 & H2 & H3)];
      [left; exact H|].
    right. exists (S j), t. rewrite H1. split; [f_equal; lia | auto].
Qed.

Lemma find_suitable_segment_result strategy segs n :
  find_suitable_segment strategy segs n = -1 \/
  fitting_index segs n (find_suitable_segment strategy segs n).
Proof.
  unfold fitting_index.
  destruct strategy; simpl.
  - apply (first_fit_loop_result segs 0).
  - apply (best_fit_loop_result segs 0).
  - apply (worst_fit_loop_result segs 0).
Qed.

End SearchResults.

(** ** Allocation and deallocation on the segment list *)

Section Operations.

Lemma can_accommodate_true s n :
  can_accommodate s n = true -> is_available s = true /\ n <= segment_size s.
Proof.
  unfold can_accommodate. intros H. apply andb_true_iff in H as [H1 H2].
  apply Z.leb_le in H2. auto.
Qed.

(** The segment list after a placement at [length pre]. *)
Lemma placed_segments pre cur post n pid :
  alter (fun s => with_owner s false pid) (length pre)
        (split_memory_segment (length pre) n (pre ++ cur :: post)) =
  if n <? segment_size cur
  then pre ++ mkSegment (base_address cur) n false pid
           :: mkSegment (size_add (base_address cur) n)
                        (size_sub (segment_size cur) n) true (-1)
           :: post
  else pre ++ mkSegment (base_address cur) (segment_size cur) false pid :: post.
Proof.
  rewrite split_memory_segment_at.
  destruct (n <? segment_size cur); rewrite alter_at; reflexivity.
Qed.

Lemma no_adjacent_free_last_busy pre x y :
  no_adjacent_free (pre ++ [x]) -> is_available y = false ->
  no_adjacent_free (pre ++ [y]).
Proof.
  intros H Hy. induction pre as [|p pre IH]; [simpl; tauto|].
  destruct H as [Hhd Htl]. split; [|apply IH, Htl].
  destruct pre as [|q pre]; simpl in *; [|exact Hhd].
  unfold not_both_free. rewrite Hy. apply andb_false_r.
Qed.

Lemma placed_pool_invariant C pre cur post n pid :
  is_size_t C -> 0 < n -> can_accommodate cur n = true ->
  pool_invariant C (pre ++ cur :: post) ->
  pool_invariant C
    (alter (fun s => with_owner s false pid) (length pre)
           (split_memory_segment (length pre) n (pre ++ cur :: post))).
Proof.
  intros [HC0 HC] Hn Hfit (_ & Ht & Hfree & Hpos).
  apply can_accommodate_true in Hfit as [Hav Hle].
  rewrite placed_segments.
  apply tiles_app in Ht as (m & Hpre & Hcur).
  simpl in Hcur. destruct Hcur as (Hbase & Hsize & Hpost).
  pose proof (tiles_le _ _ _ Hpre) as Hm.
  pose proof (tiles_le _ _ _ Hpost) as Hend.
  apply adjacent_pairs_app_cons in Hfree as [Hfpre Hfpost].
  destruct (n <? segment_size cur) eqn:E.
  - apply Z.ltb_lt in E. repeat split.
    + destruct pre; discriminate.
    + apply tiles_app. exists m. split; [exact Hpre|].
      simpl. unfold size_add, size_sub.
      rewrite !size_wrap_small by (unfold is_size_t; lia).
      repeat split; try lia.
      replace (m + n + (segment_size cur - n)) with (m + segment_size cur) by lia.
      exact Hpost.
    + apply adjacent_pairs_app_cons. split.
      * eapply no_adjacent_free_last_busy; [exact Hfpre | reflexivity].
      * destruct Hfpost as [Hhd Htl].
        split; [reflexivity|]. split; [|exact Htl].
        destruct post as [|t post]; [trivial|].
        unfold not_both_free in *. rewrite Hav in Hhd. exact Hhd.
    + intros HCpos. specialize (Hpos HCpos). unfold positive_sizes in *.
      apply Forall_app in Hpos as [Hp1 Hp2].
      apply Forall_cons in Hp2 as [_ Hp2].
      apply Forall_app. split; [exact Hp1|].
      repeat (apply Forall_cons; split); simpl; trivial.
      unfold size_sub. rewrite size_wrap_small by (unfold is_size_t; lia). lia.
  - repeat split.
    + destruct pre; discriminate.
    + apply tiles_app. exists m. split; [exact Hpre|].
      simpl. auto.
    + apply adjacent_pairs_app_cons. split.
      * eapply no_adjacent_free_last_busy; [exact Hfpre | reflexivity].
      * destruct Hfpost as [Hhd Htl]. split; [|exact Htl].
        destruct post; [trivial | reflexivity].
    + intros HCpos. specialize (Hpos HCpos).
      eapply positive_sizes_same_extent; [|exact Hpos].
      apply same_extent_at. split; reflexivity.
Qed.

Lemma allocate_memory_block_pool_invariant C n st :
  is_size_t C -> is_size_t n ->
  pool_invariant C (heap_segments st) ->
  pool_invariant C (heap_segments (snd (allocate_memory_block n st))).
Proof.
  intros HC [Hn0 Hn] Hinv. unfold allocate_memory_block.
  destruct (n =? 0) eqn:E0; [exact Hinv|]. apply Z.eqb_neq in E0.
  cbn [with_stats current_strategy heap_segments].
  destruct (find_suitable_segment_result (current_strategy st) (heap_segments st) n)
    as [Hnone|(j & s & Hidx & Hs & Hfit)].
  - rewrite Hnone. exact Hinv.
  - rewrite Hidx.
    destruct (Z.of_nat j =? -1) eqn:E; [apply Z.eqb_eq in E; lia|].
    cbn [snd heap_segments]. rewrite Nat2Z.id.
    apply list_elem_of_split_length in Hs as (pre & post & Hsegs & ->).
    rewrite Hsegs in *.
    apply placed_pool_invariant; trivial. lia.
Qed.

Lemma owner_scan_Some rest : forall (k i : nat) pid,
  owner_scan k rest pid = Some i ->
  exists pre cur post,
    rest = pre ++ cur :: post /\ i = (k + length pre)%nat /\
    is_available cur = false /\ process_id cur = pid.
Proof.
  induction rest as [|s rest IH]; intros k i pid H; [discriminate|].
  simpl in H.
  destruct (negb (is_available s) && (process_id s =? pid)) eqn:E.
  - injection H as <-. apply andb_true_iff in E as [E1 E2].
    apply negb_true_iff in E1. apply Z.eqb_eq in E2.
    exists [], s, rest. simpl. rewrite Nat.add_0_r. auto.
  - destruct (IH _ _ _ H) as (pre & cur & post & -> & -> & Hav & Hpid).
    exists (s :: pre), cur, post. simpl. repeat split; trivial; lia.
Qed.

Lemma owner_scan_None rest : forall (k : nat) pid,
  owner_scan k rest pid = None ->
  Forall (fun s => ~ owned_by pid s) rest.
Proof.
  unfold owned_by.
  induction rest as [|s rest IH]; intros k pid H; [constructor|].
  simpl in H.
  destruct (negb (is_available s) && (process_id s =? pid)) eqn:E; [discriminate|].
  constructor; [|eapply IH, H].
  intros [H1 H2]. rewrite H1, H2, Z.eqb_refl in E. discriminate.
Qed.

Lemma owner_scan_found rest : forall (k : nat) pid,
  Exists (owned_by pid) rest ->
  is_Some (owner_scan k rest pid).
Proof.
  intros k pid H. destruct (owner_scan k rest pid) eqn:E; [eauto|].
  apply owner_scan_None in E. apply Exists_exists in H as (s & Hin & Hs).
  rewrite Forall_forall in E. destruct (E s Hin Hs).
Qed.

(** What [deallocate_memory_block] returns when the scan finds the owner
    and the list is contiguous. *)
Lemma deallocate_memory_block_found pid st pre cur post :
  heap_segments st = pre ++ cur :: post ->
  owner_scan 0 (heap_segments st) pid = Some (length pre) ->
  contiguous (heap_segments st) ->
  deallocate_memory_block pid st =
  Some (true,
        mkSim (coalesce (pre ++ with_owner cur true (-1) :: post))
              (total_memory_capacity st) (next_process_identifier st)
              (current_strategy st) (performance_stats st)).
Proof.
  intros Hsegs Hscan Hc. unfold deallocate_memory_block.
  rewrite Hscan, Hsegs, alter_at.
  rewrite merge_adjacent_free_segments_coalesce; [reflexivity|].
  apply (contiguous_same_extent (pre ++ cur :: post));
    [apply same_extent_at; split; reflexivity | rewrite <- Hsegs; exact Hc].
Qed.

Lemma coalesce_pool_invariant C segs :
  is_size_t C ->
  segs <> [] -> tiles 0 segs C -> (0 < C -> positive_sizes segs) ->
  pool_invariant C (coalesce segs).
Proof.
  intros [HC0 HC] Hne Ht Hpos.
  destruct segs as [|s rest]; [contradiction|]. simpl coalesce.
  repeat split.
  - destruct (coalesce_from_head s rest) as (size & tl & ->). discriminate.
  - apply coalesce_from_tiles; trivial. lia.
  - apply coalesce_from_no_adjacent_free.
  - intros HCpos. destruct Ht as (Hb & Hs & Hr).
    apply (coalesce_from_positive s rest ltac:(lia) C HC); [|exact (Hpos HCpos)].
    simpl. rewrite Hb. auto.
Qed.

Lemma deallocate_memory_block_pool_invariant C pid st :
  is_size_t C ->
  pool_invariant C (heap_segments st) ->
  exists found st',
    deallocate_memory_block pid st = Some (found, st') /\
    pool_invariant C (heap_segments st').
Proof.
  intros HC Hinv.
  destruct (owner_scan 0 (heap_segments st) pid) as [i|] eqn:Hscan.
  - destruct (owner_scan_Some _ _ _ _ Hscan) as (pre & cur & post & Hsegs & -> & _).
    simpl in Hscan.
    destruct Hinv as (Hne & Ht & Hfree & Hpos).
    eexists _, _. split.
    + apply (deallocate_memory_block_found pid st pre cur post); trivial.
      apply (tiles_contiguous _ 0 C); [lia | apply HC | exact Ht].
    + cbn [heap_segments]. apply coalesce_pool_invariant.
      * exact HC.
      * destruct pre; discriminate.
      * eapply tiles_same_extent; [|exact Ht].
        rewrite Hsegs. apply same_extent_at. split; reflexivity.
      * intros HCpos. eapply positive_sizes_same_extent; [|exact (Hpos HCpos)].
        rewrite Hsegs. apply same_extent_at. split; reflexivity.
  - exists false, st. unfold deallocate_memory_block. rewrite Hscan. auto.
Qed.

Lemma initialize_memory_pool_invariant C st :
  is_size_t C -> pool_invariant C (heap_segments (initialize_memory_pool C st)).
Proof.
  intros [HC0 HC]. simpl.
  split; [discriminate|]. split; [simpl; lia|].
  split; [split; exact I|].
  intros HCpos. apply Forall_cons. split; [exact HCpos | constructor].
Qed.

Lemma serve_pool_invariant C r st :
  is_size_t C -> request_well_typed r ->
  pool_invariant C (heap_segments st) ->
  exists st', serve r st = Some st' /\ pool_invariant C (heap_segments st').
Proof.
  intros HC Hr Hinv. destruct r as [n|pid|strategy]; simpl.
  - eexists. split; [reflexivity|].
    apply allocate_memory_block_pool_invariant; trivial.
  - destruct (deallocate_memory_block_pool_invariant C pid st HC Hinv)
      as (found & st' & -> & Hinv').
    exists st'. auto.
  - eexists. split; [reflexivity | exact Hinv].
Qed.

Lemma session_pool_invariant C rs : forall st,
  is_size_t C -> Forall request_well_typed rs ->
  pool_invariant C (heap_segments st) ->
  exists st', session rs st = Some st' /\ pool_invariant C (heap_segments st').
Proof.
  induction rs as [|r rs IH]; intros st HC Hrs Hinv; simpl.
  - exists st. auto.
  - apply Forall_cons in Hrs as [Hr Hrs].
    destruct (serve_pool_invariant C r st HC Hr Hinv) as (st1 & -> & Hinv1).
    apply IH; trivial.
Qed.

End Operations.

(** ** Failure paths of the allocator *)

Section FailurePaths.

Lemma allocate_memory_block_zero st :
  allocate_memory_block 0 st = (-1, failed_attempt st).
Proof. reflexivity. Qed.

Lemma find_suitable_segment_none strategy segs n :
  Forall (cannot_hold n) segs -> find_suitable_segment strategy segs n = -1.
Proof.
  intros Hall.
  destruct (find_suitable_segment_result strategy segs n)
    as [H|(j & s & _ & Hs & Hfit)]; [exact H|].
  rewrite Forall_forall in Hall.
  apply list_elem_of_lookup_2 in Hs.
  specialize (Hall s Hs). unfold cannot_hold in Hall. congruence.
Qed.

Lemma allocate_memory_block_no_space n st :
  Forall (cannot_hold n) (heap_segments st) ->
  allocate_memory_block n st = (-1, failed_attempt st).
Proof.
  intros Hall. unfold allocate_memory_block.
  destruct (n =? 0); [reflexivity|].
  cbn [with_stats current_strategy heap_segments].
  rewrite (find_suitable_segment_none _ _ _ Hall). reflexivity.
Qed.

Lemma failed_attempt_counters st :
  below_int_max (total_allocation_attempts (performance_stats st)) ->
  below_int_max (failed_allocations (performance_stats st)) ->
  performance_stats (failed_attempt st) =
  mkStats (total_allocation_attempts (performance_stats st) + 1)
          (successful_allocations (performance_stats st))
          (failed_allocations (performance_stats st) + 1).
Proof.
  intros Ha Hf. unfold failed_attempt, record_failed_allocation,
    record_allocation_attempt. simpl.
  rewrite !int_incr_small by assumption. reflexivity.
Qed.

Lemma deallocate_memory_block_not_found pid st :
  Forall (fun s => ~ owned_by pid s) (heap_segments st) ->
  deallocate_memory_block pid st = Some (false, st).
Proof.
  intros Hall. unfold deallocate_memory_block.
  destruct (owner_scan 0 (heap_segments st) pid) as [i|] eqn:Hscan; [|reflexivity].
  destruct (owner_scan_Some _ _ _ _ Hscan) as (pre & cur & post & Hsegs & _ & Hav & Hpid).
  rewrite Hsegs in Hall. apply Forall_app in Hall as [_ Hall].
  apply Forall_cons in Hall as [Hcur _]. destruct Hcur. split; assumption.
Qed.

Lemma deallocate_memory_block_false pid st st' :
  deallocate_memory_block pid st = Some (false, st') ->
  st' = st /\ Forall (fun s => ~ owned_by pid s) (heap_segments st).
Proof.
  unfold deallocate_memory_block.
  destruct (owner_scan 0 (heap_segments st) pid) as [i|] eqn:Hscan.
  - destruct (merge_adjacent_free_segments _); discriminate.
  - intros H. injection H as <-. split; [reflexivity|].
    eapply owner_scan_None, Hscan.
Qed.

Lemma allocate_memory_block_value n st :
  fst (allocate_memory_block n st) = -1 /\
    snd (allocate_memory_block n st) = failed_attempt st \/
  fst (allocate_memory_block n st) = next_process_identifier st /\
    fitting_index (heap_segments st) n
      (find_suitable_segment (current_strategy st) (heap_segments st) n).
Proof.
  unfold allocate_memory_block.
  destruct (n =? 0); [left; split; reflexivity|].
  cbn [with_stats current_strategy heap_segments next_process_identifier].
  destruct (find_suitable_segment_result (current_strategy st) (heap_segments st) n)
    as [H|H].
  - rewrite H. left; split; reflexivity.
  - destruct (_ =? -1) eqn:E; [left; split; reflexivity|].
    right. split; [reflexivity | exact H].
Qed.

Lemma deallocate_memory_block_true pid st :
  Exists (owned_by pid) (heap_segments st) -> contiguous (heap_segments st) ->
  exists st', deallocate_memory_block pid st = Some (true, st').
Proof.
  intros Hex Hc.
  destruct (owner_scan_found (heap_segments st) 0 pid Hex) as [i Hscan].
  destruct (owner_scan_Some _ _ _ _ Hscan) as (pre & cur & post & Hsegs & -> & _).
  simpl in Hscan. eexists.
  apply (deallocate_memory_block_found pid st pre cur post); trivial.
Qed.

End FailurePaths.

(** ** The allocator's invariants *)

Section AllocatorTheorems.

Lemma serve_capacity r st st' :
  serve r st = Some st' -> total_memory_capacity st' = total_memory_capacity st.
Proof.
  destruct r as [n|pid|strategy]; simpl.
  - intros H. injection H as <-. unfold allocate_memory_block.
    destruct (n =? 0); [reflexivity|].
    destruct (_ =? -1); reflexivity.
  - unfold deallocate_memory_block.
    destruct (owner_scan 0 (heap_segments st) pid).
    + destruct (merge_adjacent_free_segments _); simpl; [|discriminate].
      intros H. injection H as <-. reflexivity.
    + simpl. intros H. injection H as <-. reflexivity.
  - intros H. injection H as <-. reflexivity.
Qed.

Lemma session_capacity rs : forall st st',
  session rs st = Some st' -> total_memory_capacity st' = total_memory_capacity st.
Proof.
  induction rs as [|r rs IH]; simpl; intros st st' H.
  - injection H as <-. reflexivity.
  - destruct (serve r st) as [st1|] eqn:E; [|discriminate].
    rewrite (IH _ _ H). eapply serve_capacity, E.
Qed.

(** C2. For every sequence of allocate and deallocate calls (and strategy
    changes) on an allocator initialised with capacity [C], every call
    returns and the segment list partitions [0, C): its first segment starts
    at 0, each segment's base + size is the next segment's base, the list is
    sorted by base address, no two segments overlap, every segment lies
    within [0, C), and the sizes sum to [C].  For [C > 0] every segment has
    a positive size, so the order is strict. *)
Theorem segment_list_partitions_pool C st0 rs :
  is_size_t C -> Forall request_well_typed rs ->
  exists st,
    session rs (initialize_memory_pool C st0) = Some st /\
    total_memory_capacity st = C /\
    partitions (heap_segments st) C /\
    (0 < C -> positive_sizes (heap_segments st)).
Proof.
  intros HC Hrs.
  destruct (session_pool_invariant C rs (initialize_memory_pool C st0) HC Hrs
              (initialize_memory_pool_invariant C st0 HC)) as (st & Hrun & Hinv).
  exists st. split; [exact Hrun|].
  split; [apply (session_capacity _ _ _ Hrun)|].
  split; [apply pool_invariant_partitions, Hinv | apply Hinv].
Qed.

Lemma segment_list_partitions_pool_witness :
  is_size_t 1000 /\ Forall request_well_typed scenario_requests /\
  exists st,
    session scenario_requests (initialize_memory_pool 1000 new_simulator) = Some st /\
    total_memory_capacity st = 1000 /\
    partitions (heap_segments st) 1000 /\
    (0 < 1000 -> positive_sizes (heap_segments st)).
Proof.
  assert (H1 : is_size_t 1000) by (unfold is_size_t, SIZE_MAX; lia).
  assert (H2 : Forall request_well_typed scenario_requests).
  { unfold scenario_requests.
    repeat (apply Forall_cons; split); try apply Forall_nil; simpl;
      unfold is_size_t, is_int, SIZE_MAX, INT_MIN, INT_MAX; lia. }
  split; [exact H1|]. split; [exact H2|].
  apply (segment_list_partitions_pool 1000 new_simulator scenario_requests H1 H2).
Defined.

(** Every state a session reaches from an initialised pool is contiguous in
    the sense the code tests and has no two free neighbours. *)
Corollary session_states_coalesced C st0 rs st :
  is_size_t C -> Forall request_well_typed rs ->
  session rs (initialize_memory_pool C st0) = Some st ->
  contiguous (heap_segments st) /\ no_adjacent_free (heap_segments st).
Proof.
  intros HC Hrs Hrun.
  destruct (session_pool_invariant C rs (initialize_memory_pool C st0) HC Hrs
              (initialize_memory_pool_invariant C st0 HC)) as (st' & Hrun' & Hinv).
  assert (st' = st) as -> by congruence.
  destruct Hinv as (_ & Ht & Hfree & _).
  split; [|exact Hfree].
  apply (tiles_contiguous _ 0 C); [lia | apply HC | exact Ht].
Qed.

(** The allocator scenario: pool of 1000 bytes, first fit, [alloc 200],
    [alloc 100], [free 1]. *)
Example allocator_scenario :
  allocate_memory_block 200 (initialize_memory_pool 1000 new_simulator) =
    (1, mkSim [mkSegment 0 200 false 1; mkSegment 200 800 true (-1)]
              1000 2 FIRST_FIT (mkStats 1 1 0)) /\
  session [Alloc 200; Alloc 100; Free 1] (initialize_memory_pool 1000 new_simulator) =
    Some (mkSim [mkSegment 0 200 true (-1); mkSegment 200 100 false 2;
                 mkSegment 300 700 true (-1)]
                1000 3 FIRST_FIT (mkStats 2 2 0)).
Proof. split; reflexivity. Qed.

(** The exhaustion scenario: pool of 100 bytes, [alloc 150]. *)
Example exhaustion_scenario :
  allocate_memory_block 150 (initialize_memory_pool 100 new_simulator) =
    (-1, mkSim [mkSegment 0 100 true (-1)] 100 1 FIRST_FIT (mkStats 1 0 1)).
Proof. reflexivity. Qed.

(** Without contiguity the pass need not return: two free neighbours with
    a gap between them keep the loop at the same counter for ever. *)
Example coalescing_needs_contiguity :
  forall fuel, merge_loop fuel 0 free_pair_with_gap = None.
Proof. apply merge_loop_stuck; [simpl; lia | reflexivity | reflexivity]. Qed.

(** C3. On a contiguous segment list the coalescing pass of deallocate
    terminates: a merge at any position of the list removes exactly one
    segment and leaves the list contiguous, the loop is left within
    [length segs + 1] iterations, and the list it leaves has no two
    consecutive free segments. *)
Theorem coalescing_pass_terminates segs :
  contiguous segs ->
  (forall i : nat, (i + 1 < length segs)%nat ->
     S (length (merge_with_next_segment i segs)) = length segs /\
     contiguous (merge_with_next_segment i segs)) /\
  exists result,
    merge_adjacent_free_segments segs = Some result /\
    (forall fuel, (length segs < fuel)%nat -> merge_loop fuel 0 segs = Some result) /\
    no_adjacent_free result /\
    contiguous result /\
    (length result <= length segs)%nat.
Proof.
  intros Hc. split.
  - intros i Hi. split.
    + apply merge_with_next_segment_shrinks; assumption.
    + apply merge_with_next_segment_contiguous, Hc.
  - exists (coalesce segs).
    split; [apply merge_adjacent_free_segments_coalesce, Hc|].
    split; [intros fuel Hfuel; apply merge_loop_is_coalesce; [exact Hc | lia]|].
    destruct segs as [|s rest]; simpl.
    + repeat split; trivial.
    + split; [apply coalesce_from_no_adjacent_free|].
      split; [apply coalesce_from_contiguous, Hc | apply coalesce_from_length].
Qed.

Lemma coalescing_pass_terminates_witness :
  contiguous two_free_neighbours /\
  merge_adjacent_free_segments two_free_neighbours =
    Some [mkSegment 0 300 true (-1); mkSegment 300 100 false 2;
          mkSegment 400 600 true (-1)] /\
  exists result,
    merge_adjacent_free_segments two_free_neighbours = Some result /\
    (forall fuel, (length two_free_neighbours < fuel)%nat ->
       merge_loop fuel 0 two_free_neighbours = Some result) /\
    no_adjacent_free result /\
    contiguous result /\
    (length result <= length two_free_neighbours)%nat.
Proof.
  assert (Hc : contiguous two_free_neighbours)
    by (repeat split; reflexivity).
  split; [exact Hc|]. split; [reflexivity|].
  apply (coalescing_pass_terminates two_free_neighbours Hc).
Defined.

(** C4. On a contiguous segment list without two consecutive free segments
    (both are among the invariants of the data model), every deallocate call
    returns, and the list it leaves has no two consecutive free segments. *)
Theorem deallocate_leaves_no_adjacent_free pid st :
  contiguous (heap_segments st) -> no_adjacent_free (heap_segments st) ->
  exists found st',
    deallocate_memory_block pid st = Some (found, st') /\
    no_adjacent_free (heap_segments st').
Proof.
  intros Hc Hfree.
  destruct (owner_scan 0 (heap_segments st) pid) as [i|] eqn:Hscan.
  - destruct (owner_scan_Some _ _ _ _ Hscan) as (pre & cur & post & Hsegs & -> & _).
    simpl in Hscan.
    eexists _, _. split.
    + apply (deallocate_memory_block_found pid st pre cur post); trivial.
    + cbn [heap_segments].
      destruct pre as [|p pre]; simpl; apply coalesce_from_no_adjacent_free.
  - exists false, st. unfold deallocate_memory_block. rewrite Hscan. auto.
Qed.

Lemma deallocate_leaves_no_adjacent_free_witness :
  contiguous (heap_segments busy_pool) /\
  no_adjacent_free (heap_segments busy_pool) /\
  exists found st',
    deallocate_memory_block 2 busy_pool = Some (found, st') /\
    no_adjacent_free (heap_segments st').
Proof.
  assert (Hc : contiguous (heap_segments busy_pool))
    by (repeat split; reflexivity).
  assert (Hf : no_adjacent_free (heap_segments busy_pool))
    by (repeat split; reflexivity).
  split; [exact Hc|]. split; [exact Hf|].
  apply (deallocate_leaves_no_adjacent_free 2 busy_pool Hc Hf).
Defined.

End AllocatorTheorems.

(** ** The allocator's error paths *)

Section AllocatorErrors.

(** C6. A zero-size request returns [-1], records one attempt and one
    failure, and changes nothing else; deallocating an owner id that no
    allocated segment carries returns [false] and changes nothing at all.
    The two values tell failure from success: [false] is returned only when
    no segment is owned by the id, and an allocation that is not answered
    by [-1] with the failure recorded is answered by the next process
    identifier. *)
Theorem allocator_error_paths st pid :
  below_int_max (total_allocation_attempts (performance_stats st)) ->
  below_int_max (failed_allocations (performance_stats st)) ->
  Forall (fun s => ~ owned_by pid s) (heap_segments st) ->
  (exists st',
     allocate_memory_block 0 st = (-1, st') /\
     heap_segments st' = heap_segments st /\
     total_allocation_attempts (performance_stats st') =
       total_allocation_attempts (performance_stats st) + 1 /\
     failed_allocations (performance_stats st') =
       failed_allocations (performance_stats st) + 1 /\
     successful_allocations (performance_stats st') =
       successful_allocations (performance_stats st) /\
     total_memory_capacity st' = total_memory_capacity st /\
     next_process_identifier st' = next_process_identifier st /\
     current_strategy st' = current_strategy st) /\
  deallocate_memory_block pid st = Some (false, st) /\
  (forall pid' st', deallocate_memory_block pid' st = Some (false, st') ->
     Forall (fun s => ~ owned_by pid' s) (heap_segments st)) /\
  (forall n,
     fst (allocate_memory_block n st) = -1 /\
       snd (allocate_memory_block n st) = failed_attempt st \/
     fst (allocate_memory_block n st) = next_process_identifier st).
Proof.
  intros Ha Hf Hnone. split; [|split; [|split]].
  - exists (failed_attempt st). rewrite allocate_memory_block_zero.
    split; [reflexivity|]. split; [reflexivity|].
    rewrite (failed_attempt_counters st Ha Hf). simpl. auto 10.
  - apply deallocate_memory_block_not_found, Hnone.
  - intros pid' st' H. apply (deallocate_memory_block_false _ _ _ H).
  - intros n. destruct (allocate_memory_block_value n st) as [H|[H _]]; auto.
Qed.

Lemma allocator_error_paths_witness :
  below_int_max (total_allocation_attempts (performance_stats busy_pool)) /\
  below_int_max (failed_allocations (performance_stats busy_pool)) /\
  Forall (fun s => ~ owned_by 7 s) (heap_segments busy_pool) /\
  allocate_memory_block 0 busy_pool =
    (-1, with_stats busy_pool (mkStats 3 2 1)) /\
  deallocate_memory_block 7 busy_pool = Some (false, busy_pool).
Proof.
  assert (Ha : below_int_max (total_allocation_attempts (performance_stats busy_pool)))
    by (unfold below_int_max, INT_MIN, INT_MAX; simpl; lia).
  assert (Hf : below_int_max (failed_allocations (performance_stats busy_pool)))
    by (unfold below_int_max, INT_MIN, INT_MAX; simpl; lia).
  assert (Hn : Forall (fun s => ~ owned_by 7 s) (heap_segments busy_pool)).
  { simpl. repeat (apply Forall_cons; split); try apply Forall_nil_2;
      unfold owned_by; simpl; intros [? ?]; discriminate. }
  split; [exact Ha|]. split; [exact Hf|]. split; [exact Hn|].
  split; [reflexivity|].
  exact (proj1 (proj2 (allocator_error_paths busy_pool 7 Ha Hf Hn))).
Defined.

(** C10. A non-zero request on an allocator whose segment list is empty
    (constructed or reset, never initialised) returns [-1], records one
    attempt and one failure, and leaves the list empty and the rest of the
    state as it was.  [-1] with the same bookkeeping is what every request
    gets that no segment can hold, so the caller sees the same failure as
    on exhaustion. *)
Theorem allocate_on_uninitialized_pool n st :
  heap_segments st = [] -> n <> 0 ->
  below_int_max (total_allocation_attempts (performance_stats st)) ->
  below_int_max (failed_allocations (performance_stats st)) ->
  (exists st',
     allocate_memory_block n st = (-1, st') /\
     heap_segments st' = [] /\
     total_allocation_attempts (performance_stats st') =
       total_allocation_attempts (performance_stats st) + 1 /\
     failed_allocations (performance_stats st') =
       failed_allocations (performance_stats st) + 1 /\
     successful_allocations (performance_stats st') =
       successful_allocations (performance_stats st) /\
     total_memory_capacity st' = total_memory_capacity st /\
     next_process_identifier st' = next_process_identifier st /\
     current_strategy st' = current_strategy st) /\
  (forall st2, Forall (cannot_hold n) (heap_segments st2) ->
     allocate_memory_block n st2 = (-1, failed_attempt st2) /\
     fst (allocate_memory_block n st2) = fst (allocate_memory_block n st)).
Proof.
  intros Hempty Hn Ha Hf.
  assert (Hst : allocate_memory_block n st = (-1, failed_attempt st)).
  { apply allocate_memory_block_no_space. rewrite Hempty. constructor. }
  split.
  - exists (failed_attempt st). split; [exact Hst|].
    split; [exact Hempty|].
    rewrite (failed_attempt_counters st Ha Hf). simpl. auto 10.
  - intros st2 H2. rewrite Hst, (allocate_memory_block_no_space n st2 H2).
    split; reflexivity.
Qed.

Lemma allocate_on_uninitialized_pool_witness :
  heap_segments new_simulator = [] /\ 150 <> 0 /\
  allocate_memory_block 150 new_simulator =
    (-1, with_stats new_simulator (mkStats 1 0 1)) /\
  allocate_memory_block 150 (initialize_memory_pool 100 new_simulator) =
    (-1, with_stats (initialize_memory_pool 100 new_simulator) (mkStats 1 0 1)) /\
  exists st',
    allocate_memory_block 150 new_simulator = (-1, st') /\ heap_segments st' = [].
Proof.
  assert (Ha : below_int_max (total_allocation_attempts (performance_stats new_simulator)))
    by (unfold below_int_max, INT_MIN, INT_MAX; simpl; lia).
  assert (Hf : below_int_max (failed_allocations (performance_stats new_simulator)))
    by (unfold below_int_max, INT_MIN, INT_MAX; simpl; lia).
  assert (Hn : 150 <> 0) by lia.
  split; [reflexivity|]. split; [exact Hn|].
  split; [reflexivity|]. split; [reflexivity|].
  destruct (allocate_on_uninitialized_pool 150 new_simulator eq_refl Hn Ha Hf)
    as [(st' & H1 & H2 & _) _].
  exists st'. split; assumption.
Defined.

End AllocatorErrors.

(** ** Derived ratios *)

Section Ratios.

(** C9. Each ratio tests its denominator first and returns [+0.0] when it
    is zero, whatever the numerator: the success rate when no attempt was
    recorded, the hit ratio and the miss ratio when no access was. *)
Theorem ratios_guard_zero_denominator (s : MemoryStatistics) (m : CacheMetrics) :
  total_allocation_attempts s = 0 -> total_accesses m = 0 ->
  get_success_rate s = S754_zero false /\
  get_hit_ratio m = S754_zero false /\
  get_miss_ratio m = S754_zero false.
Proof.
  intros Hs Hm. unfold get_success_rate, get_hit_ratio, get_miss_ratio.
  rewrite Hs, Hm. simpl. auto.
Qed.

Lemma ratios_guard_zero_denominator_witness :
  total_allocation_attempts new_statistics = 0 /\
  total_accesses new_metrics = 0 /\
  get_success_rate new_statistics = S754_zero false /\
  get_hit_ratio new_metrics = S754_zero false /\
  get_miss_ratio new_metrics = S754_zero false.
Proof.
  split; [reflexivity|]. split; [reflexivity|].
  apply (ratios_guard_zero_denominator new_statistics new_metrics eq_refl eq_refl).
Defined.

(** With a non-zero denominator the quotient is computed: one success in
    two attempts is 50.0 = 7036874417766400 * 2^-47. *)
Example success_rate_half :
  get_success_rate (mkStats 2 1 1) = S754_finite false 7036874417766400 (-47).
Proof. vm_compute. reflexivity. Qed.

(** The two ratios of the fragmentation analysis are guarded as well. *)
Lemma fragmentation_ratios_guard_zero st :
  (total_memory_capacity st = 0 ->
   memory_utilization (fragmentation_analysis st) = S754_zero false) /\
  (total_free_space (fragmentation_analysis st) = 0 ->
   external_fragmentation (fragmentation_analysis st) = S754_zero false).
Proof.
  unfold fragmentation_analysis.
  destruct (tally_segments (heap_segments st) 0 0 0) as [[free allocated] largest].
  simpl. split; intros ->; reflexivity.
Qed.

End Ratios.

(** ** The cache level *)

Section CacheTheorems.

Lemma new_CacheLevel_well_formed cache_size block_size c :
  0 <= cache_size -> 0 <= block_size ->
  new_CacheLevel cache_size block_size = Some c -> well_formed_cache c.
Proof.
  intros Hc Hb. unfold new_CacheLevel.
  destruct (block_size =? 0) eqn:E0; [discriminate|]. apply Z.eqb_neq in E0.
  destruct (cache_size / block_size =? 0) eqn:E1; [discriminate|].
  apply Z.eqb_neq in E1. intros H. injection H as <-.
  pose proof (Z.div_pos cache_size block_size Hc ltac:(lia)).
  unfold well_formed_cache. simpl. rewrite length_replicate. lia.
Qed.

Lemma calculate_block_index_in_range c memory_address :
  well_formed_cache c ->
  0 <= calculate_block_index c memory_address < number_of_blocks c /\
  (Z.to_nat (calculate_block_index c memory_address) < length (cache_blocks c))%nat.
Proof.
  intros (_ & Hn & Hlen). unfold calculate_block_index.
  pose proof (Z.mod_pos_bound (memory_address / block_size_bytes c)
                (number_of_blocks c) Hn).
  split; [assumption|]. rewrite Hlen. lia.
Qed.

Lemma access_memory_well_formed memory_address c :
  well_formed_cache c -> well_formed_cache (snd (access_memory memory_address c)).
Proof.
  intros (Hb & Hn & Hlen). unfold access_memory.
  destruct (_ && _); [exact (conj Hb (conj Hn Hlen))|].
  cbn [snd]. unfold well_formed_cache, load_block. cbn [block_size_bytes
    number_of_blocks cache_blocks]. rewrite length_insert.
  destruct (valid _); [|exact (conj Hb (conj Hn Hlen))].
  unfold evict_oldest_block. cbn [fifo_queue with_metrics].
  destruct (fifo_queue c); simpl; [exact (conj Hb (conj Hn Hlen))|].
  rewrite length_alter. exact (conj Hb (conj Hn Hlen)).
Qed.

(** C7. A fresh cache of 64 bytes with 16-byte blocks has 4 blocks, and the
    accesses 0, 0, 64, 0 answer miss, hit, miss, miss.  The third access
    maps to index 0 with tag 1, finds the block loaded for tag 0 there, pops
    index 0 from the FIFO list and invalidates that block before loading
    the new one. *)
Theorem cache_scenario :
  exists c0 c1 c2 c3 c4,
    new_CacheLevel 64 16 = Some c0 /\ number_of_blocks c0 = 4 /\
    length (cache_blocks c0) = 4%nat /\
    access_memory 0 c0 = (false, c1) /\
    block_at c1 0 = mkBlock true 0 0 /\
    access_memory 0 c1 = (true, c2) /\
    calculate_block_index c2 64 = 0 /\ extract_tag c2 64 = 1 /\
    block_at c2 0 = mkBlock true 0 0 /\ fifo_queue c2 = [0] /\
    block_at (evict_oldest_block c2) 0 = mkBlock false 0 0 /\
    access_memory 64 c2 = (false, c3) /\
    block_at c3 0 = mkBlock true 1 64 /\ fifo_queue c3 = [0] /\
    access_memory 0 c3 = (false, c4) /\
    access_all [0; 0; 64; 0] c0 = ([false; true; false; false], c4).
Proof.
  do 5 eexists.
  split; [reflexivity|].
  repeat (split; [reflexivity|]). reflexivity.
Qed.

Lemma map_invalidate_idem (blocks : list CacheBlock) :
  map invalidate (map invalidate blocks) = map invalidate blocks.
Proof. induction blocks as [|b blocks IH]; simpl; [reflexivity | f_equal; exact IH]. Qed.

Lemma map_invalidate_all (blocks : list CacheBlock) :
  Forall (fun b => b = mkBlock false 0 0) (map invalidate blocks).
Proof. induction blocks; simpl; constructor; [reflexivity | assumption]. Qed.

(** C8. Flushing keeps the three counters, leaves every block invalid with
    tag 0 and stored address 0 (as many blocks as before), and empties the
    FIFO list; a second flush changes nothing at all. *)
Theorem flush_cache_idempotent (c : CacheLevel) :
  performance_metrics (flush_cache c) = performance_metrics c /\
  total_accesses (performance_metrics (flush_cache c)) =
    total_accesses (performance_metrics c) /\
  cache_hits (performance_metrics (flush_cache c)) =
    cache_hits (performance_metrics c) /\
  cache_misses (performance_metrics (flush_cache c)) =
    cache_misses (performance_metrics c) /\
  Forall (fun b => b = mkBlock false 0 0) (cache_blocks (flush_cache c)) /\
  length (cache_blocks (flush_cache c)) = length (cache_blocks c) /\
  fifo_queue (flush_cache c) = [] /\
  flush_cache (flush_cache c) = flush_cache c.
Proof.
  repeat (split; [reflexivity|]).
  split; [apply map_invalidate_all|].
  split; [apply length_map|].
  split; [reflexivity|].
  unfold flush_cache. simpl. rewrite map_invalidate_idem. reflexivity.
Qed.

(** C1, evaluated.  After the accesses 0 and 16 on a fresh 64/16 cache the
    access 80 misses on index 1, whose block is valid with tag 0 (the new
    tag is 1), so it evicts; the FIFO list is [0; 1], the index popped is 0
    and not 1, and the block invalidated is the one at index 0, which the
    access does not repopulate.  Address 0, never displaced, misses next. *)
Theorem eviction_pops_front_not_target :
  exists c0 c1 c2 c3,
    new_CacheLevel 64 16 = Some c0 /\
    access_memory 0 c0 = (false, c1) /\
    access_memory 16 c1 = (false, c2) /\
    calculate_block_index c2 80 = 1 /\ extract_tag c2 80 = 1 /\
    block_at c2 1 = mkBlock true 0 16 /\
    block_at c2 0 = mkBlock true 0 0 /\
    fifo_queue c2 = [0; 1] /\
    head (fifo_queue c2) <> Some (calculate_block_index c2 80) /\
    access_memory 80 c2 = (false, c3) /\
    block_at c3 0 = mkBlock false 0 0 /\
    block_at c3 1 = mkBlock true 1 80 /\
    fifo_queue c3 = [1; 1] /\
    fst (access_memory 0 c3) = false.
Proof.
  do 4 eexists.
  split; [reflexivity|].
  repeat (split; [reflexivity || discriminate|]). reflexivity.
Qed.

End CacheTheorems.

(** ** Placement strategies *)

Section Strategies.

Variable n : Z.

Lemma lookup_last_Some (pre : list MemorySegment) s (j : nat) t :
  (pre ++ [s]) !! j = Some t ->
  (pre !! j = Some t /\ (j < length pre)%nat) \/ (j = length pre /\ t = s).
Proof.
  intros H. apply lookup_app_Some in H as [H|[Hle H]].
  - left. split; [exact H | eapply lookup_lt_Some, H].
  - right. destruct (j - length pre)%nat eqn:E; simpl in H; [|discriminate].
    injection H as <-. split; [lia | reflexivity].
Qed.

Lemma cannot_hold_lookup (pre : list MemorySegment) (j : nat) t :
  Forall (cannot_hold n) pre -> pre !! j = Some t ->
  can_accommodate t n = true -> False.
Proof.
  intros Hall Hj Hfit. rewrite Forall_forall in Hall.
  apply list_elem_of_lookup_2 in Hj. specialize (Hall t Hj).
  unfold cannot_hold in Hall. congruence.
Qed.

Lemma cannot_hold_last (pre : list MemorySegment) s :
  Forall (cannot_hold n) pre -> can_accommodate s n = false ->
  Forall (cannot_hold n) (pre ++ [s]).
Proof.
  intros Hall Hs. apply Forall_app. split; [exact Hall|].
  apply Forall_cons. split; [exact Hs | apply Forall_nil_2].
Qed.

(** *** Best fit *)

Lemma best_choice_new (pre : list MemorySegment) s :
  can_accommodate s n = true ->
  (forall (j : nat) t, pre !! j = Some t -> can_accommodate t n = true ->
     segment_size s < segment_size t) ->
  best_choice (pre ++ [s]) n (length pre).
Proof.
  intros Hfit Hless. exists s.
  split; [apply list_lookup_middle; reflexivity|]. split; [exact Hfit|]. split.
  - intros j t Hj Ht. apply lookup_last_Some in Hj as [[Hj _]|[_ ->]]; [|lia].
    specialize (Hless j t Hj Ht). lia.
  - intros j t Hlt Hj Ht. apply lookup_last_Some in Hj as [[Hj _]|[-> _]]; [|lia].
    apply (Hless j t Hj Ht).
Qed.

Lemma best_choice_keep (pre : list MemorySegment) s (k : nat) b :
  best_choice pre n k -> pre !! k = Some b ->
  (can_accommodate s n = true -> segment_size b <= segment_size s) ->
  best_choice (pre ++ [s]) n k.
Proof.
  intros (b' & Hk & Hfit & Hmin & Hfirst) Hb Hs.
  assert (b' = b) as -> by congruence.
  exists b. split; [apply lookup_app_l_Some, Hb|]. split; [exact Hfit|]. split.
  - intros j t Hj Ht. apply lookup_last_Some in Hj as [[Hj _]|[_ ->]].
    + apply (Hmin j t Hj Ht).
    + apply Hs, Ht.
  - intros j t Hlt Hj Ht. apply lookup_last_Some in Hj as [[Hj _]|[-> _]].
    + apply (Hfirst j t Hlt Hj Ht).
    + apply lookup_lt_Some in Hb. lia.
Qed.

Lemma best_fit_loop_selects rest : forall pre best smallest,
  Forall (fun s => can_accommodate s n = true -> segment_size s < SIZE_MAX) rest ->
  best_state n pre best smallest ->
  selects best_choice (pre ++ rest) n
          (best_fit_loop (length pre) rest n best smallest).
Proof.
  induction rest as [|s rest IH]; intros pre best smallest Hsz Hst.
  - simpl. rewrite app_nil_r.
    destruct Hst as [(-> & _ & Hnone)|(k & t & -> & _ & _ & Hch)].
    + left. auto.
    + right. exists k. auto.
  - apply Forall_cons in Hsz as [Hs Hsz].
    replace (pre ++ s :: rest) with ((pre ++ [s]) ++ rest)
      by (rewrite <- app_assoc; reflexivity).
    assert (Hlen : S (length pre) = length (pre ++ [s]))
      by (rewrite length_app; simpl; lia).
    simpl best_fit_loop. rewrite Hlen.
    destruct (can_accommodate s n) eqn:Hfit;
      [destruct (segment_size s <? smallest) eqn:Hlt|]; apply IH; trivial.
    + apply Z.ltb_lt in Hlt. right. exists (length pre), s.
      split; [reflexivity|]. split; [apply list_lookup_middle; reflexivity|].
      split; [reflexivity|]. apply best_choice_new; [exact Hfit|].
      intros j t Hj Ht.
      destruct Hst as [(_ & _ & Hnone)|(k & b & _ & Hk & -> & Hch)].
      * destruct (cannot_hold_lookup pre j t Hnone Hj Ht).
      * destruct Hch as (b' & Hk' & _ & Hmin & _).
        assert (b' = b) as -> by congruence.
        specialize (Hmin j t Hj Ht). lia.
    + apply Z.ltb_ge in Hlt.
      destruct Hst as [(_ & -> & _)|(k & b & -> & Hk & -> & Hch)].
      * specialize (Hs eq_refl). lia.
      * right. exists k, b. split; [reflexivity|].
        split; [apply lookup_app_l_Some, Hk|]. split; [reflexivity|].
        apply (best_choice_keep pre s k b Hch Hk). intros _. exact Hlt.
    + destruct Hst as [(-> & -> & Hnone)|(k & b & -> & Hk & -> & Hch)].
      * left. split; [reflexivity|]. split; [reflexivity|].
        apply cannot_hold_last; assumption.
      * right. exists k, b. split; [reflexivity|].
        split; [apply lookup_app_l_Some, Hk|]. split; [reflexivity|].
        apply (best_choice_keep pre s k b Hch Hk). congruence.
Qed.

(** X8. On every layout in which no segment that fits has size [SIZE_MAX],
    best fit returns the index of the smallest free segment that is large
    enough, the earliest of these when several have that size, and [-1]
    exactly when no segment is free and large enough. *)
Lemma find_suitable_segment_best_fit_selects segs :
  Forall (fun s => can_accommodate s n = true -> segment_size s < SIZE_MAX) segs ->
  selects best_choice segs n (find_suitable_segment_best_fit segs n).
Proof.
  intros Hsz. apply (best_fit_loop_selects segs [] (-1) SIZE_MAX Hsz).
  left. split; [reflexivity|]. split; [reflexivity | apply Forall_nil_2].
Qed.

(** *** Worst fit *)

Lemma worst_choice_new (pre : list MemorySegment) s :
  can_accommodate s n = true ->
  (forall (j : nat) t, pre !! j = Some t -> can_accommodate t n = true ->
     segment_size t < segment_size s) ->
  worst_choice (pre ++ [s]) n (length pre).
Proof.
  intros Hfit Hless. exists s.
  split; [apply list_lookup_middle; reflexivity|]. split; [exact Hfit|]. split.
  - intros j t Hj Ht. apply lookup_last_Some in Hj as [[Hj _]|[_ ->]]; [|lia].
    specialize (Hless j t Hj Ht). lia.
  - intros j t Hlt Hj Ht. apply lookup_last_Some in Hj as [[Hj _]|[-> _]]; [|lia].
    apply (Hless j t Hj Ht).
Qed.

Lemma worst_choice_keep (pre : list MemorySegment) s (k : nat) b :
  worst_choice pre n k -> pre !! k = Some b ->
  (can_accommodate s n = true -> segment_size s <= segment_size b) ->
  worst_choice (pre ++ [s]) n k.
Proof.
  intros (b' & Hk & Hfit & Hmax & Hfirst) Hb Hs.
  assert (b' = b) as -> by congruence.
  exists b. split; [apply lookup_app_l_Some, Hb|]. split; [exact Hfit|]. split.
  - intros j t Hj Ht. apply lookup_last_Some in Hj as [[Hj _]|[_ ->]].
    + apply (Hmax j t Hj Ht).
    + apply Hs, Ht.
  - intros j t Hlt Hj Ht. apply lookup_last_Some in Hj as [[Hj _]|[-> _]].
    + apply (Hfirst j t Hlt Hj Ht).
    + apply lookup_lt_Some in Hb. lia.
Qed.

Lemma worst_fit_loop_selects rest : forall pre worst largest,
  0 < n ->
  worst_state n pre worst largest ->
  selects worst_choice (pre ++ rest) n
          (worst_fit_loop (length pre) rest n worst largest).
Proof.
  induction rest as [|s rest IH]; intros pre worst largest Hn Hst.
  - simpl. rewrite app_nil_r.
    destruct Hst as [(-> & _ & Hnone)|(k & t & -> & _ & _ & Hch)].
    + left. auto.
    + right. exists k. auto.
  - replace (pre ++ s :: rest) with ((pre ++ [s]) ++ rest)
      by (rewrite <- app_assoc; reflexivity).
    assert (Hlen : S (length pre) = length (pre ++ [s]))
      by (rewrite length_app; simpl; lia).
    simpl worst_fit_loop. rewrite Hlen.
    destruct (can_accommodate s n) eqn:Hfit;
      [destruct (largest <? segment_size s) eqn:Hlt|]; apply IH; trivial.
    + apply Z.ltb_lt in Hlt. right. exists (length pre), s.
      split; [reflexivity|]. split; [apply list_lookup_middle; reflexivity|].
      split; [reflexivity|]. apply worst_choice_new; [exact Hfit|].
      intros j t Hj Ht.
      destruct Hst as [(_ & _ & Hnone)|(k & b & _ & Hk & -> & Hch)].
      * destruct (cannot_hold_lookup pre j t Hnone Hj Ht).
      * destruct Hch as (b' & Hk' & _ & Hmax & _).
        assert (b' = b) as -> by congruence.
        specialize (Hmax j t Hj Ht). lia.
    + apply Z.ltb_ge in Hlt.
      destruct Hst as [(_ & -> & _)|(k & b & -> & Hk & -> & Hch)].
      * apply can_accommodate_true in Hfit as [_ Hfit]. lia.
      * right. exists k, b. split; [reflexivity|].
        split; [apply lookup_app_l_Some, Hk|]. split; [reflexivity|].
        apply (worst_choice_keep pre s k b Hch Hk). intros _. exact Hlt.
    + destruct Hst as [(-> & -> & Hnone)|(k & b & -> & Hk & -> & Hch)].
      * left. split; [reflexivity|]. split; [reflexivity|].
        apply cannot_hold_last; assumption.
      * right. exists k, b. split; [reflexivity|].
        split; [apply lookup_app_l_Some, Hk|]. split; [reflexivity|].
        apply (worst_choice_keep pre s k b Hch Hk). congruence.
Qed.

(** X9. On every layout and for every non-zero request, worst fit returns
    the index of the largest free segment that is large enough, the earliest
    of these when several have that size, and [-1] exactly when no segment
    is free and large enough. *)
Lemma find_suitable_segment_worst_fit_selects segs :
  0 < n -> selects worst_choice segs n (find_suitable_segment_worst_fit segs n).
Proof.
  intros Hn. apply (worst_fit_loop_selects segs [] (-1) 0 Hn).
  left. split; [reflexivity|]. split; [reflexivity | apply Forall_nil_2].
Qed.

(** The two choices are unique, so they are functions of the layout. *)
Lemma best_choice_unique segs (k k' : nat) :
  best_choice segs n k -> best_choice segs n k' -> k = k'.
Proof.
  intros (s & Hk & Hfit & Hmin & Hfirst) (s' & Hk' & Hfit' & Hmin' & Hfirst').
  destruct (Nat.lt_trichotomy k k') as [Hlt|[Heq|Hgt]]; [|exact Heq|].
  - specialize (Hfirst' k s Hlt Hk Hfit). specialize (Hmin k' s' Hk' Hfit'). lia.
  - specialize (Hfirst k' s' Hgt Hk' Hfit'). specialize (Hmin' k s Hk Hfit). lia.
Qed.

Lemma worst_choice_unique segs (k k' : nat) :
  worst_choice segs n k -> worst_choice segs n k' -> k = k'.
Proof.
  intros (s & Hk & Hfit & Hmax & Hfirst) (s' & Hk' & Hfit' & Hmax' & Hfirst').
  destruct (Nat.lt_trichotomy k k') as [Hlt|[Heq|Hgt]]; [|exact Heq|].
  - specialize (Hfirst' k s Hlt Hk Hfit). specialize (Hmax k' s' Hk' Hfit'). lia.
  - specialize (Hfirst k' s' Hgt Hk' Hfit'). specialize (Hmax' k s Hk Hfit). lia.
Qed.

End Strategies.

(** C5, evaluated.  On the pool made by [init 18446744073709551615] the
    single free segment has size [SIZE_MAX] and can hold one byte, so it is
    the best choice; first fit and worst fit select it, best fit returns
    [-1], and the allocation fails under best fit. *)
Theorem best_fit_misses_size_max_segment :
  heap_segments (initialize_memory_pool SIZE_MAX new_simulator) =
    [mkSegment 0 SIZE_MAX true (-1)] /\
  can_accommodate (mkSegment 0 SIZE_MAX true (-1)) 1 = true /\
  find_suitable_segment_first_fit [mkSegment 0 SIZE_MAX true (-1)] 1 = 0 /\
  find_suitable_segment_worst_fit [mkSegment 0 SIZE_MAX true (-1)] 1 = 0 /\
  find_suitable_segment_best_fit [mkSegment 0 SIZE_MAX true (-1)] 1 = -1 /\
  fst (allocate_memory_block 1
         (set_allocation_strategy BEST_FIT
            (initialize_memory_pool SIZE_MAX new_simulator))) = -1 /\
  ~ selects best_choice [mkSegment 0 SIZE_MAX true (-1)] 1
      (find_suitable_segment_best_fit [mkSegment 0 SIZE_MAX true (-1)] 1).
Proof.
  repeat (split; [reflexivity|]).
  intros [[_ Hnone]|(k & Hk & _)].
  - apply Forall_cons in Hnone as [Hnone _]. discriminate Hnone.
  - change (find_suitable_segment_best_fit [mkSegment 0 SIZE_MAX true (-1)] 1)
      with (-1) in Hk. lia.
Qed.

(** ** Further properties of the allocator *)

Section Placement.

Lemma placed_segments_placement pre cur post n pid :
  n <= segment_size cur ->
  alter (fun s => with_owner s false pid) (length pre)
        (split_memory_segment (length pre) n (pre ++ cur :: post)) =
  placement pre cur post n pid.
Proof.
  intros Hle. rewrite placed_segments. unfold placement.
  destruct (n <? segment_size cur) eqn:E; [reflexivity|].
  apply Z.ltb_ge in E. replace (segment_size cur) with n by lia. reflexivity.
Qed.

Lemma allocate_memory_block_success n st pre cur post :
  n <> 0 -> n <= segment_size cur ->
  heap_segments st = pre ++ cur :: post ->
  find_suitable_segment (current_strategy st) (heap_segments st) n =
    Z.of_nat (length pre) ->
  allocate_memory_block n st =
    (next_process_identifier st,
     mkSim (placement pre cur post n (next_process_identifier st))
           (total_memory_capacity st)
           (int_incr (next_process_identifier st))
           (current_strategy st)
           (record_successful_allocation
              (record_allocation_attempt (performance_stats st)))).
Proof.
  intros Hn Hle Hsegs Hfind. unfold allocate_memory_block.
  destruct (n =? 0) eqn:E0; [apply Z.eqb_eq in E0; contradiction|].
  cbn [with_stats current_strategy heap_segments next_process_identifier
       total_memory_capacity performance_stats].
  rewrite Hfind.
  destruct (Z.of_nat (length pre) =? -1) eqn:E; [apply Z.eqb_eq in E; lia|].
  rewrite Nat2Z.id, Hsegs, placed_segments_placement by exact Hle. reflexivity.
Qed.

Lemma find_suitable_segment_found strategy segs n :
  find_suitable_segment strategy segs n <> -1 ->
  exists pre cur post,
    segs = pre ++ cur :: post /\
    find_suitable_segment strategy segs n = Z.of_nat (length pre) /\
    can_accommodate cur n = true.
Proof.
  intros Hne.
  destruct (find_suitable_segment_result strategy segs n)
    as [H|(j & s & Hidx & Hs & Hfit)]; [contradiction|].
  apply list_elem_of_split_length in Hs as (pre & post & -> & ->).
  exists pre, s, post. auto.
Qed.

(** X1. A successful allocation returns the next process identifier and
    rewrites the chosen free segment only: an allocated segment of exactly
    the requested size at the segment's base address, followed by a free
    remainder when the segment was larger; the identifier counter advances
    and one attempt and one success are recorded. *)
Theorem allocate_memory_block_exact_size n st :
  n <> 0 ->
  find_suitable_segment (current_strategy st) (heap_segments st) n <> -1 ->
  exists pre cur post,
    heap_segments st = pre ++ cur :: post /\
    find_suitable_segment (current_strategy st) (heap_segments st) n =
      Z.of_nat (length pre) /\
    is_available cur = true /\ n <= segment_size cur /\
    allocate_memory_block n st =
      (next_process_identifier st,
       mkSim (pre ++ mkSegment (base_address cur) n false (next_process_identifier st)
                  :: (if n <? segment_size cur
                      then [mkSegment (size_add (base_address cur) n)
                                      (size_sub (segment_size cur) n) true (-1)]
                      else [])
                  ++ post)
             (total_memory_capacity st)
             (int_incr (next_process_identifier st))
             (current_strategy st)
             (record_successful_allocation
                (record_allocation_attempt (performance_stats st)))).
Proof.
  intros Hn Hne.
  destruct (find_suitable_segment_found _ _ _ Hne) as (pre & cur & post & Hsegs & Hidx & Hfit).
  exists pre, cur, post.
  apply can_accommodate_true in Hfit as [Hav Hle].
  repeat (split; [assumption|]).
  apply allocate_memory_block_success; assumption.
Qed.

Lemma allocate_memory_block_exact_size_witness :
  200 <> 0 /\
  find_suitable_segment (current_strategy busy_pool) (heap_segments busy_pool) 200 <> -1 /\
  allocate_memory_block 200 busy_pool =
    (3, mkSim [mkSegment 0 200 false 1; mkSegment 200 100 false 2;
               mkSegment 300 200 false 3; mkSegment 500 500 true (-1)]
              1000 4 FIRST_FIT (mkStats 3 3 0)) /\
  exists pre cur post,
    heap_segments busy_pool = pre ++ cur :: post /\
    find_suitable_segment (current_strategy busy_pool) (heap_segments busy_pool) 200 =
      Z.of_nat (length pre) /\
    is_available cur = true /\ 200 <= segment_size cur.
Proof.
  assert (Hn : 200 <> 0) by lia.
  assert (Hf : find_suitable_segment (current_strategy busy_pool)
                 (heap_segments busy_pool) 200 <> -1) by (vm_compute; discriminate).
  split; [exact Hn|]. split; [exact Hf|]. split; [reflexivity|].
  destruct (allocate_memory_block_exact_size 200 busy_pool Hn Hf)
    as (pre & cur & post & H1 & H2 & H3 & H4 & _).
  exists pre, cur, post. auto.
Defined.

Lemma first_fit_loop_selects n rest : forall pre,
  Forall (cannot_hold n) pre ->
  selects first_choice (pre ++ rest) n (first_fit_loop (length pre) rest n).
Proof.
  induction rest as [|s rest IH]; intros pre Hpre; simpl.
  - left. rewrite app_nil_r. auto.
  - destruct (can_accommodate s n) eqn:Hfit.
    + right. exists (length pre). split; [reflexivity|].
      exists s. split; [apply list_lookup_middle; reflexivity|].
      split; [exact Hfit|].
      intros j t Hlt Hj.
      rewrite lookup_app_l in Hj by exact Hlt.
      rewrite Forall_forall in Hpre.
      apply (Hpre t). eapply list_elem_of_lookup_2, Hj.
    + replace (pre ++ s :: rest) with ((pre ++ [s]) ++ rest)
        by (rewrite <- app_assoc; reflexivity).
      replace (S (length pre)) with (length (pre ++ [s]))
        by (rewrite length_app; simpl; lia).
      apply IH. apply Forall_app. split; [exact Hpre|].
      apply Forall_cons. split; [exact Hfit | apply Forall_nil_2].
Qed.

(** X2. On every layout and for every request, first fit returns the index
    of the earliest segment that is free and large enough, and [-1] exactly
    when no segment is. *)
Theorem find_suitable_segment_first_fit_selects segs n :
  selects first_choice segs n (find_suitable_segment_first_fit segs n).
Proof. apply (first_fit_loop_selects n segs []). apply Forall_nil_2. Qed.

End Placement.

Section OwnerIds.

Lemma allocated_ids_app l1 l2 :
  allocated_ids (l1 ++ l2) = allocated_ids l1 ++ allocated_ids l2.
Proof.
  induction l1 as [|s l1 IH]; simpl; [reflexivity|].
  destruct (is_available s); simpl; congruence.
Qed.

Lemma allocated_ids_coalesce_from rest : forall cur,
  allocated_ids (coalesce_from cur rest) = allocated_ids (cur :: rest).
Proof.
  induction rest as [|nxt post IH]; intros cur; [reflexivity|].
  simpl coalesce_from.
  destruct (is_available cur) eqn:Hc; destruct (is_available nxt) eqn:Hn; simpl.
  - rewrite IH. simpl. rewrite Hc, Hn. reflexivity.
  - rewrite Hc. rewrite IH. simpl. rewrite Hn. reflexivity.
  - rewrite Hc. rewrite IH. simpl. rewrite Hn. reflexivity.
  - rewrite Hc. rewrite IH. simpl. rewrite Hn. reflexivity.
Qed.

Lemma allocated_ids_coalesce segs :
  allocated_ids (coalesce segs) = allocated_ids segs.
Proof. destruct segs; [reflexivity | apply allocated_ids_coalesce_from]. Qed.

Lemma owner_recorded_coalesce_from next rest : forall cur,
  Forall (owner_recorded next) (cur :: rest) ->
  Forall (owner_recorded next) (coalesce_from cur rest).
Proof.
  induction rest as [|nxt post IH]; intros cur H; [exact H|].
  simpl coalesce_from.
  apply Forall_cons in H as [Hc H]. pose proof H as H'.
  apply Forall_cons in H' as [Hn Hpost].
  destruct (is_available cur && is_available nxt).
  - apply IH. apply Forall_cons. split; [exact Hc | exact Hpost].
  - apply Forall_cons. split; [exact Hc | apply IH, H].
Qed.

Lemma owner_recorded_coalesce next segs :
  Forall (owner_recorded next) segs -> Forall (owner_recorded next) (coalesce segs).
Proof. destruct segs; [trivial | apply owner_recorded_coalesce_from]. Qed.

Lemma owner_recorded_mono next next' s :
  next <= next' -> owner_recorded next s -> owner_recorded next' s.
Proof. unfold owner_recorded. destruct (is_available s); lia. Qed.

Lemma allocated_ids_bound next segs x :
  Forall (owner_recorded next) segs -> x ∈ allocated_ids segs -> 1 <= x < next.
Proof.
  induction segs as [|s segs IH]; simpl; intros H Hx.
  - apply elem_of_nil in Hx. destruct Hx.
  - apply Forall_cons in H as [Hs H].
    unfold owner_recorded in Hs.
    destruct (is_available s); [apply IH; assumption|].
    apply elem_of_cons in Hx as [->|Hx]; [exact Hs | apply IH; assumption].
Qed.

Lemma owned_by_allocated_ids pid segs :
  Exists (owned_by pid) segs <-> pid ∈ allocated_ids segs.
Proof.
  induction segs as [|s segs IH]; simpl.
  - split; [intros H; inversion H | intros H; apply elem_of_nil in H; destruct H].
  - rewrite Exists_cons, IH. unfold owned_by.
    destruct (is_available s); [|rewrite elem_of_cons]; intuition congruence.
Qed.

Lemma NoDup_middle_remove (l1 l2 : list Z) x :
  NoDup (l1 ++ x :: l2) -> NoDup (l1 ++ l2) /\ x ∉ l1 ++ l2.
Proof.
  rewrite !NoDup_app, NoDup_cons. intros (H1 & H12 & Hx & H2).
  split.
  - split; [exact H1|]. split; [|exact H2].
    intros y Hy Hy2. apply (H12 y Hy). apply elem_of_cons. auto.
  - rewrite elem_of_app. intros [Hin|Hin]; [|contradiction].
    apply (H12 x Hin). apply elem_of_cons. auto.
Qed.

Lemma NoDup_middle_insert (l1 l2 : list Z) x :
  NoDup (l1 ++ l2) -> x ∉ l1 ++ l2 -> NoDup (l1 ++ x :: l2).
Proof.
  rewrite !NoDup_app, NoDup_cons, elem_of_app. intros (H1 & H12 & H2) Hx.
  split; [exact H1|]. split; [|split; [tauto | exact H2]].
  intros y Hy Hy2. apply elem_of_cons in Hy2 as [->|Hy2]; [tauto|].
  apply (H12 y Hy Hy2).
Qed.

Lemma placement_owner_ids pre cur post n st :
  is_available cur = true ->
  below_int_max (next_process_identifier st) ->
  heap_segments st = pre ++ cur :: post ->
  owner_ids_consistent st ->
  owner_ids_consistent
    (mkSim (placement pre cur post n (next_process_identifier st))
           (total_memory_capacity st)
           (int_incr (next_process_identifier st))
           (current_strategy st)
           (record_successful_allocation
              (record_allocation_attempt (performance_stats st)))).
Proof.
  intros Hav Hnext Hsegs (H1 & Hall & Hnd).
  unfold owner_ids_consistent. cbn [next_process_identifier heap_segments].
  rewrite (int_incr_small _ Hnext). rewrite Hsegs in Hall, Hnd.
  split; [lia|]. split.
  - apply Forall_app in Hall as [Hpre Hpost].
    apply Forall_cons in Hpost as [_ Hpost].
    unfold placement. apply Forall_app. split.
    + eapply Forall_impl; [exact Hpre|]. intros s. apply owner_recorded_mono. lia.
    + apply Forall_cons. split; [unfold owner_recorded; simpl; lia|].
      apply Forall_app. split.
      * destruct (n <? segment_size cur); [|apply Forall_nil_2].
        apply Forall_cons. split; [reflexivity | apply Forall_nil_2].
      * eapply Forall_impl; [exact Hpost|]. intros s. apply owner_recorded_mono. lia.
  - unfold placement. rewrite allocated_ids_app. simpl.
    rewrite allocated_ids_app.
    replace (allocated_ids (if n <? segment_size cur
               then [mkSegment (size_add (base_address cur) n)
                               (size_sub (segment_size cur) n) true (-1)]
               else [])) with (@nil Z) by (destruct (n <? segment_size cur); reflexivity).
    simpl. rewrite allocated_ids_app in Hnd. simpl in Hnd. rewrite Hav in Hnd.
    apply NoDup_middle_insert; [exact Hnd|].
    intros Hin.
    assert (Hb : 1 <= next_process_identifier st < next_process_identifier st).
    { apply (allocated_ids_bound _ (pre ++ cur :: post)); [exact Hall|].
      rewrite allocated_ids_app. simpl. rewrite Hav. exact Hin. }
    lia.
Qed.

Lemma release_owner_ids pre cur post next :
  Forall (owner_recorded next) (pre ++ cur :: post) ->
  NoDup (allocated_ids (pre ++ cur :: post)) ->
  Forall (owner_recorded next) (coalesce (pre ++ with_owner cur true (-1) :: post)) /\
  NoDup (allocated_ids (coalesce (pre ++ with_owner cur true (-1) :: post))) /\
  (is_available cur = false ->
   process_id cur ∉ allocated_ids (coalesce (pre ++ with_owner cur true (-1) :: post))).
Proof.
  intros Hall Hnd.
  rewrite allocated_ids_coalesce, allocated_ids_app. simpl.
  rewrite allocated_ids_app in Hnd. simpl in Hnd.
  split; [|split].
  - apply owner_recorded_coalesce.
    apply Forall_app in Hall as [Hpre Hpost].
    apply Forall_cons in Hpost as [_ Hpost].
    apply Forall_app. split; [exact Hpre|].
    apply Forall_cons. split; [reflexivity | exact Hpost].
  - destruct (is_available cur); [exact Hnd|].
    apply NoDup_middle_remove in Hnd. apply Hnd.
  - intros Hav. rewrite Hav in Hnd.
    apply NoDup_middle_remove in Hnd. apply Hnd.
Qed.

End OwnerIds.

Section SessionInvariants.

Lemma failed_attempt_session_invariant C k st :
  0 <= k -> k + 1 < INT_MAX ->
  session_invariant C k st -> session_invariant C (k + 1) (failed_attempt st).
Proof.
  intros Hk Hmax (Hpool & Hids & (Hs & Hf & Hsum) & Hatt & Hnext).
  assert (Ha : below_int_max (total_allocation_attempts (performance_stats st)))
    by (unfold below_int_max, INT_MIN in *; lia).
  assert (Hfb : below_int_max (failed_allocations (performance_stats st)))
    by (unfold below_int_max, INT_MIN in *; lia).
  unfold session_invariant.
  rewrite (failed_attempt_counters st Ha Hfb).
  cbn [failed_attempt with_stats heap_segments next_process_identifier
       total_allocation_attempts successful_allocations failed_allocations].
  split; [exact Hpool|]. split; [exact Hids|].
  split; [unfold stats_consistent; simpl; lia|]. split; [lia | exact Hnext].
Qed.

Lemma allocate_memory_block_session_invariant C k n st :
  is_size_t C -> is_size_t n -> 0 <= k -> k + 1 < INT_MAX ->
  session_invariant C k st ->
  session_invariant C (k + 1) (snd (allocate_memory_block n st)).
Proof.
  intros HC Hn Hk Hmax Hinv.
  destruct (Z.eq_dec n 0) as [->|Hn0].
  { rewrite allocate_memory_block_zero. apply failed_attempt_session_invariant; trivial. }
  destruct (Z.eq_dec (find_suitable_segment (current_strategy st) (heap_segments st) n) (-1))
    as [Hnone|Hsome].
  { assert (Hfail : allocate_memory_block n st = (-1, failed_attempt st)).
    { unfold allocate_memory_block.
      destruct (n =? 0); [reflexivity|].
      cbn [with_stats current_strategy heap_segments]. rewrite Hnone. reflexivity. }
    rewrite Hfail. apply failed_attempt_session_invariant; trivial. }
  destruct (find_suitable_segment_found _ _ _ Hsome)
    as (pre & cur & post & Hsegs & Hidx & Hfit).
  pose proof Hfit as Hfit'. apply can_accommodate_true in Hfit' as [Hav Hle].
  pose proof (allocate_memory_block_pool_invariant C n st HC Hn (proj1 Hinv)) as Hpool'.
  rewrite (allocate_memory_block_success n st pre cur post Hn0 Hle Hsegs Hidx) in *.
  destruct Hinv as (Hpool & Hids & (Hs & Hf & Hsum) & Hatt & Hnext).
  assert (Hnb : below_int_max (next_process_identifier st))
    by (unfold below_int_max, INT_MIN in *; lia).
  unfold session_invariant. cbn [snd heap_segments performance_stats
    next_process_identifier] in *.
  split; [exact Hpool'|].
  split; [apply placement_owner_ids; assumption|].
  unfold record_successful_allocation, record_allocation_attempt.
  cbn [total_allocation_attempts successful_allocations failed_allocations].
  rewrite !int_incr_small by (unfold below_int_max, INT_MIN in *; lia).
  unfold stats_consistent. simpl. lia.
Qed.

Lemma deallocate_memory_block_session_invariant C k pid st :
  is_size_t C -> session_invariant C k st ->
  exists found st',
    deallocate_memory_block pid st = Some (found, st') /\
    session_invariant C k st'.
Proof.
  intros HC (Hpool & (H1 & Hall & Hnd) & Hstats & Hatt & Hnext).
  destruct (deallocate_memory_block_pool_invariant C pid st HC Hpool)
    as (found & st' & Hrun & Hpool').
  exists found, st'. split; [exact Hrun|].
  destruct (owner_scan 0 (heap_segments st) pid) as [i|] eqn:Hscan.
  - destruct (owner_scan_Some _ _ _ _ Hscan) as (pre & cur & post & Hsegs & -> & _).
    simpl in Hscan.
    rewrite (deallocate_memory_block_found pid st pre cur post Hsegs Hscan) in Hrun.
    + injection Hrun as <- <-.
      rewrite Hsegs in Hall, Hnd.
      destruct (release_owner_ids pre cur post _ Hall Hnd) as (Hall' & Hnd' & _).
      split; [exact Hpool'|].
      split; [split; [exact H1 | split; assumption]|].
      split; [exact Hstats|]. split; assumption.
    + destruct Hpool as (_ & Ht & _).
      apply (tiles_contiguous _ 0 C); [lia | apply HC | exact Ht].
  - unfold deallocate_memory_block in Hrun. rewrite Hscan in Hrun.
    injection Hrun as <- <-.
    split; [exact Hpool|].
    split; [split; [exact H1 | split; assumption]|].
    split; [exact Hstats|]. split; assumption.
Qed.

Lemma session_keeps_invariant C rs : forall k st,
  is_size_t C -> Forall request_well_typed rs ->
  0 <= k -> k + alloc_requests rs < INT_MAX ->
  session_invariant C k st ->
  exists st', session rs st = Some st' /\
              session_invariant C (k + alloc_requests rs) st'.
Proof.
  induction rs as [|r rs IH]; intros k st HC Hrs Hk Hmax Hinv.
  - exists st. simpl. rewrite Z.add_0_r. auto.
  - apply Forall_cons in Hrs as [Hr Hrs].
    assert (Hcount : 0 <= alloc_requests rs).
    { clear. induction rs as [|[]]; simpl; lia. }
    destruct r as [n|pid|strategy]; simpl in *.
    + destruct (IH (k + 1) (snd (allocate_memory_block n st))) as (st' & Hrun & Hinv');
        trivial; try lia.
      * apply allocate_memory_block_session_invariant; trivial. lia.
      * exists st'. split; [exact Hrun|].
        replace (k + (1 + alloc_requests rs)) with (k + 1 + alloc_requests rs) by lia.
        exact Hinv'.
    + destruct (deallocate_memory_block_session_invariant C k pid st HC Hinv)
        as (found & st1 & -> & Hinv1).
      simpl. apply IH; trivial.
    + apply IH; trivial.
Qed.

Lemma initialize_memory_pool_session_invariant C st :
  is_size_t C -> session_invariant C 0 (initialize_memory_pool C st).
Proof.
  intros HC. split; [apply initialize_memory_pool_invariant, HC|].
  split; [|repeat split; simpl; lia].
  split; [simpl; lia|]. split; [|apply NoDup_nil_2].
  apply Forall_cons. split; [reflexivity | apply Forall_nil_2].
Qed.

(** X3. In a session on an initialised pool with fewer than [INT_MAX]
    allocation requests, the attempt counter equals the number of
    allocation requests made, every attempt is counted as exactly one
    success or one failure, and the next process identifier is one more
    than the number of successes: deallocations and strategy changes touch
    no counter. *)
Theorem session_statistics C st0 rs :
  is_size_t C -> Forall request_well_typed rs ->
  alloc_requests rs < INT_MAX ->
  exists st,
    session rs (initialize_memory_pool C st0) = Some st /\
    total_allocation_attempts (performance_stats st) = alloc_requests rs /\
    total_allocation_attempts (performance_stats st) =
      successful_allocations (performance_stats st) +
      failed_allocations (performance_stats st) /\
    0 <= successful_allocations (performance_stats st) /\
    0 <= failed_allocations (performance_stats st) /\
    next_process_identifier st = 1 + successful_allocations (performance_stats st).
Proof.
  intros HC Hrs Hmax.
  destruct (session_keeps_invariant C rs 0 (initialize_memory_pool C st0))
    as (st & Hrun & _ & _ & (Hs & Hf & Hsum) & Hatt & Hnext); trivial; try lia.
  - apply initialize_memory_pool_session_invariant, HC.
  - exists st. simpl in Hatt. auto 10.
Qed.

Lemma session_statistics_witness :
  is_size_t 1000 /\ Forall request_well_typed scenario_requests /\
  alloc_requests scenario_requests < INT_MAX /\
  exists st,
    session scenario_requests (initialize_memory_pool 1000 new_simulator) = Some st /\
    total_allocation_attempts (performance_stats st) = 3 /\
    next_process_identifier st = 1 + successful_allocations (performance_stats st).
Proof.
  assert (H1 : is_size_t 1000) by (unfold is_size_t, SIZE_MAX; lia).
  assert (H2 : Forall request_well_typed scenario_requests).
  { unfold scenario_requests.
    repeat (apply Forall_cons; split); try apply Forall_nil; simpl;
      unfold is_size_t, is_int, SIZE_MAX, INT_MIN, INT_MAX; lia. }
  assert (H3 : alloc_requests scenario_requests < INT_MAX)
    by (unfold INT_MAX; simpl; lia).
  split; [exact H1|]. split; [exact H2|]. split; [exact H3|].
  destruct (session_statistics 1000 new_simulator scenario_requests H1 H2 H3)
    as (st & Hrun & Hatt & _ & _ & _ & Hnext).
  exists st. auto.
Defined.

(** X4. In every state such a session reaches, a free segment carries the
    owner id [-1], an allocated segment carries an id between 1 and the next
    process identifier, and no two allocated segments carry the same id:
    ids are handed out fresh and never reused. *)
Theorem session_owner_ids C st0 rs st :
  is_size_t C -> Forall request_well_typed rs ->
  alloc_requests rs < INT_MAX ->
  session rs (initialize_memory_pool C st0) = Some st ->
  1 <= next_process_identifier st /\
  Forall (owner_recorded (next_process_identifier st)) (heap_segments st) /\
  NoDup (allocated_ids (heap_segments st)).
Proof.
  intros HC Hrs Hmax Hrun.
  destruct (session_keeps_invariant C rs 0 (initialize_memory_pool C st0))
    as (st' & Hrun' & _ & Hids & _); trivial; try lia.
  - apply initialize_memory_pool_session_invariant, HC.
  - assert (st' = st) as -> by congruence. exact Hids.
Qed.

Lemma session_owner_ids_witness :
  is_size_t 1000 /\ Forall request_well_typed scenario_requests /\
  alloc_requests scenario_requests < INT_MAX /\
  session scenario_requests (initialize_memory_pool 1000 new_simulator) =
    Some (mkSim [mkSegment 0 50 false 3; mkSegment 50 950 true (-1)]
                1000 4 BEST_FIT (mkStats 3 3 0)) /\
  NoDup (allocated_ids [mkSegment 0 50 false 3; mkSegment 50 950 true (-1)]).
Proof.
  assert (H1 : is_size_t 1000) by (unfold is_size_t, SIZE_MAX; lia).
  assert (H2 : Forall request_well_typed scenario_requests).
  { unfold scenario_requests.
    repeat (apply Forall_cons; split); try apply Forall_nil; simpl;
      unfold is_size_t, is_int, SIZE_MAX, INT_MIN, INT_MAX; lia. }
  assert (H3 : alloc_requests scenario_requests < INT_MAX)
    by (unfold INT_MAX; simpl; lia).
  assert (H4 : session scenario_requests (initialize_memory_pool 1000 new_simulator) =
    Some (mkSim [mkSegment 0 50 false 3; mkSegment 50 950 true (-1)]
                1000 4 BEST_FIT (mkStats 3 3 0))) by reflexivity.
  split; [exact H1|]. split; [exact H2|]. split; [exact H3|]. split; [exact H4|].
  exact (proj2 (proj2 (session_owner_ids 1000 new_simulator scenario_requests _
                         H1 H2 H3 H4))).
Defined.

End SessionInvariants.

Section RoundTrip.

Lemma no_adjacent_free_last_same pre x y :
  no_adjacent_free (pre ++ [x]) -> is_available y = is_available x ->
  no_adjacent_free (pre ++ [y]).
Proof.
  intros H Hy. induction pre as [|p pre IH]; [simpl; tauto|].
  destruct H as [Hhd Htl]. split; [|apply IH, Htl].
  destruct pre as [|q pre]; simpl in *; [|exact Hhd].
  unfold not_both_free in *. rewrite Hy. exact Hhd.
Qed.

(** A list without two free neighbours is a fixed point of the pass. *)
Lemma coalesce_from_fixed rest : forall cur,
  no_adjacent_free (cur :: rest) -> coalesce_from cur rest = cur :: rest.
Proof.
  induction rest as [|nxt post IH]; intros cur H; [reflexivity|].
  destruct H as [Hhd Htl]. simpl. unfold not_both_free in Hhd. rewrite Hhd.
  f_equal. apply IH, Htl.
Qed.

Lemma coalesce_from_skip x tail pre : forall p,
  no_adjacent_free ((p :: pre) ++ [x]) ->
  coalesce_from p (pre ++ x :: tail) = (p :: pre) ++ coalesce_from x tail.
Proof.
  induction pre as [|q pre IH]; intros p [Hhd Htl]; simpl in *.
  - unfold not_both_free in Hhd. rewrite Hhd. reflexivity.
  - unfold not_both_free in Hhd. rewrite Hhd. f_equal. apply IH, Htl.
Qed.

Lemma coalesce_skip pre x tail :
  no_adjacent_free (pre ++ [x]) ->
  coalesce (pre ++ x :: tail) = pre ++ coalesce_from x tail.
Proof.
  destruct pre as [|p pre]; [reflexivity|]. apply coalesce_from_skip.
Qed.

Lemma owner_scan_first pre cur post pid : forall k : nat,
  Forall (fun s => ~ owned_by pid s) pre -> owned_by pid cur ->
  owner_scan k (pre ++ cur :: post) pid = Some (k + length pre)%nat.
Proof.
  induction pre as [|p pre IH]; intros k Hpre [Hav Hpid]; simpl.
  - rewrite Hav, Hpid, Z.eqb_refl. simpl. f_equal. lia.
  - apply Forall_cons in Hpre as [Hp Hpre].
    destruct (negb (is_available p) && (process_id p =? pid)) eqn:E.
    + apply andb_true_iff in E as [E1 E2].
      apply negb_true_iff in E1. apply Z.eqb_eq in E2.
      destruct Hp. split; assumption.
    + rewrite IH by (trivial; split; assumption). f_equal. lia.
Qed.

Lemma not_owned_by_next next segs :
  Forall (owner_recorded next) segs -> Forall (fun s => ~ owned_by next s) segs.
Proof.
  intros H. eapply Forall_impl; [exact H|].
  intros s Hs [Hav Hpid]. unfold owner_recorded in Hs. rewrite Hav in Hs. lia.
Qed.

(** X5. Allocating [n] bytes and at once deallocating the returned id
    restores the segment list, on every state that meets the allocator's
    invariants and has a segment for the request: the split is undone by
    the coalescing pass and nothing else is merged. *)
Theorem allocate_then_deallocate C n st :
  is_size_t C -> 0 < n ->
  pool_invariant C (heap_segments st) ->
  owner_ids_consistent st ->
  find_suitable_segment (current_strategy st) (heap_segments st) n <> -1 ->
  exists st1 st2,
    allocate_memory_block n st = (next_process_identifier st, st1) /\
    deallocate_memory_block (next_process_identifier st) st1 = Some (true, st2) /\
    heap_segments st2 = heap_segments st /\
    total_memory_capacity st2 = total_memory_capacity st /\
    current_strategy st2 = current_strategy st.
Proof.
  intros HC Hn Hpool (Hnext & Hall & Hnd) Hsome.
  destruct (find_suitable_segment_found _ _ _ Hsome)
    as (pre & cur & post & Hsegs & Hidx & Hfit).
  apply can_accommodate_true in Hfit as [Hav Hle].
  assert (Hn0 : n <> 0) by lia.
  assert (Hnsize : is_size_t n).
  { destruct Hpool as (_ & Ht & _). rewrite Hsegs in Ht.
    apply tiles_app in Ht as (m & Hpre & Hcur). simpl in Hcur.
    destruct Hcur as (Hb & Hs & Hpost).
    apply tiles_le in Hpre. apply tiles_le in Hpost.
    destruct HC. unfold is_size_t. lia. }
  pose proof (allocate_memory_block_pool_invariant C n st HC Hnsize Hpool) as Hpool1.
  rewrite (allocate_memory_block_success n st pre cur post Hn0 Hle Hsegs Hidx) in Hpool1.
  cbn [snd heap_segments] in Hpool1.
  eexists _, _. split; [apply (allocate_memory_block_success n st pre cur post); assumption|].
  rewrite Hsegs in Hall.
  pose proof Hall as Hall'. apply Forall_app in Hall' as [Hallpre Hallpost].
  apply Forall_cons in Hallpost as [Hcurid _].
  unfold owner_recorded in Hcurid. rewrite Hav in Hcurid.
  set (tail := (if n <? segment_size cur
                then [mkSegment (size_add (base_address cur) n)
                                (size_sub (segment_size cur) n) true (-1)]
                else []) ++ post) in *.
  assert (Hscan : owner_scan 0 (placement pre cur post n (next_process_identifier st))
                    (next_process_identifier st) = Some (length pre)).
  { unfold placement. apply (owner_scan_first pre _ _ _ 0%nat).
    - apply not_owned_by_next, Hallpre.
    - split; reflexivity. }
  rewrite (deallocate_memory_block_found _ _ pre
             (mkSegment (base_address cur) n false (next_process_identifier st)) tail);
    [|reflexivity|exact Hscan|].
  2:{ destruct Hpool1 as (_ & Ht & _).
      apply (tiles_contiguous _ 0 C); [lia | apply HC | exact Ht]. }
  split; [reflexivity|]. cbn [heap_segments total_memory_capacity current_strategy].
  split; [|split; reflexivity].
  destruct Hpool as (_ & Ht & Hfree & _). rewrite Hsegs in Ht, Hfree |- *.
  apply adjacent_pairs_app_cons in Hfree as [Hfpre Hfpost].
  rewrite coalesce_skip
    by (eapply no_adjacent_free_last_same; [exact Hfpre | simpl; congruence]).
  f_equal.
  apply tiles_app in Ht as (m & Hpre & Hcur). simpl in Hcur.
  destruct Hcur as (Hb & Hs & Hpost).
  apply tiles_le in Hpre. apply tiles_le in Hpost. destruct HC as [HC0 HC].
  assert (Hcur : cur = mkSegment (base_address cur) (segment_size cur) true (-1)).
  { destruct cur; simpl in *. congruence. }
  unfold tail, with_owner. cbn [base_address segment_size].
  destruct (n <? segment_size cur) eqn:E.
  - apply Z.ltb_lt in E. simpl.
    unfold with_size, size_add, size_sub. cbn [base_address segment_size is_available process_id].
    rewrite (size_wrap_small (segment_size cur - n)) by (unfold is_size_t; lia).
    replace (n + (segment_size cur - n)) with (segment_size cur) by lia.
    rewrite size_wrap_small by (unfold is_size_t; lia).
    rewrite <- Hcur. apply coalesce_from_fixed, Hfpost.
  - apply Z.ltb_ge in E. simpl.
    replace n with (segment_size cur) by lia.
    rewrite <- Hcur. apply coalesce_from_fixed, Hfpost.
Qed.

End RoundTrip.

Section RoundTripWitness.

Lemma busy_pool_invariant : pool_invariant 1000 (heap_segments busy_pool).
Proof.
  split; [discriminate|]. split; [simpl; lia|].
  split; [repeat split; reflexivity|].
  intros _. repeat (apply Forall_cons; split); try apply Forall_nil_2; simpl; lia.
Qed.

Lemma busy_pool_owner_ids : owner_ids_consistent busy_pool.
Proof.
  split; [simpl; lia|]. split.
  - repeat (apply Forall_cons; split); try apply Forall_nil_2;
      unfold owner_recorded; simpl; lia.
  - simpl. repeat (apply NoDup_cons; split); try apply NoDup_nil_2;
      rewrite ?elem_of_cons, ?elem_of_nil; lia.
Qed.

Lemma allocate_then_deallocate_witness :
  is_size_t 1000 /\ 0 < 200 /\
  pool_invariant 1000 (heap_segments busy_pool) /\
  owner_ids_consistent busy_pool /\
  find_suitable_segment (current_strategy busy_pool) (heap_segments busy_pool) 200 <> -1 /\
  exists st1 st2,
    allocate_memory_block 200 busy_pool = (3, st1) /\
    deallocate_memory_block 3 st1 = Some (true, st2) /\
    heap_segments st2 = heap_segments busy_pool.
Proof.
  assert (H1 : is_size_t 1000) by (unfold is_size_t, SIZE_MAX; lia).
  assert (H2 : 0 < 200) by lia.
  assert (H5 : find_suitable_segment (current_strategy busy_pool)
                 (heap_segments busy_pool) 200 <> -1) by (vm_compute; discriminate).
  split; [exact H1|]. split; [exact H2|].
  split; [exact busy_pool_invariant|]. split; [exact busy_pool_owner_ids|].
  split; [exact H5|].
  destruct (allocate_then_deallocate 1000 200 busy_pool H1 H2
              busy_pool_invariant busy_pool_owner_ids H5)
    as (st1 & st2 & Ha & Hd & Hs & _).
  exists st1, st2. auto.
Defined.

End RoundTripWitness.

Section DoubleFree.

Lemma not_allocated_not_owned pid segs :
  pid ∉ allocated_ids segs -> Forall (fun s => ~ owned_by pid s) segs.
Proof.
  intros Hnot. apply Forall_forall. intros s Hs Hown.
  apply Hnot, owned_by_allocated_ids, Exists_exists. eauto.
Qed.

(** X6. When the allocated segments carry distinct ids, a deallocation that
    succeeds leaves no segment owned by that id, so deallocating the same id
    again reports not-found and changes nothing. *)
Theorem deallocate_twice pid st st' :
  contiguous (heap_segments st) ->
  NoDup (allocated_ids (heap_segments st)) ->
  deallocate_memory_block pid st = Some (true, st') ->
  Forall (fun s => ~ owned_by pid s) (heap_segments st') /\
  deallocate_memory_block pid st' = Some (false, st').
Proof.
  intros Hc Hnd Hrun.
  assert (Hnone : Forall (fun s => ~ owned_by pid s) (heap_segments st')).
  { destruct (owner_scan 0 (heap_segments st) pid) as [i|] eqn:Hscan.
    - destruct (owner_scan_Some _ _ _ _ Hscan)
        as (pre & cur & post & Hsegs & -> & Hav & Hpid).
      simpl in Hscan.
      rewrite (deallocate_memory_block_found pid st pre cur post Hsegs Hscan Hc) in Hrun.
      injection Hrun as <-. cbn [heap_segments].
      apply not_allocated_not_owned.
      rewrite allocated_ids_coalesce, allocated_ids_app. simpl.
      rewrite Hsegs, allocated_ids_app in Hnd. simpl in Hnd.
      rewrite Hav, Hpid in Hnd.
      apply NoDup_middle_remove in Hnd. apply Hnd.
    - unfold deallocate_memory_block in Hrun. rewrite Hscan in Hrun. discriminate. }
  split; [exact Hnone | apply deallocate_memory_block_not_found, Hnone].
Qed.

Lemma deallocate_twice_witness :
  contiguous (heap_segments busy_pool) /\
  NoDup (allocated_ids (heap_segments busy_pool)) /\
  exists st',
    deallocate_memory_block 1 busy_pool = Some (true, st') /\
    deallocate_memory_block 1 st' = Some (false, st').
Proof.
  assert (Hc : contiguous (heap_segments busy_pool)) by (repeat split; reflexivity).
  assert (Hnd : NoDup (allocated_ids (heap_segments busy_pool))).
  { simpl. repeat (apply NoDup_cons; split); try apply NoDup_nil_2;
      rewrite ?elem_of_cons, ?elem_of_nil; lia. }
  split; [exact Hc|]. split; [exact Hnd|].
  eexists. split; [reflexivity|].
  exact (proj2 (deallocate_twice 1 busy_pool _ Hc Hnd eq_refl)).
Defined.

End DoubleFree.

Section Fragmentation.

Lemma bytes_total_size segs :
  free_bytes segs + allocated_bytes segs = total_size segs.
Proof.
  induction segs as [|s rest IH]; simpl; [reflexivity|].
  destruct (is_available s); lia.
Qed.

Lemma bytes_nonneg segs a b :
  tiles a segs b ->
  0 <= free_bytes segs /\ 0 <= allocated_bytes segs /\
  0 <= largest_free segs <= free_bytes segs.
Proof.
  revert a. induction segs as [|s rest IH]; simpl; intros a Ht; [lia|].
  destruct Ht as (_ & Hs & Hrest). specialize (IH _ Hrest).
  destruct (is_available s); lia.
Qed.

Lemma tally_segments_exact rest : forall a b free allocated largest,
  tiles a rest b ->
  0 <= free -> 0 <= allocated -> 0 <= largest ->
  free + allocated + (b - a) <= SIZE_MAX ->
  tally_segments rest free allocated largest =
    (free + free_bytes rest, allocated + allocated_bytes rest,
     Z.max largest (largest_free rest)).
Proof.
  induction rest as [|s rest IH]; simpl;
    intros a b free allocated largest Ht Hf Ha Hl Hmax.
  - rewrite !Z.add_0_r. f_equal. lia.
  - destruct Ht as (Hb & Hs & Hrest).
    pose proof (tiles_le _ _ _ Hrest) as Hle.
    destruct (is_available s).
    + unfold size_add. rewrite size_wrap_small by (unfold is_size_t; lia).
      rewrite (IH _ _ _ _ _ Hrest) by lia.
      f_equal; [f_equal; lia | lia].
    + unfold size_add. rewrite size_wrap_small by (unfold is_size_t; lia).
      rewrite (IH _ _ _ _ _ Hrest) by lia.
      f_equal. f_equal; lia.
Qed.

(** X7. On a state that meets the pool invariant the totals of the
    fragmentation analysis are exact: the free and the allocated total are
    the sums of the free and of the allocated segment sizes, without
    wrap-around, they add up to the capacity, and the largest free block is
    the maximum of the free sizes, at most the free total. *)
Theorem fragmentation_totals st :
  is_size_t (total_memory_capacity st) ->
  pool_invariant (total_memory_capacity st) (heap_segments st) ->
  total_free_space (fragmentation_analysis st) = free_bytes (heap_segments st) /\
  total_allocated_space (fragmentation_analysis st) =
    allocated_bytes (heap_segments st) /\
  largest_free_block (fragmentation_analysis st) = largest_free (heap_segments st) /\
  total_free_space (fragmentation_analysis st) +
    total_allocated_space (fragmentation_analysis st) = total_memory_capacity st /\
  0 <= largest_free_block (fragmentation_analysis st)
    <= total_free_space (fragmentation_analysis st).
Proof.
  intros [HC0 HC] (_ & Ht & _).
  unfold fragmentation_analysis.
  rewrite (tally_segments_exact _ 0 (total_memory_capacity st) 0 0 0 Ht) by lia.
  cbn [total_free_space total_allocated_space largest_free_block].
  pose proof (bytes_nonneg _ _ _ Ht) as (Hf & Ha & Hl).
  pose proof (bytes_total_size (heap_segments st)) as Hsum.
  rewrite (tiles_total_size _ _ _ Ht) in Hsum.
  repeat split; lia.
Qed.

Lemma fragmentation_totals_witness :
  is_size_t (total_memory_capacity busy_pool) /\
  pool_invariant (total_memory_capacity busy_pool) (heap_segments busy_pool) /\
  total_free_space (fragmentation_analysis busy_pool) = 700 /\
  total_allocated_space (fragmentation_analysis busy_pool) = 300 /\
  total_free_space (fragmentation_analysis busy_pool) +
    total_allocated_space (fragmentation_analysis busy_pool) =
    total_memory_capacity busy_pool.
Proof.
  assert (H1 : is_size_t (total_memory_capacity busy_pool))
    by (unfold is_size_t, SIZE_MAX; simpl; lia).
  split; [exact H1|]. split; [exact busy_pool_invariant|].
  split; [reflexivity|]. split; [reflexivity|].
  exact (proj1 (proj2 (proj2 (proj2
           (fragmentation_totals busy_pool H1 busy_pool_invariant))))).
Defined.

End Fragmentation.

Section StrategyWitnesses.

Lemma find_suitable_segment_best_fit_selects_witness :
  Forall (fun s => can_accommodate s 50 = true -> segment_size s < SIZE_MAX)
         two_free_neighbours /\
  find_suitable_segment_best_fit two_free_neighbours 50 = 1 /\
  selects best_choice two_free_neighbours 50
          (find_suitable_segment_best_fit two_free_neighbours 50).
Proof.
  assert (H : Forall (fun s => can_accommodate s 50 = true -> segment_size s < SIZE_MAX)
                     two_free_neighbours).
  { unfold two_free_neighbours.
    repeat (apply Forall_cons; split); try apply Forall_nil_2;
      intros _; unfold SIZE_MAX; simpl; lia. }
  split; [exact H|]. split; [reflexivity|].
  apply (find_suitable_segment_best_fit_selects 50 two_free_neighbours H).
Defined.

Lemma find_suitable_segment_worst_fit_selects_witness :
  0 < 50 /\
  find_suitable_segment_worst_fit two_free_neighbours 50 = 3 /\
  selects worst_choice two_free_neighbours 50
          (find_suitable_segment_worst_fit two_free_neighbours 50).
Proof.
  assert (H : 0 < 50) by lia.
  split; [exact H|]. split; [reflexivity|].
  apply (find_suitable_segment_worst_fit_selects 50 two_free_neighbours H).
Defined.

Lemma selects_none_iff choice segs n r :
  selects choice segs n r ->
  (forall k, choice segs n k ->
     exists s, segs !! k = Some s /\ can_accommodate s n = true) ->
  (r = -1 <-> Forall (cannot_hold n) segs).
Proof.
  intros [[-> Hnone]|(k & -> & Hch)] Hfit.
  - tauto.
  - split; [lia|]. intros Hnone.
    destruct (Hfit k Hch) as (s & Hs & Hf).
    destruct (cannot_hold_lookup n segs k s Hnone Hs Hf).
Qed.

Lemma find_suitable_segment_none_iff strategy segs n :
  0 < n ->
  Forall (fun s => can_accommodate s n = true -> segment_size s < SIZE_MAX) segs ->
  (find_suitable_segment strategy segs n = -1 <-> Forall (cannot_hold n) segs).
Proof.
  intros Hn Hsz. destruct strategy; simpl.
  - apply (selects_none_iff first_choice).
    + apply (first_fit_loop_selects n segs []), Forall_nil_2.
    + intros k (s & Hs & Hf & _). eauto.
  - apply (selects_none_iff best_choice).
    + apply (best_fit_loop_selects n segs [] (-1) SIZE_MAX Hsz).
      left. split; [reflexivity|]. split; [reflexivity | apply Forall_nil_2].
    + intros k (s & Hs & Hf & _). eauto.
  - apply (selects_none_iff worst_choice).
    + apply (worst_fit_loop_selects n segs [] (-1) 0 Hn).
      left. split; [reflexivity|]. split; [reflexivity | apply Forall_nil_2].
    + intros k (s & Hs & Hf & _). eauto.
Qed.

(** X10. Whatever the strategy, a non-zero request fails exactly when no
    segment is free and large enough (on layouts in which no segment that
    fits has size [SIZE_MAX], and with a next process identifier other than
    [-1]): exhaustion is the only cause of failure, and the three strategies
    agree on whether a request can be served. *)
Theorem allocation_fails_iff_exhausted n st :
  0 < n ->
  Forall (fun s => can_accommodate s n = true -> segment_size s < SIZE_MAX)
         (heap_segments st) ->
  next_process_identifier st <> -1 ->
  (fst (allocate_memory_block n st) = -1 <->
   Forall (cannot_hold n) (heap_segments st)).
Proof.
  intros Hn Hsz Hnext.
  rewrite <- (find_suitable_segment_none_iff (current_strategy st) _ _ Hn Hsz).
  split.
  - intros Hfail.
    destruct (Z.eq_dec (find_suitable_segment (current_strategy st)
                          (heap_segments st) n) (-1)) as [H|H]; [exact H|].
    destruct (find_suitable_segment_found _ _ _ H)
      as (pre & cur & post & Hsegs & Hidx & Hfit).
    apply can_accommodate_true in Hfit as [_ Hle].
    rewrite (allocate_memory_block_success n st pre cur post) in Hfail;
      trivial; [|lia].
    simpl in Hfail. contradiction.
  - intros Hnone. unfold allocate_memory_block.
    destruct (n =? 0); [reflexivity|].
    cbn [with_stats current_strategy heap_segments]. rewrite Hnone. reflexivity.
Qed.

Lemma allocation_fails_iff_exhausted_witness :
  0 < 800 /\
  Forall (fun s => can_accommodate s 800 = true -> segment_size s < SIZE_MAX)
         (heap_segments busy_pool) /\
  next_process_identifier busy_pool <> -1 /\
  fst (allocate_memory_block 800 busy_pool) = -1 /\
  Forall (cannot_hold 800) (heap_segments busy_pool).
Proof.
  assert (H1 : 0 < 800) by lia.
  assert (H2 : Forall (fun s => can_accommodate s 800 = true -> segment_size s < SIZE_MAX)
                      (heap_segments busy_pool)).
  { simpl. repeat (apply Forall_cons; split); try apply Forall_nil_2;
      intros _; unfold SIZE_MAX; simpl; lia. }
  assert (H3 : next_process_identifier busy_pool <> -1) by (simpl; lia).
  split; [exact H1|]. split; [exact H2|]. split; [exact H3|].
  split; [reflexivity|].
  apply (proj1 (allocation_fails_iff_exhausted 800 busy_pool H1 H2 H3)).
  reflexivity.
Defined.

End StrategyWitnesses.

(** ** Further properties of the cache level *)

Section CacheConstruction.



End CacheConstruction.

Section CacheAccess.

Lemma block_at_load block_index new_tag memory_address c :
  (Z.to_nat block_index < length (cache_blocks c))%nat ->
  block_at (load_block block_index new_tag memory_address c) block_index =
  mkBlock true new_tag memory_address.
Proof.
  intros Hlt. unfold block_at, load_block. cbn [cache_blocks].
  rewrite list_lookup_insert_eq by exact Hlt. reflexivity.
Qed.

Lemma evict_oldest_block_length c :
  length (cache_blocks (evict_oldest_block c)) = length (cache_blocks c).
Proof.
  unfold evict_oldest_block. destruct (fifo_queue c); [reflexivity|].
  cbn [cache_blocks]. apply length_alter.
Qed.

Lemma access_memory_cases memory_address c :
  let block_index := calculate_block_index c memory_address in
  let new_tag := extract_tag c memory_address in
  (valid (block_at c block_index) && (tag (block_at c block_index) =? new_tag) = true /\
   access_memory memory_address c =
     (true, with_metrics c (record_hit (performance_metrics c)))) \/
  (valid (block_at c block_index) && (tag (block_at c block_index) =? new_tag) = false /\
   access_memory memory_address c =
     (false, load_block block_index new_tag memory_address
                        (after_eviction c block_index))).
Proof.
  cbv zeta. unfold access_memory, after_eviction.
  destruct (_ && _); [left | right]; split; reflexivity.
Qed.

Lemma after_eviction_geometry c block_index :
  block_size_bytes (after_eviction c block_index) = block_size_bytes c /\
  number_of_blocks (after_eviction c block_index) = number_of_blocks c /\
  cache_size_bytes (after_eviction c block_index) = cache_size_bytes c /\
  length (cache_blocks (after_eviction c block_index)) = length (cache_blocks c).
Proof.
  unfold after_eviction. destruct (valid _); [|auto].
  unfold evict_oldest_block. cbn [fifo_queue with_metrics].
  destruct (fifo_queue c); cbn; [auto|]. rewrite length_alter. auto.
Qed.

(** X12. On a cache level as the constructor makes it, the access that
    follows an access to the same address is a hit, whether the first was a
    hit or a miss, and it changes nothing but the counters. *)
Theorem access_memory_again_hits memory_address c :
  well_formed_cache c ->
  let c1 := snd (access_memory memory_address c) in
  access_memory memory_address c1 =
    (true, with_metrics c1 (record_hit (performance_metrics c1))).
Proof.
  intros Hwf. cbv zeta.
  destruct (calculate_block_index_in_range c memory_address Hwf) as [_ Hlt].
  destruct (access_memory_cases memory_address c) as [[Hhit ->]|[Hhit ->]];
    cbn [snd].
  - unfold access_memory.
    change (calculate_block_index (with_metrics c _) memory_address)
      with (calculate_block_index c memory_address).
    change (extract_tag (with_metrics c _) memory_address)
      with (extract_tag c memory_address).
    change (block_at (with_metrics c (record_hit (performance_metrics c)))
                     (calculate_block_index c memory_address))
      with (block_at c (calculate_block_index c memory_address)).
    rewrite Hhit. reflexivity.
  - destruct (after_eviction_geometry c (calculate_block_index c memory_address))
      as (Hbs & Hnb & _ & Hlen).
    set (c2 := after_eviction c (calculate_block_index c memory_address)) in *.
    unfold access_memory.
    assert (Hidx : calculate_block_index
                     (load_block (calculate_block_index c memory_address)
                                 (extract_tag c memory_address) memory_address c2)
                     memory_address = calculate_block_index c memory_address).
    { unfold calculate_block_index, load_block. cbn. rewrite Hbs, Hnb. reflexivity. }
    assert (Htag : extract_tag
                     (load_block (calculate_block_index c memory_address)
                                 (extract_tag c memory_address) memory_address c2)
                     memory_address = extract_tag c memory_address).
    { unfold extract_tag, load_block. cbn. rewrite Hbs, Hnb. reflexivity. }
    rewrite Hidx, Htag, block_at_load by (rewrite Hlen; exact Hlt).
    cbn [valid tag]. rewrite Z.eqb_refl. reflexivity.
Qed.

Lemma access_memory_again_hits_witness :
  exists c, new_CacheLevel 64 16 = Some c /\ well_formed_cache c /\
    fst (access_memory 80 c) = false /\
    fst (access_memory 80 (snd (access_memory 80 c))) = true.
Proof.
  eexists. split; [reflexivity|].
  assert (Hwf : well_formed_cache
                  (mkCache (replicate (Z.to_nat (64 / 16)) new_block) [] 64 16 (64 / 16)
                           new_metrics))
    by (vm_compute; repeat split; reflexivity).
  split; [exact Hwf|]. split; [reflexivity|].
  rewrite (access_memory_again_hits 80 _ Hwf). reflexivity.
Defined.

Lemma block_at_flush c i : block_at (flush_cache c) i = mkBlock false 0 0.
Proof.
  unfold block_at, flush_cache. cbn [cache_blocks].
  rewrite list_lookup_fmap. destruct (cache_blocks c !! Z.to_nat i); reflexivity.
Qed.

(** X13. After a flush the next access to any address is a miss that evicts
    nothing: it records one miss, loads the addressed block and leaves its
    index as the only entry of the FIFO list. *)
Theorem access_after_flush_misses memory_address c :
  access_memory memory_address (flush_cache c) =
    (false,
     load_block (calculate_block_index c memory_address)
                (extract_tag c memory_address) memory_address
                (with_metrics (flush_cache c)
                              (record_miss (performance_metrics c)))) /\
  fifo_queue (snd (access_memory memory_address (flush_cache c))) =
    [calculate_block_index c memory_address].
Proof.
  unfold access_memory.
  change (calculate_block_index (flush_cache c) memory_address)
    with (calculate_block_index c memory_address).
  change (extract_tag (flush_cache c) memory_address)
    with (extract_tag c memory_address).
  rewrite block_at_flush. cbn [valid andb].
  change (block_at (with_metrics (flush_cache c)
                      (record_miss (performance_metrics (flush_cache c))))
                   (calculate_block_index c memory_address))
    with (block_at (flush_cache c) (calculate_block_index c memory_address)).
  rewrite block_at_flush. cbn [valid]. split; reflexivity.
Qed.

End CacheAccess.

Section CacheInvariant.

Lemma valid_count_nonneg blocks : 0 <= valid_count blocks.
Proof. induction blocks as [|b rest IH]; simpl; [lia | destruct (valid b); lia]. Qed.

Lemma valid_count_replicate (k : nat) : valid_count (replicate k new_block) = 0.
Proof. induction k as [|k IH]; simpl; [reflexivity | exact IH]. Qed.

Lemma valid_count_invalidated blocks : valid_count (map invalidate blocks) = 0.
Proof. induction blocks as [|b rest IH]; simpl; [reflexivity | exact IH]. Qed.

Lemma valid_count_alter_invalidate blocks : forall i : nat,
  valid_count (alter invalidate i blocks) =
  valid_count blocks - valid_bit (default new_block (blocks !! i)).
Proof.
  induction blocks as [|b rest IH]; intros [|i]; cbn; try reflexivity.
  - unfold valid_bit. destruct (valid b); lia.
  - change (list_alter invalidate i rest) with (alter invalidate i rest).
    rewrite IH. apply Z.add_sub_assoc.
Qed.

Lemma valid_count_insert blocks b : forall i : nat,
  (i < length blocks)%nat ->
  valid_count (<[i := b]> blocks) =
  valid_count blocks - valid_bit (default new_block (blocks !! i)) + valid_bit b.
Proof.
  induction blocks as [|x rest IH]; intros [|i] Hlt; cbn in *; try lia.
  - unfold valid_bit. destruct (valid x), (valid b); lia.
  - change (list_insert i b rest) with (<[i := b]> rest).
    rewrite IH by lia. rewrite Z.add_assoc, Z.add_sub_assoc.
    reflexivity.
Qed.

Lemma valid_count_lookup blocks (i : nat) :
  valid_bit (default new_block (blocks !! i)) <= valid_count blocks.
Proof.
  revert i. induction blocks as [|x rest IH]; intros [|i]; cbn.
  - reflexivity.
  - reflexivity.
  - pose proof (valid_count_nonneg rest). unfold valid_bit. destruct (valid x); lia.
  - etransitivity; [apply (IH i)|]. destruct (valid x); lia.
Qed.

Lemma new_CacheLevel_invariant cache_size block_size c :
  0 <= cache_size -> 0 <= block_size ->
  new_CacheLevel cache_size block_size = Some c -> cache_invariant c.
Proof.
  intros Hc Hb Hnew.
  split; [apply (new_CacheLevel_well_formed cache_size block_size c Hc Hb Hnew)|].
  unfold new_CacheLevel in Hnew.
  destruct (block_size =? 0); [discriminate|].
  destruct (cache_size / block_size =? 0); [discriminate|].
  injection Hnew as <-. cbn [fifo_queue cache_blocks].
  split; [apply Forall_nil_2|]. rewrite valid_count_replicate. simpl. lia.
Qed.

Lemma flush_cache_invariant c : cache_invariant c -> cache_invariant (flush_cache c).
Proof.
  intros ((Hb & Hn & Hlen) & _ & _).
  split; [|split].
  - unfold well_formed_cache, flush_cache.
    cbn [block_size_bytes number_of_blocks cache_blocks].
    rewrite length_map. auto.
  - apply Forall_nil_2.
  - cbn [flush_cache cache_blocks fifo_queue].
    rewrite valid_count_invalidated. simpl. lia.
Qed.

Lemma access_memory_invariant memory_address c :
  cache_invariant c -> cache_invariant (snd (access_memory memory_address c)).
Proof.
  intros (Hwf & Hq & Hcount).
  split; [apply access_memory_well_formed, Hwf|].
  destruct (calculate_block_index_in_range c memory_address Hwf) as [Hrange Hlt].
  destruct (access_memory_cases memory_address c) as [[_ ->]|[_ ->]]; cbn [snd].
  - split; assumption.
  - set (idx := calculate_block_index c memory_address) in *.
    unfold load_block. cbn [fifo_queue cache_blocks number_of_blocks].
    unfold after_eviction.
    destruct (valid (block_at c idx)) eqn:Hv.
    + unfold evict_oldest_block. cbn [fifo_queue with_metrics].
      destruct (fifo_queue c) as [|o q] eqn:Hqueue.
      * pose proof (valid_count_lookup (cache_blocks c) (Z.to_nat idx)) as Hone.
        unfold block_at in Hv. unfold valid_bit in Hone. rewrite Hv in Hone.
        simpl in Hcount. lia.
      * cbn [fifo_queue cache_blocks number_of_blocks with_metrics].
        apply Forall_cons in Hq as [Ho Hq].
        split; [apply Forall_app; split; [exact Hq|];
                apply Forall_cons; split; [exact Hrange | apply Forall_nil_2]|].
        rewrite valid_count_insert by (rewrite length_alter; exact Hlt).
        rewrite valid_count_alter_invalidate, list_lookup_alter.
        rewrite length_app. simpl length in *.
        pose proof (valid_count_lookup (cache_blocks c) (Z.to_nat o)) as Hold.
        unfold block_at in Hv.
        destruct (decide (Z.to_nat o = Z.to_nat idx)) as [Heq|Hne].
        -- rewrite Heq in *.
           destruct (cache_blocks c !! Z.to_nat idx) as [b|]; simpl in *;
             unfold valid_bit in *; simpl; [rewrite Hv in *|discriminate]. lia.
        -- destruct (cache_blocks c !! Z.to_nat idx) as [b|]; simpl in *;
             [|discriminate].
           unfold valid_bit at 2 3. simpl. rewrite Hv.
           unfold valid_bit in *.
           destruct (valid (default new_block (cache_blocks c !! Z.to_nat o))); lia.
    + cbn [fifo_queue cache_blocks number_of_blocks with_metrics].
      split; [apply Forall_app; split; [exact Hq|];
              apply Forall_cons; split; [exact Hrange | apply Forall_nil_2]|].
      rewrite valid_count_insert by exact Hlt.
      unfold block_at in Hv. unfold valid_bit. rewrite Hv. simpl.
      rewrite length_app. simpl. lia.
Qed.

Lemma cache_serve_geometry r c :
  cache_size_bytes (cache_serve r c) = cache_size_bytes c /\
  block_size_bytes (cache_serve r c) = block_size_bytes c /\
  number_of_blocks (cache_serve r c) = number_of_blocks c.
Proof.
  destruct r as [a|]; simpl; [|auto].
  destruct (access_memory_cases a c) as [[_ ->]|[_ ->]]; cbn [snd]; [auto|].
  destruct (after_eviction_geometry c (calculate_block_index c a)) as (? & ? & ? & _).
  unfold load_block. cbn. auto.
Qed.

Lemma cache_session_invariant rs : forall c,
  cache_invariant c ->
  cache_invariant (cache_session rs c) /\
  cache_size_bytes (cache_session rs c) = cache_size_bytes c /\
  block_size_bytes (cache_session rs c) = block_size_bytes c /\
  number_of_blocks (cache_session rs c) = number_of_blocks c.
Proof.
  induction rs as [|r rs IH]; intros c Hinv; [simpl; auto|].
  unfold cache_session. simpl. fold (cache_session rs (cache_serve r c)).
  destruct (cache_serve_geometry r c) as (H1 & H2 & H3).
  destruct (IH (cache_serve r c)) as (Hinv' & G1 & G2 & G3).
  - destruct r; simpl; [apply access_memory_invariant | apply flush_cache_invariant];
      exact Hinv.
  - split; [exact Hinv'|]. rewrite G1, G2, G3. auto.
Qed.

(** X14. After any run of accesses and flushes on a constructed cache level
    the block vector still has [cache_size / block_size] entries, every
    address maps to an index inside it, every entry of the FIFO list is such
    an index, and the list has at least as many entries as there are valid
    blocks: an eviction, which happens only on an occupied slot, always
    finds an index to pop and never indexes outside the vector. *)
Theorem cache_session_bounds cache_size block_size c0 rs :
  is_size_t cache_size -> is_size_t block_size ->
  new_CacheLevel cache_size block_size = Some c0 ->
  number_of_blocks (cache_session rs c0) = cache_size / block_size /\
  length (cache_blocks (cache_session rs c0)) = Z.to_nat (cache_size / block_size) /\
  (forall a, 0 <= calculate_block_index (cache_session rs c0) a < cache_size / block_size) /\
  Forall (fun i => 0 <= i < cache_size / block_size) (fifo_queue (cache_session rs c0)) /\
  valid_count (cache_blocks (cache_session rs c0)) <=
    Z.of_nat (length (fifo_queue (cache_session rs c0))) /\
  (forall a, valid (block_at (cache_session rs c0)
                             (calculate_block_index (cache_session rs c0) a)) = true ->
             fifo_queue (cache_session rs c0) <> []).
Proof.
  intros [Hc _] [Hb _] Hnew.
  pose proof (new_CacheLevel_invariant _ _ _ Hc Hb Hnew) as Hinv0.
  destruct (cache_session_invariant rs c0 Hinv0) as ((Hwf & Hq & Hcount) & _ & _ & Hnb).
  assert (Hn0 : number_of_blocks c0 = cache_size / block_size).
  { unfold new_CacheLevel in Hnew.
    destruct (block_size =? 0); [discriminate|].
    destruct (cache_size / block_size =? 0); [discriminate|].
    injection Hnew as <-. reflexivity. }
  rewrite Hn0 in Hnb.
  pose proof Hwf as (_ & _ & Hlen). rewrite Hnb in Hlen, Hq.
  split; [exact Hnb|]. split; [exact Hlen|].
  split; [intros a; rewrite <- Hnb; apply calculate_block_index_in_range, Hwf|].
  split; [exact Hq|]. split; [exact Hcount|].
  intros a Hv Hempty. rewrite Hempty in Hcount. simpl in Hcount.
  pose proof (valid_count_lookup (cache_blocks (cache_session rs c0))
                (Z.to_nat (calculate_block_index (cache_session rs c0) a))) as Hone.
  unfold block_at in Hv. unfold valid_bit in Hone. rewrite Hv in Hone. lia.
Qed.

Lemma cache_session_bounds_witness :
  is_size_t 64 /\ is_size_t 16 /\
  exists c0, new_CacheLevel 64 16 = Some c0 /\
    fifo_queue (cache_session [Access 0; Access 16; Access 80; Flush; Access 0] c0) = [0] /\
    valid_count (cache_blocks (cache_session [Access 0; Access 16; Access 80] c0)) <=
      Z.of_nat (length (fifo_queue (cache_session [Access 0; Access 16; Access 80] c0))).
Proof.
  assert (H64 : is_size_t 64) by (unfold is_size_t, SIZE_MAX; lia).
  assert (H16 : is_size_t 16) by (unfold is_size_t, SIZE_MAX; lia).
  split; [exact H64|]. split; [exact H16|].
  eexists. split; [reflexivity|]. split; [reflexivity|].
  exact (proj1 (proj2 (proj2 (proj2 (proj2
    (cache_session_bounds 64 16 _ [Access 0; Access 16; Access 80] H64 H16 eq_refl)))))).
Defined.

End CacheInvariant.

Section CacheMetricsProperties.

Lemma access_memory_metrics memory_address c :
  performance_metrics (snd (access_memory memory_address c)) =
  if fst (access_memory memory_address c)
  then record_hit (performance_metrics c)
  else record_miss (performance_metrics c).
Proof.
  destruct (access_memory_cases memory_address c) as [[_ ->]|[_ ->]]; cbn [fst snd].
  - reflexivity.
  - unfold load_block, after_eviction. cbn [performance_metrics].
    destruct (valid _); [|reflexivity].
    unfold evict_oldest_block. cbn [fifo_queue with_metrics].
    destruct (fifo_queue c); reflexivity.
Qed.

Lemma record_hit_consistent m :
  metrics_consistent m -> total_accesses m < INT_MAX ->
  record_hit m = mkMetrics (total_accesses m + 1) (cache_hits m + 1) (cache_misses m).
Proof.
  intros (Hh & Hm & Ht) Hmax. unfold record_hit.
  rewrite !int_incr_small by (unfold below_int_max, INT_MIN in *; lia). reflexivity.
Qed.

Lemma record_miss_consistent m :
  metrics_consistent m -> total_accesses m < INT_MAX ->
  record_miss m = mkMetrics (total_accesses m + 1) (cache_hits m) (cache_misses m + 1).
Proof.
  intros (Hh & Hm & Ht) Hmax. unfold record_miss.
  rewrite !int_incr_small by (unfold below_int_max, INT_MIN in *; lia). reflexivity.
Qed.

Lemma access_memory_counts memory_address c :
  metrics_consistent (performance_metrics c) ->
  total_accesses (performance_metrics c) < INT_MAX ->
  let hit := fst (access_memory memory_address c) in
  let m' := performance_metrics (snd (access_memory memory_address c)) in
  metrics_consistent m' /\
  total_accesses m' = total_accesses (performance_metrics c) + 1 /\
  cache_hits m' = cache_hits (performance_metrics c) + (if hit then 1 else 0) /\
  cache_misses m' = cache_misses (performance_metrics c) + (if hit then 0 else 1).
Proof.
  intros Hm Hmax. cbv zeta. rewrite access_memory_metrics.
  pose proof Hm as (Hh & Hmi & Ht).
  destruct (fst (access_memory memory_address c)).
  - rewrite (record_hit_consistent _ Hm Hmax). unfold metrics_consistent. simpl. lia.
  - rewrite (record_miss_consistent _ Hm Hmax). unfold metrics_consistent. simpl. lia.
Qed.

Lemma access_all_counts addresses : forall c,
  metrics_consistent (performance_metrics c) ->
  total_accesses (performance_metrics c) + Z.of_nat (length addresses) <= INT_MAX ->
  let answers := fst (access_all addresses c) in
  let m' := performance_metrics (snd (access_all addresses c)) in
  length answers = length addresses /\
  metrics_consistent m' /\
  total_accesses m' = total_accesses (performance_metrics c) + Z.of_nat (length addresses) /\
  cache_hits m' = cache_hits (performance_metrics c) + count_hits answers /\
  cache_misses m' =
    cache_misses (performance_metrics c) +
    (Z.of_nat (length addresses) - count_hits answers).
Proof.
  induction addresses as [|a rest IH]; intros c Hm Hmax; cbv zeta.
  - simpl. repeat split; try apply Hm; lia.
  - cbn [access_all].
    destruct (access_memory a c) as [hit c1] eqn:Hacc.
    destruct (access_all rest c1) as [hits c2] eqn:Hall.
    cbn [fst snd].
    destruct (access_memory_counts a c Hm) as (Hm1 & Ht1 & Hh1 & Hmi1);
      [cbn [length] in Hmax; lia|].
    rewrite Hacc in Hm1, Ht1, Hh1, Hmi1. cbn [fst snd] in *.
    destruct (IH c1 Hm1) as (Hlen & Hm2 & Ht2 & Hh2 & Hmi2);
      [cbn [length] in Hmax; lia|].
    rewrite Hall in Hlen, Hm2, Ht2, Hh2, Hmi2. cbn [fst snd] in *.
    cbn [length count_hits].
    split; [congruence|]. split; [exact Hm2|].
    rewrite Ht2, Hh2, Hmi2, Ht1, Hh1, Hmi1.
    destruct hit; lia.
Qed.

(** X15. After a run of accesses on a fresh cache level (at most [INT_MAX]
    of them) the access counter is the number of accesses, the hit counter
    the number of hit answers, the miss counter the number of miss answers,
    so the three counters always satisfy total = hits + misses. *)
Theorem access_all_metrics cache_size block_size c0 addresses :
  new_CacheLevel cache_size block_size = Some c0 ->
  Z.of_nat (length addresses) <= INT_MAX ->
  let answers := fst (access_all addresses c0) in
  let m := performance_metrics (snd (access_all addresses c0)) in
  length answers = length addresses /\
  total_accesses m = Z.of_nat (length addresses) /\
  cache_hits m = count_hits answers /\
  cache_misses m = Z.of_nat (length addresses) - count_hits answers /\
  total_accesses m = cache_hits m + cache_misses m.
Proof.
  intros Hnew Hmax. cbv zeta.
  assert (Hm0 : performance_metrics c0 = new_metrics).
  { unfold new_CacheLevel in Hnew.
    destruct (block_size =? 0); [discriminate|].
    destruct (cache_size / block_size =? 0); [discriminate|].
    injection Hnew as <-. reflexivity. }
  destruct (access_all_counts addresses c0) as (Hlen & _ & Ht & Hh & Hmi).
  - rewrite Hm0. unfold metrics_consistent. simpl. lia.
  - rewrite Hm0. simpl. lia.
  - rewrite Hm0 in Ht, Hh, Hmi. simpl in Ht, Hh, Hmi.
    repeat split; lia.
Qed.

Lemma access_all_metrics_witness :
  exists c0, new_CacheLevel 64 16 = Some c0 /\
    Z.of_nat (length [0; 0; 64; 0]) <= INT_MAX /\
    performance_metrics (snd (access_all [0; 0; 64; 0] c0)) = mkMetrics 4 1 3 /\
    total_accesses (performance_metrics (snd (access_all [0; 0; 64; 0] c0))) =
      Z.of_nat (length [0; 0; 64; 0]).
Proof.
  eexists. split; [reflexivity|].
  assert (H : Z.of_nat (length [0; 0; 64; 0]) <= INT_MAX) by (unfold INT_MAX; simpl; lia).
  split; [exact H|]. split; [reflexivity|].
  exact (proj1 (proj2 (access_all_metrics 64 16 _ [0; 0; 64; 0] eq_refl H))).
Defined.

End CacheMetricsProperties.

(** ** The cache hierarchy *)

Section Hierarchy.


Lemma new_CacheLevel_fields cache_size block_size c :
  new_CacheLevel cache_size block_size = Some c ->
  cache_size_bytes c = cache_size /\ block_size_bytes c = block_size /\
  performance_metrics c = new_metrics.
Proof.
  unfold new_CacheLevel.
  destruct (block_size =? 0); [discriminate|].
  destruct (cache_size / block_size =? 0); [discriminate|].
  intros H. injection H as <-. auto.
Qed.

Lemma initialize_cache_hierarchy_initialized l1s l1b l2s l2b h h' :
  initialize_cache_hierarchy l1s l1b l2s l2b h = Some h' ->
  cache_hierarchy_initialized h' = true ->
  exists c1 c2,
    new_CacheLevel l1s l1b = Some c1 /\ new_CacheLevel l2s l2b = Some c2 /\
    h' = mkHierarchy (Some c1) (Some c2) true.
Proof.
  unfold initialize_cache_hierarchy.
  destruct (new_CacheLevel l1s l1b) as [c1|].
  - destruct (new_CacheLevel l2s l2b) as [c2|].
    + intros H _. injection H as <-. eauto.
    + destruct (non_null (l2_cache h)); [discriminate|].
      intros H. injection H as <-. discriminate.
  - destruct (non_null (l1_cache h) || non_null (l2_cache h)); [discriminate|].
    intros H. injection H as <-. discriminate.
Qed.

Lemma hierarchy_serve_configured a b c d r h :
  hierarchy_configured a b c d h -> hierarchy_configured a b c d (hierarchy_serve r h).
Proof.
  intros (l1 & l2 & -> & H1 & H2 & H3 & H4).
  destruct r as [addr|]; simpl.
  - unfold simulate_memory_access. cbn [cache_hierarchy_initialized negb l1_cache l2_cache].
    destruct (cache_serve_geometry (Access addr) l1) as (G1 & G2 & _).
    destruct (cache_serve_geometry (Access addr) l2) as (G3 & G4 & _).
    simpl in G1, G2, G3, G4.
    destruct (access_memory addr l1) as [hit1 l1'].
    destruct hit1.
    + exists l1', l2. simpl in *. repeat split; congruence.
    + destruct (access_memory addr l2) as [hit2 l2'].
      destruct hit2; exists l1', l2'; simpl in *; repeat split; congruence.
  - exists (flush_cache l1), (flush_cache l2). simpl. auto.
Qed.

Lemma hierarchy_session_configured a b c d rs : forall h,
  hierarchy_configured a b c d h ->
  hierarchy_configured a b c d (hierarchy_session rs h).
Proof.
  induction rs as [|r rs IH]; intros h Hh; [exact Hh|].
  unfold hierarchy_session. simpl. apply IH, hierarchy_serve_configured, Hh.
Qed.

(** X16. Resetting the statistics after any run of accesses and flushes
    gives back the hierarchy exactly as [initialize_cache_hierarchy] made
    it: same configuration, every block invalid, empty FIFO lists, zeroed
    counters; the reconstruction cannot fail. *)
Theorem reset_cache_statistics_restores l1s l1b l2s l2b h0 h rs :
  initialize_cache_hierarchy l1s l1b l2s l2b h0 = Some h ->
  cache_hierarchy_initialized h = true ->
  reset_cache_statistics (hierarchy_session rs h) = Some h.
Proof.
  intros Hinit Hflag.
  destruct (initialize_cache_hierarchy_initialized _ _ _ _ _ _ Hinit Hflag)
    as (c1 & c2 & Hc1 & Hc2 & ->).
  destruct (new_CacheLevel_fields _ _ _ Hc1) as (S1 & B1 & _).
  destruct (new_CacheLevel_fields _ _ _ Hc2) as (S2 & B2 & _).
  destruct (hierarchy_session_configured l1s l1b l2s l2b rs
              (mkHierarchy (Some c1) (Some c2) true))
    as (l1 & l2 & -> & G1 & G2 & G3 & G4).
  { exists c1, c2. auto. }
  unfold reset_cache_statistics. cbn [cache_hierarchy_initialized l1_cache l2_cache].
  rewrite G1, G2, G3, G4. unfold initialize_cache_hierarchy.
  rewrite Hc1, Hc2. reflexivity.
Qed.

Lemma reset_cache_statistics_restores_witness :
  exists h,
    initialize_cache_hierarchy 1024 32 8192 64 new_hierarchy = Some h /\
    cache_hierarchy_initialized h = true /\
    hierarchy_session [HAccess 0; HAccess 4096; HFlush; HAccess 0] h <> h /\
    reset_cache_statistics
      (hierarchy_session [HAccess 0; HAccess 4096; HFlush; HAccess 0] h) = Some h.
Proof.
  eexists. split; [reflexivity|]. split; [reflexivity|].
  split; [vm_compute; discriminate|].
  apply (reset_cache_statistics_restores 1024 32 8192 64 new_hierarchy _ _ eq_refl eq_refl).
Defined.

Lemma simulate_memory_access_counts a k hits h :
  0 <= k < INT_MAX ->
  hierarchy_counts k hits h ->
  hierarchy_counts (k + 1)
    (hits + (if fst (simulate_memory_access a h) then 1 else 0))
    (snd (simulate_memory_access a h)).
Proof.
  intros Hk (l1 & l2 & -> & Hm1 & Hm2 & Ht1 & Ht2 & Hhits).
  unfold simulate_memory_access. cbn [cache_hierarchy_initialized negb l1_cache l2_cache].
  destruct (access_memory_counts a l1 Hm1 ltac:(lia)) as (Hm1' & T1 & H1 & M1).
  destruct (access_memory a l1) as [hit1 l1']. cbn [fst snd] in *.
  destruct hit1.
  - cbn [fst snd]. exists l1', l2.
    (split; [reflexivity|]); (split; [exact Hm1'|]); (split; [exact Hm2|]); lia.
  - assert (Hl2 : total_accesses (performance_metrics l2) < INT_MAX).
    { destruct Hm1 as (? & ? & ?). lia. }
    destruct (access_memory_counts a l2 Hm2 Hl2) as (Hm2' & T2 & H2 & M2).
    destruct (access_memory a l2) as [hit2 l2']. cbn [fst snd] in *.
    destruct hit2; cbn [fst snd]; exists l1', l2';
      (split; [reflexivity|]); (split; [exact Hm1'|]); (split; [exact Hm2'|]); lia.
Qed.

Lemma simulate_all_counts addresses : forall k hits h,
  0 <= k -> k + Z.of_nat (length addresses) <= INT_MAX ->
  hierarchy_counts k hits h ->
  length (fst (simulate_all addresses h)) = length addresses /\
  hierarchy_counts (k + Z.of_nat (length addresses))
    (hits + count_hits (fst (simulate_all addresses h)))
    (snd (simulate_all addresses h)).
Proof.
  induction addresses as [|a rest IH]; intros k hits h Hk Hmax Hh.
  - simpl. rewrite !Z.add_0_r. auto.
  - cbn [simulate_all length] in *.
    pose proof (simulate_memory_access_counts a k hits h ltac:(lia) Hh) as Hstep.
    destruct (simulate_memory_access a h) as [hit h1]. cbn [fst snd] in Hstep.
    destruct (IH (k + 1) _ h1 ltac:(lia) ltac:(lia) Hstep) as (Hlen & Hfin).
    destruct (simulate_all rest h1) as [hits' h2]. cbn [fst snd] in *.
    split; [cbn [length]; f_equal; exact Hlen|]. cbn [count_hits].
    replace (k + Z.of_nat (S (length rest))) with (k + 1 + Z.of_nat (length rest)) by lia.
    replace (hits + ((if hit then 1 else 0) + count_hits hits'))
      with (hits + (if hit then 1 else 0) + count_hits hits') by lia.
    exact Hfin.
Qed.

(** X17. In a run of accesses through a freshly initialised hierarchy (at
    most [INT_MAX] of them) the first level counts every access, the second
    level is consulted exactly on the misses of the first, and the number of
    accesses answered with a hit is the sum of the two hit counters. *)
Theorem hierarchy_access_counts l1s l1b l2s l2b h0 h addresses :
  initialize_cache_hierarchy l1s l1b l2s l2b h0 = Some h ->
  cache_hierarchy_initialized h = true ->
  Z.of_nat (length addresses) <= INT_MAX ->
  exists l1 l2,
    snd (simulate_all addresses h) = mkHierarchy (Some l1) (Some l2) true /\
    length (fst (simulate_all addresses h)) = length addresses /\
    total_accesses (performance_metrics l1) = Z.of_nat (length addresses) /\
    total_accesses (performance_metrics l2) = cache_misses (performance_metrics l1) /\
    count_hits (fst (simulate_all addresses h)) =
      cache_hits (performance_metrics l1) + cache_hits (performance_metrics l2).
Proof.
  intros Hinit Hflag Hmax.
  destruct (initialize_cache_hierarchy_initialized _ _ _ _ _ _ Hinit Hflag)
    as (c1 & c2 & Hc1 & Hc2 & ->).
  destruct (new_CacheLevel_fields _ _ _ Hc1) as (_ & _ & M1).
  destruct (new_CacheLevel_fields _ _ _ Hc2) as (_ & _ & M2).
  destruct (simulate_all_counts addresses 0 0 (mkHierarchy (Some c1) (Some c2) true))
    as (Hlen & l1 & l2 & Heq & _ & _ & Ht1 & Ht2 & Hhits); try lia.
  - exists c1, c2. rewrite M1, M2. unfold metrics_consistent. simpl.
    repeat split; lia.
  - exists l1, l2. repeat split; trivial; lia.
Qed.

Lemma hierarchy_access_counts_witness :
  exists h,
    initialize_cache_hierarchy 1024 32 8192 64 new_hierarchy = Some h /\
    cache_hierarchy_initialized h = true /\
    Z.of_nat (length [0; 0; 1024; 0; 1024]) <= INT_MAX /\
    fst (simulate_all [0; 0; 1024; 0; 1024] h) = [false; true; false; true; true] /\
    exists l1 l2,
      snd (simulate_all [0; 0; 1024; 0; 1024] h) = mkHierarchy (Some l1) (Some l2) true /\
      total_accesses (performance_metrics l2) = cache_misses (performance_metrics l1).
Proof.
  eexists. split; [reflexivity|]. split; [reflexivity|].
  assert (H : Z.of_nat (length [0; 0; 1024; 0; 1024]) <= INT_MAX)
    by (unfold INT_MAX; simpl; lia).
  split; [exact H|]. split; [reflexivity|].
  destruct (hierarchy_access_counts 1024 32 8192 64 new_hierarchy _
              [0; 0; 1024; 0; 1024] eq_refl eq_refl H)
    as (l1 & l2 & Heq & _ & _ & Ht2 & _).
  exists l1, l2. auto.
Defined.

End Hierarchy.

Section HierarchyInitialisation.



End HierarchyInitialisation.

(** ** The command layer: tokens *)

Section Tokens.

Lemma string_length_append (a b : string) :
  String.length (a ++ b) = (String.length a + String.length b)%nat.
Proof. induction a as [|c a IH]; simpl; [reflexivity | rewrite IH; reflexivity]. Qed.

Lemma string_append_nil_r (a : string) : (a ++ EmptyString)%string = a.
Proof. induction a as [|c a IH]; simpl; [reflexivity | rewrite IH; reflexivity]. Qed.

Lemma strip_whitespace_word w r :
  all_nonspace w = true ->
  strip_whitespace (w ++ r) = (w ++ strip_whitespace r)%string.
Proof.
  induction w as [|c w IH]; simpl; [reflexivity|].
  intros H. apply andb_true_iff in H as [Hc Hw]. apply negb_true_iff in Hc.
  rewrite Hc, IH by exact Hw. reflexivity.
Qed.

Lemma skip_whitespace_spec s :
  strip_whitespace (skip_whitespace s) = strip_whitespace s /\
  (String.length (skip_whitespace s) <= String.length s)%nat /\
  match skip_whitespace s with
  | EmptyString => True
  | String c _ => isspace c = false
  end.
Proof.
  induction s as [|c s (IH1 & IH2 & IH3)]; simpl; [auto|].
  destruct (isspace c) eqn:E; simpl.
  - split; [exact IH1|]. split; [lia | exact IH3].
  - rewrite E. auto.
Qed.

Lemma extract_word_spec s : forall w r,
  extract_word s = (w, r) ->
  s = (w ++ r)%string /\ all_nonspace w = true /\ at_word_end r.
Proof.
  induction s as [|c s IH]; simpl; intros w r H.
  - injection H as <- <-. simpl. auto.
  - destruct (isspace c) eqn:E.
    + injection H as <- <-. simpl. auto.
    + destruct (extract_word s) as [w' r'] eqn:Es.
      injection H as <- <-.
      destruct (IH w' r' eq_refl) as (-> & Hw & Hr).
      simpl. rewrite E. auto.
Qed.

Lemma read_token_Some s w r :
  read_token s = Some (w, r) ->
  is_word w /\ at_word_end r /\
  strip_whitespace s = (w ++ strip_whitespace r)%string /\
  (String.length r < String.length s)%nat.
Proof.
  unfold read_token.
  destruct (skip_whitespace_spec s) as (Hstrip & Hlen & _).
  destruct (extract_word (skip_whitespace s)) as [w' r'] eqn:E.
  destruct (extract_word_spec _ _ _ E) as (Heq & Hw & Hr).
  destruct w' as [|c w']; [discriminate|].
  intros H. injection H as <- <-.
  split; [split; [discriminate | exact Hw]|]. split; [exact Hr|].
  rewrite <- Hstrip, Heq. split; [apply strip_whitespace_word, Hw|].
  rewrite Heq in Hlen. rewrite string_length_append in Hlen. simpl in *. lia.
Qed.

Lemma read_token_None s :
  read_token s = None -> strip_whitespace s = EmptyString.
Proof.
  unfold read_token.
  destruct (skip_whitespace_spec s) as (Hstrip & _ & Hfirst).
  destruct (extract_word (skip_whitespace s)) as [w r] eqn:E.
  destruct w as [|c w]; [|discriminate]. intros _.
  rewrite <- Hstrip.
  destruct (skip_whitespace s) as [|c s']; [reflexivity|].
  simpl in E. rewrite Hfirst in E.
  destruct (extract_word s'); discriminate.
Qed.

Lemma tokenize_loop_spec fuel : forall s,
  (String.length s < fuel)%nat ->
  Forall is_word (tokenize_loop fuel s) /\
  concat_strings (tokenize_loop fuel s) = strip_whitespace s.
Proof.
  induction fuel as [|fuel IH]; intros s Hlen; [lia|].
  simpl. destruct (read_token s) as [[w r]|] eqn:E.
  - destruct (read_token_Some _ _ _ E) as (Hw & _ & Hstrip & Hr).
    destruct (IH r ltac:(lia)) as (Hall & Hcat).
    split; [apply Forall_cons; split; assumption|].
    simpl. rewrite Hcat, Hstrip. reflexivity.
  - split; [apply Forall_nil_2|]. simpl. symmetry. apply read_token_None, E.
Qed.

Lemma tokenize_loop_fuel fuel : forall fuel' s,
  (String.length s < fuel)%nat -> (String.length s < fuel')%nat ->
  tokenize_loop fuel s = tokenize_loop fuel' s.
Proof.
  induction fuel as [|fuel IH]; intros fuel' s H H'; [lia|].
  destruct fuel' as [|fuel']; [lia|].
  simpl. destruct (read_token s) as [[w r]|] eqn:E; [|reflexivity].
  destruct (read_token_Some _ _ _ E) as (_ & _ & _ & Hr).
  f_equal. apply IH; lia.
Qed.

(** X19. The tokens of a command line are words (not empty, no white
    space), and joined together they are the line with its white space
    removed: tokenizing loses nothing but white space.  More fuel than the
    wrapper gives the loop never changes the tokens, so the loop really
    ends. *)
Theorem tokenize_command_words command_line :
  Forall is_word (tokenize_command command_line) /\
  concat_strings (tokenize_command command_line) = strip_whitespace command_line /\
  (forall fuel, (String.length command_line < fuel)%nat ->
     tokenize_loop fuel command_line = tokenize_command command_line).
Proof.
  unfold tokenize_command.
  destruct (tokenize_loop_spec (S (String.length command_line)) command_line) as [H1 H2];
    [lia|].
  split; [exact H1|]. split; [exact H2|].
  intros fuel Hfuel. apply tokenize_loop_fuel; lia.
Qed.

Lemma skip_whitespace_word w r :
  is_word w -> skip_whitespace (w ++ r) = (w ++ r)%string.
Proof.
  intros [Hne Hw]. destruct w as [|c w]; [contradiction|].
  simpl in *. apply andb_true_iff in Hw as [Hc _]. apply negb_true_iff in Hc.
  rewrite Hc. reflexivity.
Qed.

Lemma extract_word_word w r :
  all_nonspace w = true -> at_word_end r -> extract_word (w ++ r) = (w, r).
Proof.
  induction w as [|c w IH]; simpl; intros Hw Hr.
  - destruct r as [|c r]; [reflexivity|]. simpl in *. rewrite Hr. reflexivity.
  - apply andb_true_iff in Hw as [Hc Hw]. apply negb_true_iff in Hc.
    rewrite Hc, IH by assumption. reflexivity.
Qed.

Lemma read_token_word w r :
  is_word w -> at_word_end r -> read_token (w ++ r) = Some (w, r).
Proof.
  intros Hw Hr. unfold read_token.
  rewrite skip_whitespace_word by exact Hw.
  rewrite extract_word_word by (trivial; apply Hw).
  destruct Hw as [Hne _]. destruct w; [contradiction | reflexivity].
Qed.

Lemma tokenize_loop_leading_space fuel s :
  tokenize_loop fuel (String " "%char s) = tokenize_loop fuel s.
Proof. destruct fuel; reflexivity. Qed.

Lemma tokenize_loop_join words : forall fuel,
  Forall is_word words ->
  (String.length (String.concat " " words) < fuel)%nat ->
  tokenize_loop fuel (String.concat " " words) = words.
Proof.
  induction words as [|w words IH]; intros fuel Hall Hfuel.
  - destruct fuel; reflexivity.
  - apply Forall_cons in Hall as [Hw Hall].
    destruct fuel as [|fuel]; [lia|].
    destruct words as [|w' words].
    + simpl. rewrite <- (string_append_nil_r w) at 1.
      rewrite read_token_word by (trivial; exact I).
      destruct fuel; reflexivity.
    + change (String.concat " " (w :: w' :: words))
        with (w ++ String " "%char (String.concat " " (w' :: words)))%string in *.
      rewrite string_length_append in Hfuel. cbn [String.length] in Hfuel.
      cbn [tokenize_loop].
      rewrite read_token_word by (trivial; reflexivity).
      rewrite tokenize_loop_leading_space, IH by (trivial; lia).
      reflexivity.
Qed.

(** X20. Joining words with single spaces and tokenizing the result gives
    the words back. *)
Theorem tokenize_command_join words :
  Forall is_word words ->
  tokenize_command (String.concat " " words) = words.
Proof.
  intros Hall. unfold tokenize_command. apply tokenize_loop_join; [exact Hall | lia].
Qed.

Lemma tokenize_command_join_witness :
  Forall is_word ["alloc"; "256"]%string /\
  String.concat " " ["alloc"; "256"]%string = "alloc 256"%string /\
  tokenize_command "alloc 256" = ["alloc"; "256"]%string /\
  tokenize_command (String.concat " " ["alloc"; "256"]%string) = ["alloc"; "256"]%string.
Proof.
  assert (H : Forall is_word ["alloc"; "256"]%string).
  { repeat (apply Forall_cons; split); try apply Forall_nil_2;
      (split; [discriminate | reflexivity]). }
  split; [exact H|]. split; [reflexivity|]. split; [reflexivity|].
  apply (tokenize_command_join _ H).
Defined.

End Tokens.

(** ** The command layer: sessions *)

Section CommandSessions.

Variable stoull : string -> conversion.
Variable stoi : string -> conversion.
Hypothesis stoull_range : forall s v, stoull s = Converted v -> is_size_t v.

Lemma allocate_memory_block_simulator_ok n st :
  is_size_t n -> simulator_ok st -> simulator_ok (snd (allocate_memory_block n st)).
Proof.
  intros Hn [[Hempty Hcap]|(Hpos & HC & Hinv)].
  - rewrite allocate_memory_block_no_space by (rewrite Hempty; apply Forall_nil_2).
    left. auto.
  - right.
    assert (Hc : total_memory_capacity (snd (allocate_memory_block n st)) =
                 total_memory_capacity st)
      by (apply (serve_capacity (Alloc n) st); reflexivity).
    rewrite Hc. split; [exact Hpos|]. split; [exact HC|].
    apply allocate_memory_block_pool_invariant; assumption.
Qed.

Lemma deallocate_memory_block_simulator_ok pid st :
  simulator_ok st ->
  exists found st', deallocate_memory_block pid st = Some (found, st') /\
                    simulator_ok st'.
Proof.
  intros [[Hempty Hcap]|(Hpos & HC & Hinv)].
  - exists false, st. split; [|left; auto].
    apply deallocate_memory_block_not_found. rewrite Hempty. apply Forall_nil_2.
  - destruct (deallocate_memory_block_pool_invariant _ pid st HC Hinv)
      as (found & st' & Hrun & Hinv').
    exists found, st'. split; [exact Hrun|]. right.
    assert (Hc : total_memory_capacity st' = total_memory_capacity st).
    { apply (serve_capacity (Free pid) st). simpl. rewrite Hrun. reflexivity. }
    rewrite Hc. auto.
Qed.

Lemma process_single_command_simulator_ok command_line p :
  simulator_ok (memory_simulator p) ->
  exists answer p',
    process_single_command stoull stoi command_line p = Some (answer, p') /\
    simulator_ok (memory_simulator p').
Proof.
  intros Hok. unfold process_single_command.
  destruct (tokenize_command command_line) as [|command arguments]; [eauto|].
  set (tokens := command :: arguments).
  repeat match goal with
         | |- context [if one_of command ?names then _ else _] =>
             destruct (one_of command names)
         end.
  - unfold handle_init_command. destruct (tokens !! 1%nat) as [argument|]; [|eauto].
    destruct (stoull argument) as [v| |] eqn:E; [|eauto|eauto].
    destruct (v =? 0) eqn:E0; [eauto|]. apply Z.eqb_neq in E0.
    pose proof (stoull_range _ _ E) as Hv.
    eexists _, _. split; [reflexivity|]. right. simpl.
    split; [destruct Hv; lia|]. split; [exact Hv|].
    apply (initialize_memory_pool_invariant v (memory_simulator p) Hv).
  - unfold handle_strategy_command. destruct (tokens !! 1%nat) as [algorithm|]; [|eauto].
    repeat match goal with
           | |- context [if one_of algorithm ?names then _ else _] =>
               destruct (one_of algorithm names)
           end; eauto.
  - unfold handle_allocate_command. destruct (tokens !! 1%nat) as [argument|]; [|eauto].
    destruct (stoull argument) as [v| |] eqn:E; [|eauto|eauto].
    eexists _, _. split; [reflexivity|]. simpl.
    apply allocate_memory_block_simulator_ok; [apply (stoull_range _ _ E) | exact Hok].
  - unfold handle_deallocate_command. destruct (tokens !! 1%nat) as [argument|]; [|eauto].
    destruct (stoi argument) as [v| |]; [|eauto|eauto].
    destruct (deallocate_memory_block_simulator_ok v _ Hok) as (found & st' & -> & Hok').
    eauto.
  - eauto.
  - eauto.
  - eexists _, _. split; [reflexivity|]. left. auto.
  - eauto.
  - eauto.
  - eauto.
Qed.

Lemma interactive_loop_simulator_ok input : forall p,
  simulator_ok (memory_simulator p) ->
  exists p', interactive_loop stoull stoi input p = Some p' /\
             simulator_ok (memory_simulator p').
Proof.
  induction input as [|line rest IH]; intros p Hok; simpl; [eauto|].
  destruct (is_running p); [|eauto].
  destruct line as [|c line]; [apply IH, Hok|].
  destruct (process_single_command_simulator_ok (String c line) p Hok)
    as (answer & p' & -> & Hok').
  apply IH, Hok'.
Qed.

End CommandSessions.

Section CommandSessionTheorems.

Lemma decimal_value_nonneg s : forall acc v,
  0 <= acc -> decimal_value s acc = Some v -> 0 <= v.
Proof.
  induction s as [|c s IH]; simpl; intros acc v Hacc H.
  - injection H as <-. exact Hacc.
  - unfold digit_of in H.
    destruct (Nat.leb 48 (nat_of_ascii c) && Nat.leb (nat_of_ascii c) 57) eqn:E;
      [|discriminate].
    apply andb_true_iff in E as [E1 E2]. apply Nat.leb_le in E1.
    eapply IH; [|exact H]. lia.
Qed.

Lemma decimal_conversion_range s v :
  decimal_conversion SIZE_MAX s = Converted v -> is_size_t v.
Proof.
  unfold decimal_conversion. destruct s as [|c s]; [discriminate|].
  destruct (decimal_value (String c s) 0) as [w|] eqn:E; [|discriminate].
  destruct (w <=? SIZE_MAX) eqn:Hle; [|discriminate].
  intros H. injection H as <-. apply Z.leb_le in Hle.
  split; [apply (decimal_value_nonneg _ _ _ (Z.le_refl 0) E) | exact Hle].
Qed.

(** X21. Whatever lines an interactive session reads, and whatever
    [std::stoull] and [std::stoi] make of the arguments (as long as
    [std::stoull] returns [size_t] values), every command returns and the
    simulator is either empty with capacity 0 or holds a pool of positive
    capacity whose segment list partitions [0, capacity) and has no two free
    neighbours: no command line can break the allocator's layout. *)
Theorem interactive_session_keeps_layout
  (stoull stoi : string -> conversion) (input : list string) :
  (forall s v, stoull s = Converted v -> is_size_t v) ->
  exists p,
    run_interactive_session stoull stoi input (new_processor new_simulator) = Some p /\
    ((heap_segments (memory_simulator p) = [] /\
      total_memory_capacity (memory_simulator p) = 0) \/
     (0 < total_memory_capacity (memory_simulator p) /\
      partitions (heap_segments (memory_simulator p))
                 (total_memory_capacity (memory_simulator p)) /\
      no_adjacent_free (heap_segments (memory_simulator p)) /\
      positive_sizes (heap_segments (memory_simulator p)))).
Proof.
  intros Hrange. unfold run_interactive_session.
  destruct (interactive_loop_simulator_ok stoull stoi Hrange input
              (mkProcessor (memory_simulator (new_processor new_simulator)) true))
    as (p & Hrun & Hok).
  { left. auto. }
  exists p. split; [exact Hrun|].
  destruct Hok as [H|(Hpos & HC & Hinv)]; [left; exact H|right].
  split; [exact Hpos|]. split; [apply pool_invariant_partitions, Hinv|].
  destruct Hinv as (_ & _ & Hfree & Hsizes). auto.
Qed.

Lemma interactive_session_keeps_layout_witness :
  (forall s v, decimal_conversion SIZE_MAX s = Converted v -> is_size_t v) /\
  run_interactive_session (decimal_conversion SIZE_MAX) (decimal_conversion INT_MAX)
    scenario_lines (new_processor new_simulator) =
    Some (mkProcessor
            (mkSim [mkSegment 0 64 false 1] 64 2 FIRST_FIT (mkStats 1 1 0)) false) /\
  exists p,
    run_interactive_session (decimal_conversion SIZE_MAX) (decimal_conversion INT_MAX)
      scenario_lines (new_processor new_simulator) = Some p.
Proof.
  split; [exact decimal_conversion_range|]. split; [vm_compute; reflexivity|].
  destruct (interactive_session_keeps_layout (decimal_conversion SIZE_MAX)
              (decimal_conversion INT_MAX) scenario_lines decimal_conversion_range)
    as (p & Hrun & _).
  exists p. exact Hrun.
Defined.

End CommandSessionTheorems.

Section CommandDispatch.

Variable stoull : string -> conversion.
Variable stoi : string -> conversion.

Lemma one_of_In command names : one_of command names = true -> In command names.
Proof.
  unfold one_of. intros H. apply existsb_exists in H as (x & Hin & Heq).
  apply String.eqb_eq in Heq. subst. exact Hin.
Qed.

Lemma one_of_unchanging command names :
  ~ In command changing_commands ->
  (forall x, In x names -> In x changing_commands) ->
  one_of command names = false.
Proof.
  intros Hnot Hsub. destruct (one_of command names) eqn:E; [|reflexivity].
  destruct Hnot. apply Hsub, one_of_In, E.
Qed.

(** X22. A command line whose first token is none of the thirteen command
    names that initialise, configure, allocate, free, reset or quit leaves
    the processor as it was: the display, statistics and help commands,
    unknown commands and blank lines change neither the simulator nor the
    running flag, whatever arguments follow. *)
Theorem process_single_command_read_only command_line p :
  (forall command, head (tokenize_command command_line) = Some command ->
                   ~ In command changing_commands) ->
  process_single_command stoull stoi command_line p =
    Some (match tokenize_command command_line with
          | [] => true
          | _ => is_running p
          end, p).
Proof.
  intros Hnot. unfold process_single_command.
  destruct (tokenize_command command_line) as [|command arguments]; [reflexivity|].
  specialize (Hnot command eq_refl).
  assert (Hno : forall names, (forall x, In x names -> In x changing_commands) ->
                              one_of command names = false)
    by (intros names; apply one_of_unchanging, Hnot).
  rewrite (Hno ["init"; "initialize"]%string),
          (Hno ["strategy"; "set"]%string),
          (Hno ["alloc"; "malloc"]%string),
          (Hno ["free"; "dealloc"]%string),
          (Hno ["reset"; "clear"]%string),
          (Hno ["quit"; "exit"; "bye"]%string)
    by (unfold changing_commands; simpl; intuition).
  repeat match goal with
         | |- context [if one_of command ?names then _ else _] =>
             destruct (one_of command names)
         end; reflexivity.
Qed.

End CommandDispatch.

Section CommandDispatchWitness.

Lemma process_single_command_read_only_witness :
  (forall command, head (tokenize_command "stats now") = Some command ->
                   ~ In command changing_commands) /\
  process_single_command (decimal_conversion SIZE_MAX) (decimal_conversion INT_MAX)
    "stats now" (mkProcessor busy_pool true) = Some (true, mkProcessor busy_pool true).
Proof.
  assert (H : forall command, head (tokenize_command "stats now") = Some command ->
                              ~ In command changing_commands).
  { intros command Hc. vm_compute in Hc. injection Hc as <-.
    unfold changing_commands. simpl.
    intros Hin. repeat (destruct Hin as [Hin|Hin]; [discriminate Hin|]).
    exact Hin. }
  split; [exact H|].
  apply (process_single_command_read_only (decimal_conversion SIZE_MAX)
           (decimal_conversion INT_MAX) "stats now" (mkProcessor busy_pool true) H).
Defined.

End CommandDispatchWitness.

Section TokensWitness.

Lemma tokenize_command_words_witness :
  tokenize_command "  malloc   100 " = ["malloc"; "100"]%string /\
  strip_whitespace "  malloc   100 " = "malloc100"%string /\
  (String.length "  malloc   100 " < 100)%nat /\
  tokenize_loop 100 "  malloc   100 " = tokenize_command "  malloc   100 ".
Proof.
  assert (H : (String.length "  malloc   100 " < 100)%nat) by (simpl; lia).
  split; [reflexivity|]. split; [reflexivity|]. split; [exact H|].
  exact (proj2 (proj2 (tokenize_command_words "  malloc   100 ")) 100%nat H).
Defined.

End TokensWitness.
